(** * Markdown-translator-go: the file-processing pipeline, verified

    A shallow embedding of the Go sources

      - [utils/text.go]        (ExtractTranslation)
      - [utils/io.go]          (ReadFile, WriteFile)
      - [discovery/finder.go]  (FindMarkdownFiles)
      - [processor]            (ProcessFiles, worker)
      - [main]                 (the exit status)

    Go strings are byte sequences: they are modelled by [string], whose
    characters are the 256 byte values.  Go's [int32] counters are [Z]
    with the wrap-around written out.  The operating system and the
    translation backend are the environment of the program: the file
    system is a finite map from paths to nodes, the backend an oracle.
    Workers are programs over this environment, and a run of the pool
    is an interleaving of their calls.  Log output is not modelled.

    The definitions come first, the properties after them. *)

From Stdlib Require Import ZArith Lia Bool Ascii.
From stdpp Require Import base gmap strings list.

Local Open Scope Z_scope.

(* Let [simpl] compute [+:+] on constructors. *)
Arguments String.append !_ _ : simpl nomatch.

(** ** Go strings *)

Module GoString.

Fixpoint srev (s : string) : string :=
  match s with
  | EmptyString => EmptyString
  | String c s' => srev s' +:+ String c EmptyString
  end.

(** [strip_prefix p s] is [Some r] exactly when [s = p +:+ r]
    (strings.HasPrefix together with the slice [s[len(p):]]). *)
Fixpoint strip_prefix (p s : string) : option string :=
  match p, s with
  | EmptyString, _ => Some s
  | String a p', String b s' =>
      if Ascii.eqb a b then strip_prefix p' s' else None
  | String _ _, EmptyString => None
  end.

Definition HasPrefix (s p : string) : bool :=
  match strip_prefix p s with Some _ => true | None => false end.

Definition HasSuffix (s suf : string) : bool :=
  HasPrefix (srev s) (srev suf).

(** The slice [s[:n]] for [n <= len(s)]. *)
Definition slice_to (n : nat) (s : string) : string := String.substring 0 n s.

(** [contains p s]: [p] occurs in [s] (strings.Contains). *)
Fixpoint contains (p s : string) : bool :=
  HasPrefix s p ||
  match s with
  | EmptyString => false
  | String _ s' => contains p s'
  end.

Definition byte (n : nat) : ascii := ascii_of_nat n.
Definition bytes (l : list nat) : string :=
  String.string_of_list_ascii (map byte l).

(** The UTF-8 encodings of the runes for which [unicode.IsSpace] holds:
    the six ASCII ones, U+0085, U+00A0, and the [White_Space] runes
    U+1680, U+2000..U+200A, U+2028, U+2029, U+202F, U+205F, U+3000. *)
Definition space_runes : list string :=
  map bytes
    [ [9]; [10]; [11]; [12]; [13]; [32];
      [194; 133]; [194; 160];
      [225; 154; 128];
      [226; 128; 128]; [226; 128; 129]; [226; 128; 130]; [226; 128; 131];
      [226; 128; 132]; [226; 128; 133]; [226; 128; 134]; [226; 128; 135];
      [226; 128; 136]; [226; 128; 137]; [226; 128; 138];
      [226; 128; 168]; [226; 128; 169]; [226; 128; 175];
      [226; 129; 159];
      [227; 128; 128] ]%nat.

(** One step of [TrimLeftFunc(s, unicode.IsSpace)]: when the first rune
    of [s] is a space, the rest of [s] after it. *)
Fixpoint strip_any (table : list string) (s : string) : option string :=
  match table with
  | [] => None
  | p :: table' =>
      match strip_prefix p s with
      | Some r => Some r
      | None => strip_any table' s
      end
  end.

Fixpoint trim_loop (table : list string) (fuel : nat) (s : string) : string :=
  match fuel with
  | O => s
  | S fuel' =>
      match strip_any table s with
      | Some r => trim_loop table fuel' r
      | None => s
      end
  end.

Definition TrimLeftSpace (s : string) : string :=
  trim_loop space_runes (String.length s) s.

(** Trimming on the right reads the runes backwards: a suffix of [s] is
    the encoding of a space exactly when the reversed string starts with
    the reversed encoding. *)
Definition TrimRightSpace (s : string) : string :=
  srev (trim_loop (map srev space_runes) (String.length s) (srev s)).

(** strings.TrimSpace *)
Definition TrimSpace (s : string) : string :=
  TrimRightSpace (TrimLeftSpace s).

(** ASCII lower-casing; on the three bytes that decide a [".md"] suffix
    it agrees with [strings.ToLower]: no rune other than [M] and [D]
    lower-cases to [m] or [d], and [.] is not a letter. *)
Definition lower_byte (c : ascii) : ascii :=
  let n := nat_of_ascii c in
  if ((65 <=? n)%nat && (n <=? 90)%nat)%bool then ascii_of_nat (n + 32) else c.

Fixpoint ToLower (s : string) : string :=
  match s with
  | EmptyString => EmptyString
  | String c s' => String (lower_byte c) (ToLower s')
  end.

End GoString.
Export GoString.

(** ** Errors *)

(** A path is the list of its components ([filepath.Join] is
    concatenation, [filepath.Dir] drops the last component). *)
Abbreviation path := (list string).

Inductive errno := ENOENT | EACCES | EPERM | ENOTDIR | EISDIR | EEXIST | EIO | ENOSPC.

Global Instance errno_eq_dec : EqDecision errno.
Proof. solve_decision. Defined.

(** Go [error] values, kept as the call that built them. *)
Inductive error :=
  | PathError (op : string) (p : path) (e : errno)            (* *fs.PathError *)
  | Errorf (format : string) (args : list fmt_arg)            (* fmt.Errorf(format, args...) *)
  | BackendError (msg : string)                               (* whatever Translate returns *)
with fmt_arg :=
  | ArgString (s : string)
  | ArgPath (p : path)
  | ArgError (e : error).

Inductive result (A : Type) :=
  | Ok (a : A)
  | Err (e : error).
Arguments Ok {A} a.
Arguments Err {A} e.

(** [os.IsNotExist] and [os.IsPermission] look at the errno of a
    [*PathError]; they do not unwrap [fmt.Errorf] wrappers. *)
Definition os_IsNotExist (err : error) : bool :=
  match err with
  | PathError _ _ e => bool_decide (e = ENOENT)
  | _ => false
  end.

Definition os_IsPermission (err : error) : bool :=
  match err with
  | PathError _ _ e => bool_decide (e = EACCES ∨ e = EPERM)
  | _ => false
  end.

(** *** Formatting with no operands

    [fmt.Errorf(format)] called without operands still interprets
    [format]: [%%] prints one percent sign, a verb prints
    [%!v(MISSING)], a trailing [%] prints [%!(NOVERB)].  [doPrintf0]
    covers flags, a width and a precision of at most six digits and an
    ASCII verb; argument indexes ([[n]]), [*] and non-ASCII verbs are
    outside this fragment ([None]). *)
Module Fmt.

Definition is_flag (c : ascii) : bool :=
  bool_decide (c ∈ ["#"; "0"; "+"; "-"; " "]%char).

Definition is_digit (c : ascii) : bool :=
  let n := nat_of_ascii c in ((48 <=? n)%nat && (n <=? 57)%nat)%bool.

Fixpoint skip (f : ascii → bool) (s : string) : string :=
  match s with
  | String c s' => if f c then skip f s' else s
  | EmptyString => s
  end.

(** [parsenum]: the digits are consumed; more than six of them are not
    modelled. *)
Definition parsenum (s : string) : option string :=
  let r := skip is_digit s in
  if (String.length s - String.length r <=? 6)%nat then Some r else None.

Definition special (c : ascii) : bool :=
  bool_decide (c = "["%char ∨ c = "*"%char) || (128 <=? nat_of_ascii c)%nat.

Definition starts_special (s : string) : bool :=
  match s with String c _ => special c | EmptyString => false end.

(** After the [%]: flags, width, precision; what is left starts at the verb. *)
Definition verb_spec (s : string) : option string :=
  let s1 := skip is_flag s in
  if starts_special s1 then None else
  s2 ← parsenum s1;
  match s2 with
  | String "." s3 => if starts_special s3 then None else parsenum s3
  | _ => Some s2
  end.

Fixpoint doPrintf0 (fuel : nat) (format : string) : option string :=
  match fuel with
  | O => None
  | S fuel' =>
      match format with
      | EmptyString => Some EmptyString
      | String "%" rest =>
          s ← verb_spec rest;
          match s with
          | EmptyString => Some "%!(NOVERB)"
          | String "%" rest' => String "%"%char <$> doPrintf0 fuel' rest'
          | String v rest' =>
              if special v then None
              else (λ out, "%!" +:+ String v "(MISSING)" +:+ out) <$> doPrintf0 fuel' rest'
          end
      | String c rest => String c <$> doPrintf0 fuel' rest
      end
  end.

Definition Sprintf0 (format : string) : option string :=
  doPrintf0 (S (String.length format)) format.

End Fmt.

(** [err.Error()] for the errors built without operands. *)
Definition Error (err : error) : option string :=
  match err with
  | Errorf format [] => Fmt.Sprintf0 format
  | BackendError msg => Some msg
  | _ => None
  end.

(** ** utils/text.go *)

Definition open_tag : string := "<translate>".
Definition close_tag : string := "</translate>".

(** [(.*?)</translate>] anchored at the start of [s], with [(?s)]: the
    shortest capture, and what follows the closing tag. *)
Fixpoint lazy_until_close (s : string) : option (string * string) :=
  match strip_prefix close_tag s with
  | Some rest => Some (EmptyString, rest)
  | None =>
      match s with
      | EmptyString => None
      | String c s' =>
          match lazy_until_close s' with
          | Some (cap, rest) => Some (String c cap, rest)
          | None => None
          end
      end
  end.

(** The whole expression anchored at the start of [s]. *)
Definition match_here (s : string) : option (string * string) :=
  match strip_prefix open_tag s with
  | Some r => lazy_until_close r
  | None => None
  end.

(** [translateTagRegex.FindStringSubmatch(s)]: the leftmost match; the
    slice holds the whole match and the capture, and is nil without a match. *)
Fixpoint FindStringSubmatch (s : string) : list string :=
  match match_here s with
  | Some (cap, _) => [open_tag +:+ cap +:+ close_tag; cap]
  | None =>
      match s with
      | EmptyString => []
      | String _ s' => FindStringSubmatch s'
      end
  end.

Definition extract_error_prefix : string :=
  "无法在 LLM 输出中找到 <translate>...</translate> 标签。输出预览 (最多300字符): ".

Definition extract_preview (rawLLMOutput : string) : string :=
  let preview := rawLLMOutput in
  if (300 <? String.length preview)%nat
  then slice_to 300 preview +:+ "..."
  else preview.

(** The value of [errMsg]: [fmt.Sprintf] of a constant format with one
    [%s] operand. *)
Definition extract_errMsg (rawLLMOutput : string) : string :=
  extract_error_prefix +:+ extract_preview rawLLMOutput.

Definition ExtractTranslation (rawLLMOutput : string) : result string :=
  let matches := FindStringSubmatch rawLLMOutput in
  let found :=
    if (length matches <? 2)%nat then
      let trimmedOutput := TrimSpace rawLLMOutput in
      let matches := FindStringSubmatch trimmedOutput in
      if (length matches <? 2)%nat
      then Err (Errorf (extract_errMsg rawLLMOutput) [])
      else Ok matches
    else Ok matches in
  match found with
  | Ok matches => Ok (TrimSpace (nth 1 matches EmptyString))
  | Err e => Err e
  end.

(** The function without the retry on the trimmed input. *)
Definition ExtractTranslation_once (rawLLMOutput : string) : result string :=
  let matches := FindStringSubmatch rawLLMOutput in
  if (length matches <? 2)%nat
  then Err (Errorf (extract_errMsg rawLLMOutput) [])
  else Ok (TrimSpace (nth 1 matches EmptyString)).

(** ** Occurrences *)

(** [c] occurs in [s]. *)
Fixpoint char_in (c : ascii) (s : string) : bool :=
  match s with
  | EmptyString => false
  | String x s' => Ascii.eqb c x || char_in c s'
  end.

Definition last_char (s : string) : option ascii :=
  match srev s with String c _ => Some c | EmptyString => None end.

(** [s] holds a start marker followed, later, by an end marker. *)
Definition has_marker_pair (s : string) : Prop :=
  ∃ a X b, s = a +:+ open_tag +:+ X +:+ close_tag +:+ b.

(** ** The file system

    The environment of the pipeline: a tree of directories and files,
    some of them closed to every access.  Symbolic links, disk quotas and
    partial writes are not part of the model. *)

Inductive node :=
  | File (data : string)
  | Dir.

Record FS := mkFS {
  nodes : gmap path node;     (* what exists below the root *)
  noaccess : gset path;       (* nodes whose mode grants nothing *)
}.

(** The root [[]] is a directory. *)
Definition node_at (fs : FS) (p : path) : option node :=
  match p with
  | [] => Some Dir
  | _ => nodes fs !! p
  end.

Definition IsDir (n : node) : bool :=
  match n with Dir => true | File _ => false end.

(** Path resolution: every proper prefix of the path has to be a
    directory that may be searched. *)
Fixpoint walk (fs : FS) (cur : path) (rest : list string) : option errno :=
  match rest with
  | [] => None
  | c :: rest' =>
      match node_at fs cur with
      | None => Some ENOENT
      | Some (File _) => Some ENOTDIR
      | Some Dir =>
          if bool_decide (cur ∈ noaccess fs) then Some EACCES
          else walk fs (cur ++ [c]) rest'
      end
  end.

Definition os_Stat (fs : FS) (p : path) : result node :=
  match walk fs [] p with
  | Some e => Err (PathError "stat" p e)
  | None =>
      match node_at fs p with
      | Some n => Ok n
      | None => Err (PathError "stat" p ENOENT)
      end
  end.

Definition os_ReadFile (fs : FS) (p : path) : result string :=
  match walk fs [] p with
  | Some e => Err (PathError "open" p e)
  | None =>
      match node_at fs p with
      | None => Err (PathError "open" p ENOENT)
      | Some Dir => Err (PathError "read" p EISDIR)
      | Some (File data) =>
          if bool_decide (p ∈ noaccess fs) then Err (PathError "open" p EACCES)
          else Ok data
      end
  end.

(** A node created or rewritten by this process is open to it. *)
Definition put (fs : FS) (p : path) (n : node) : FS :=
  mkFS (<[p := n]> (nodes fs)) (noaccess fs ∖ {[p]}).

(** [fs_le a b]: whatever exists in [a] exists in [b] as the same kind
    of node, and nothing has been closed. *)
Definition fs_le (a b : FS) : Prop :=
  noaccess b ⊆ noaccess a ∧
  ∀ p n, nodes a !! p = Some n →
         ∃ n', nodes b !! p = Some n' ∧ IsDir n' = IsDir n.

Definition exists_at (fs : FS) (p : path) : Prop :=
  ∃ n, os_Stat fs p = Ok n.

Definition os_Mkdir (fs : FS) (p : path) : FS * option error :=
  match walk fs [] p with
  | Some e => (fs, Some (PathError "mkdir" p e))
  | None =>
      match node_at fs p with
      | Some _ => (fs, Some (PathError "mkdir" p EEXIST))
      | None => (put fs p Dir, None)
      end
  end.

(** [os.MkdirAll]: nothing to do when the path is a directory already;
    otherwise the parent first, then the directory itself.  The recursion
    is on the reversed path, whose tail is the parent. *)
Fixpoint MkdirAll_rev (fs : FS) (rp : list string) : FS * option error :=
  let p := rev rp in
  match os_Stat fs p with
  | Ok Dir => (fs, None)
  | Ok (File _) => (fs, Some (PathError "mkdir" p ENOTDIR))
  | Err statErr =>
      match rp with
      | [] => (fs, Some statErr)
      | _ :: rparent =>
          match MkdirAll_rev fs rparent with
          | (fs1, Some err) => (fs1, Some err)
          | (fs1, None) =>
              match os_Mkdir fs1 p with
              | (fs2, None) => (fs2, None)
              | (fs2, Some err) =>
                  match os_Stat fs2 p with
                  | Ok Dir => (fs2, None)
                  | _ => (fs2, Some err)
                  end
              end
          end
      end
  end.

Definition os_MkdirAll (fs : FS) (p : path) : FS * option error :=
  MkdirAll_rev fs (rev p).

(** [os.WriteFile]: open with [O_WRONLY|O_CREATE|O_TRUNC], write, close. *)
Definition os_WriteFile (fs : FS) (p : path) (data : string) : FS * option error :=
  match walk fs [] p with
  | Some e => (fs, Some (PathError "open" p e))
  | None =>
      match node_at fs p with
      | Some Dir => (fs, Some (PathError "open" p EISDIR))
      | Some (File _) =>
          if bool_decide (p ∈ noaccess fs) then (fs, Some (PathError "open" p EACCES))
          else (put fs p (File data), None)
      | None => (put fs p (File data), None)
      end
  end.

Definition filepath_Join (a b : path) : path := a ++ b.
Definition filepath_Dir (p : path) : path := removelast p.

(** ** Statistics *)

Inductive Counter := CProcessed | CSkipped | CFailed | CDryRunHits.

Global Instance Counter_eq_dec : EqDecision Counter.
Proof. solve_decision. Defined.

(** The value of type [int32] that a mathematical integer wraps to. *)
Definition wrap32 (z : Z) : Z := (z + 2^31) mod 2^32 - 2^31.

Record Stats := mkStats {
  TotalFiles : Z;
  Processed : Z;
  Skipped : Z;
  Failed : Z;
  DryRunHits : Z;
}.

Definition Load (c : Counter) (s : Stats) : Z :=
  match c with
  | CProcessed => Processed s
  | CSkipped => Skipped s
  | CFailed => Failed s
  | CDryRunHits => DryRunHits s
  end.

(** [stats.c.Add(1)] *)
Definition Add1 (c : Counter) (s : Stats) : Stats :=
  match c with
  | CProcessed => mkStats (TotalFiles s) (wrap32 (Processed s + 1)) (Skipped s) (Failed s) (DryRunHits s)
  | CSkipped => mkStats (TotalFiles s) (Processed s) (wrap32 (Skipped s + 1)) (Failed s) (DryRunHits s)
  | CFailed => mkStats (TotalFiles s) (Processed s) (Skipped s) (wrap32 (Failed s + 1)) (DryRunHits s)
  | CDryRunHits => mkStats (TotalFiles s) (Processed s) (Skipped s) (Failed s) (wrap32 (DryRunHits s + 1))
  end.

(** ** The translation backend

    [Translate] may answer differently from call to call (network
    failures, timeouts); the oracle is asked with the number of calls
    made before. *)
Record Translator := mkTranslator {
  Translate : nat → string → result string;
}.

(** ** Programs over the environment

    The calls the pipeline makes into the operating system, the backend
    and the shared counters, each with the continuation that receives
    its answer.  Between two calls of one worker the other workers run. *)

Inductive prog (A : Type) : Type :=
  | Ret (a : A)
  | Stat (p : path) (k : result node → prog A)
  | ReadFileOS (p : path) (k : result string → prog A)
  | MkdirAll (p : path) (k : option error → prog A)
  | WriteFileOS (p : path) (data : string) (k : option error → prog A)
  | Call (tr : Translator) (content : string) (k : result string → prog A)
  | Add (c : Counter) (k : prog A).
Arguments Ret {A} a.
Arguments Stat {A} p k.
Arguments ReadFileOS {A} p k.
Arguments MkdirAll {A} p k.
Arguments WriteFileOS {A} p data k.
Arguments Call {A} tr content k.
Arguments Add {A} c k.

Fixpoint bind {A B : Type} (m : prog A) (f : A → prog B) : prog B :=
  match m with
  | Ret a => f a
  | Stat p k => Stat p (λ r, bind (k r) f)
  | ReadFileOS p k => ReadFileOS p (λ r, bind (k r) f)
  | MkdirAll p k => MkdirAll p (λ r, bind (k r) f)
  | WriteFileOS p data k => WriteFileOS p data (λ r, bind (k r) f)
  | Call tr content k => Call tr content (λ r, bind (k r) f)
  | Add c k => Add c (bind k f)
  end.

Global Instance prog_ret : MRet prog := λ A a, Ret a.
Global Instance prog_bind : MBind prog := λ A B f m, bind m f.

Inductive Event :=
  | EvStat (p : path)
  | EvRead (p : path)
  | EvMkdirAll (p : path)
  | EvWrite (p : path) (data : string)
  | EvTranslate (content : string)
  | EvAdd (c : Counter).

Global Instance Event_eq_dec : EqDecision Event.
Proof. solve_decision. Defined.

Record World := mkWorld {
  fs : FS;
  stats : Stats;
  trace : list Event;        (* the calls made so far, oldest first *)
}.

Definition is_translate (e : Event) : bool :=
  match e with EvTranslate _ => true | _ => false end.

Definition calls_made (w : World) : nat :=
  length (filter (λ e, is_translate e = true) (trace w)).

(** One call: its answer, and the world after it. *)
Definition step1 {A : Type} (p : prog A) (w : World) : prog A * World :=
  match p with
  | Ret a => (Ret a, w)
  | Stat q k =>
      (k (os_Stat (fs w) q), mkWorld (fs w) (stats w) (trace w ++ [EvStat q]))
  | ReadFileOS q k =>
      (k (os_ReadFile (fs w) q), mkWorld (fs w) (stats w) (trace w ++ [EvRead q]))
  | MkdirAll q k =>
      let '(fs', err) := os_MkdirAll (fs w) q in
      (k err, mkWorld fs' (stats w) (trace w ++ [EvMkdirAll q]))
  | WriteFileOS q data k =>
      let '(fs', err) := os_WriteFile (fs w) q data in
      (k err, mkWorld fs' (stats w) (trace w ++ [EvWrite q data]))
  | Call tr content k =>
      (k (Translate tr (calls_made w) content),
       mkWorld (fs w) (stats w) (trace w ++ [EvTranslate content]))
  | Add c k =>
      (k, mkWorld (fs w) (Add1 c (stats w)) (trace w ++ [EvAdd c]))
  end.

(** A program run to its end with nothing else running. *)
Fixpoint exec {A : Type} (p : prog A) (w : World) : A * World :=
  match p with
  | Ret a => (a, w)
  | Stat q k =>
      exec (k (os_Stat (fs w) q)) (mkWorld (fs w) (stats w) (trace w ++ [EvStat q]))
  | ReadFileOS q k =>
      exec (k (os_ReadFile (fs w) q)) (mkWorld (fs w) (stats w) (trace w ++ [EvRead q]))
  | MkdirAll q k =>
      let '(fs', err) := os_MkdirAll (fs w) q in
      exec (k err) (mkWorld fs' (stats w) (trace w ++ [EvMkdirAll q]))
  | WriteFileOS q data k =>
      let '(fs', err) := os_WriteFile (fs w) q data in
      exec (k err) (mkWorld fs' (stats w) (trace w ++ [EvWrite q data]))
  | Call tr content k =>
      exec (k (Translate tr (calls_made w) content))
           (mkWorld (fs w) (stats w) (trace w ++ [EvTranslate content]))
  | Add c k =>
      exec k (mkWorld (fs w) (Add1 c (stats w)) (trace w ++ [EvAdd c]))
  end.

(** ** utils/io.go *)

Definition ReadFile (p : path) : prog (result string) :=
  ReadFileOS p (λ r,
    match r with
    | Err err => Ret (Err (Errorf "读取文件 %s 失败: %w" [ArgPath p; ArgError err]))
    | Ok content => Ret (Ok content)
    end).

(** [WriteFile] after the existence check: the parent directories,
    then the file. *)
Definition WriteFile_write (p : path) (content : string) : prog (option error) :=
  let dir := filepath_Dir p in
  MkdirAll dir (λ err,
    match err with
    | Some err => Ret (Some (Errorf "创建目录 %s 失败: %w" [ArgPath dir; ArgError err]))
    | None =>
        WriteFileOS p content (λ err,
          match err with
          | Some err => Ret (Some (Errorf "写入文件 %s 失败: %w" [ArgPath p; ArgError err]))
          | None => Ret None
          end)
    end).

Definition WriteFile (p : path) (content : string) (overwrite : bool) : prog (option error) :=
  if negb overwrite then
    Stat p (λ r,
      match r with
      | Ok _ => Ret None
      | Err err =>
          if negb (os_IsNotExist err)
          then Ret (Some (Errorf "检查目标文件 %s 状态失败: %w" [ArgPath p; ArgError err]))
          else WriteFile_write p content
      end)
  else WriteFile_write p content.

(** ** processor *)

Record Config := mkConfig {
  SourceDir : path;
  TargetDir : path;
  Concurrency : Z;
  Overwrite : bool;
  DryRun : bool;
}.

Record TranslationTask := mkTask {
  RelativePath : path;
}.

Global Instance TranslationTask_eq_dec : EqDecision TranslationTask.
Proof. solve_decision. Defined.

(** The loop body of [worker] from [utils.ReadFile] on; every
    [continue] is the end of the program. *)
Definition process_task_from_read (cfg : Config) (trans : option Translator)
    (task : TranslationTask) : prog unit :=
  let sourcePath := filepath_Join (SourceDir cfg) (RelativePath task) in
  let targetPath := filepath_Join (TargetDir cfg) (RelativePath task) in
  r ← ReadFile sourcePath;
  match r with
  | Err _ => Add CFailed (Ret tt)
  | Ok content =>
      if DryRun cfg then Add CDryRunHits (Ret tt)
      else
        match trans with
        | None => Add CFailed (Ret tt)
        | Some tr =>
            Call tr content (λ r,
              match r with
              | Err _ => Add CFailed (Ret tt)
              | Ok translatedRaw =>
                  match ExtractTranslation translatedRaw with
                  | Err _ => Add CFailed (Ret tt)
                  | Ok translatedContent =>
                      err ← WriteFile targetPath translatedContent (Overwrite cfg);
                      match err with
                      | Some _ => Add CFailed (Ret tt)
                      | None => Add CProcessed (Ret tt)
                      end
                  end
              end)
        end
  end.

(** The loop body of [worker], for one task: the skip check, then the rest. *)
Definition process_task (cfg : Config) (trans : option Translator)
    (task : TranslationTask) : prog unit :=
  let targetPath := filepath_Join (TargetDir cfg) (RelativePath task) in
  if negb (Overwrite cfg) && negb (DryRun cfg) then
    Stat targetPath (λ r,
      match r with
      | Ok _ => Add CSkipped (Ret tt)
      | Err err =>
          if negb (os_IsNotExist err) then Add CFailed (Ret tt)
          else process_task_from_read cfg trans task
      end)
  else process_task_from_read cfg trans task.

(** *** The worker pool

    [ProcessFiles] starts [Concurrency] goroutines running [worker],
    sends every file into the buffered channel [tasks], closes it and
    waits for the workers.  A state of the pool holds what main has
    still to send, the channel, where each worker stands, and the world
    they share. *)

Inductive wstate :=
  | WRange                                          (* at [for task := range tasks] *)
  | WBody (task : TranslationTask) (p : prog unit)  (* in the loop body, [p] still to run *)
  | WDone.                                          (* returned: [wg.Done()] *)

Record Shared := mkShared {
  closed : bool;                                (* [close(tasks)] has happened *)
  tasks : list TranslationTask;                 (* the channel buffer *)
  outcomes : list (TranslationTask * Counter);  (* history: the counter each task went to *)
  world : World;
}.

Record Pool := mkPool {
  unsent : list path;
  workers : list wstate;
  shared : Shared;
}.

(** The entry that a call adds to the history. *)
Definition counted (task : TranslationTask) (p : prog unit)
    : list (TranslationTask * Counter) :=
  match p with
  | Add c _ => [(task, c)]
  | _ => []
  end.

(** One step of a worker; [None] when it cannot move (blocked on the
    open, empty channel, or returned). *)
Definition worker_step (cfg : Config) (trans : option Translator)
    (ws : wstate) (sh : Shared) : option (wstate * Shared) :=
  match ws with
  | WRange =>
      match tasks sh with
      | task :: rest =>
          Some (WBody task (process_task cfg trans task),
                mkShared (closed sh) rest (outcomes sh) (world sh))
      | [] => if closed sh then Some (WDone, sh) else None
      end
  | WBody task (Ret _) => Some (WRange, sh)
  | WBody task p =>
      let '(p', w') := step1 p (world sh) in
      Some (WBody task p',
            mkShared (closed sh) (tasks sh) (outcomes sh ++ counted task p) w')
  | WDone => None
  end.

(** One step of main after the workers are started: the next send
    (the buffer has room for every file), then [close]. *)
Definition main_step (σ : Pool) : option Pool :=
  let sh := shared σ in
  match unsent σ with
  | relPath :: rest =>
      Some (mkPool rest (workers σ)
              (mkShared (closed sh) (tasks sh ++ [mkTask relPath]) (outcomes sh) (world sh)))
  | [] =>
      if closed sh then None
      else Some (mkPool [] (workers σ)
                   (mkShared true (tasks sh) (outcomes sh) (world sh)))
  end.

Inductive pool_step (cfg : Config) (trans : option Translator) : Pool → Pool → Prop :=
  | step_main σ σ' :
      main_step σ = Some σ' →
      pool_step cfg trans σ σ'
  | step_worker σ before ws after ws' sh' :
      workers σ = before ++ ws :: after →
      worker_step cfg trans ws (shared σ) = Some (ws', sh') →
      pool_step cfg trans σ (mkPool (unsent σ) (before ++ ws' :: after) sh').

Definition ProcessFiles_start (cfg : Config) (files : list path) (fs0 : FS) : Pool :=
  let numFiles := Z.of_nat (length files) in
  mkPool files
         (replicate (Z.to_nat (Concurrency cfg)) WRange)
         (mkShared false [] []
            (mkWorld fs0 (mkStats (wrap32 numFiles) 0 0 0 0) [])).

(** [wg.Wait()] is over: everything is sent, the channel closed, every
    worker has returned. *)
Definition returned (σ : Pool) : Prop :=
  unsent σ = [] ∧ closed (shared σ) = true ∧ Forall (λ ws, ws = WDone) (workers σ).

(** [ProcessFiles cfg files trans fs0 σ]: a run of [ProcessFiles] from
    the file system [fs0] ends in [σ]. *)
Definition ProcessFiles (cfg : Config) (files : list path)
    (trans : option Translator) (fs0 : FS) (σ : Pool) : Prop :=
  rtc (pool_step cfg trans) (ProcessFiles_start cfg files fs0) σ ∧ returned σ.

Definition final_stats (σ : Pool) : Stats := stats (world (shared σ)).
Definition final_fs (σ : Pool) : FS := fs (world (shared σ)).
Definition final_trace (σ : Pool) : list Event := trace (world (shared σ)).

(** *** Schedules

    A schedule names who moves next: [None] is main, [Some i] the
    worker [i]; a move that is not possible is skipped. *)
Definition sched_step (cfg : Config) (trans : option Translator)
    (who : option nat) (σ : Pool) : Pool :=
  match who with
  | None => default σ (main_step σ)
  | Some i =>
      match workers σ !! i with
      | Some ws =>
          match worker_step cfg trans ws (shared σ) with
          | Some (ws', sh') => mkPool (unsent σ) (<[i := ws']> (workers σ)) sh'
          | None => σ
          end
      | None => σ
      end
  end.

Definition run_schedule (cfg : Config) (trans : option Translator)
    (schedule : list (option nat)) (σ : Pool) : Pool :=
  foldl (λ σ who, sched_step cfg trans who σ) σ schedule.

(** Main first, then the workers one after the other. *)
Definition sequential_schedule (numFiles numWorkers : nat) : list (option nat) :=
  replicate (S numFiles) None ++
  mjoin (map (λ i, replicate (12 * S numFiles) (Some i)) (seq 0 numWorkers)).

(** Round robin between main and the workers. *)
Definition fair_schedule (numFiles numWorkers : nat) : list (option nat) :=
  mjoin (replicate (12 * S numFiles) (None :: map Some (seq 0 numWorkers))).

(** ** main: the exit status

    After [ProcessFiles] has returned, main prints the summary and
    leaves with status 1 when [stats.Failed.Load() > 0], else falls off
    its end (status 0). *)
Definition main_exit_status (stats : Stats) : Z :=
  if 0 <? Failed stats then 1 else 0.

(** ** Invariants of a run *)

(** The tasks that workers hold and have not counted yet. *)
Definition holding (ws : wstate) : list TranslationTask :=
  match ws with
  | WBody task (Ret _) => []
  | WBody task _ => [task]
  | _ => []
  end.

Definition inflight (wss : list wstate) : list TranslationTask :=
  mjoin (map holding wss).

Definition tally (c : Counter) (os : list (TranslationTask * Counter)) : nat :=
  length (filter (λ o, o.2 = c) os).

(** What a program promises when other workers may change the world
    along [R] between any two of its calls: each of its own calls stays
    within [R], it counts exactly once, at its very end, and the counter
    [c] it picks satisfies [Φ c] in the world of that moment. *)
Fixpoint wp (R : relation World) (Φ : Counter → World → Prop)
    (p : prog unit) (w : World) : Prop :=
  match p with
  | Ret _ => False
  | Add c k =>
      k = Ret tt ∧
      ∀ w1, R w w1 → let w2 := (step1 (Add c k) w1).2 in R w1 w2 ∧ Φ c w2
  | Stat q k =>
      ∀ w1, R w w1 →
        let w2 := (step1 (Stat q k) w1).2 in
        R w1 w2 ∧ wp R Φ (k (os_Stat (fs w1) q)) w2
  | ReadFileOS q k =>
      ∀ w1, R w w1 →
        let w2 := (step1 (ReadFileOS q k) w1).2 in
        R w1 w2 ∧ wp R Φ (k (os_ReadFile (fs w1) q)) w2
  | MkdirAll q k =>
      ∀ w1, R w w1 →
        let w2 := (step1 (MkdirAll q k) w1).2 in
        R w1 w2 ∧ wp R Φ (k (os_MkdirAll (fs w1) q).2) w2
  | WriteFileOS q data k =>
      ∀ w1, R w w1 →
        let w2 := (step1 (WriteFileOS q data k) w1).2 in
        R w1 w2 ∧ wp R Φ (k (os_WriteFile (fs w1) q data).2) w2
  | Call tr content k =>
      ∀ w1, R w w1 →
        let w2 := (step1 (Call tr content k) w1).2 in
        R w1 w2 ∧ wp R Φ (k (Translate tr (calls_made w1) content)) w2
  end.

Definition worker_ok (R : relation World)
    (Φ : TranslationTask → Counter → World → Prop) (w : World) (ws : wstate) : Prop :=
  match ws with
  | WBody task p => p = Ret tt ∨ wp R (Φ task) p w
  | _ => True
  end.

Record pool_inv (R : relation World)
    (Φ : TranslationTask → Counter → World → Prop)
    (files : list path) (w0 : World) (σ : Pool) : Prop := mkPoolInv {
  inv_rely : R w0 (world (shared σ));
  inv_tasks :
    map mkTask files ≡ₚ
      map mkTask (unsent σ) ++ tasks (shared σ) ++ inflight (workers σ)
        ++ map fst (outcomes (shared σ));
  inv_stats : ∀ c,
    Load c (stats (world (shared σ)))
    = wrap32 (Z.of_nat (tally c (outcomes (shared σ))));
  inv_total :
    TotalFiles (stats (world (shared σ))) = wrap32 (Z.of_nat (length files));
  inv_closed : closed (shared σ) = true → unsent σ = [];
  inv_done : WDone ∈ workers σ → closed (shared σ) = true ∧ tasks (shared σ) = [];
  inv_workers : Forall (worker_ok R Φ (world (shared σ))) (workers σ);
  inv_outcomes : Forall (λ o, Φ o.1 o.2 (world (shared σ))) (outcomes (shared σ));
}.

(** The same for a helper that returns a value and counts nothing:
    [Q] holds of the value in every world that follows its return. *)
Fixpoint wpr {A : Type} (R : relation World) (Q : A → World → Prop)
    (m : prog A) (w : World) : Prop :=
  match m with
  | Ret a => ∀ w1, R w w1 → Q a w1
  | Add _ _ => False
  | Stat q k =>
      ∀ w1, R w w1 →
        let w2 := (step1 (Stat q k) w1).2 in
        R w1 w2 ∧ wpr R Q (k (os_Stat (fs w1) q)) w2
  | ReadFileOS q k =>
      ∀ w1, R w w1 →
        let w2 := (step1 (ReadFileOS q k) w1).2 in
        R w1 w2 ∧ wpr R Q (k (os_ReadFile (fs w1) q)) w2
  | MkdirAll q k =>
      ∀ w1, R w w1 →
        let w2 := (step1 (MkdirAll q k) w1).2 in
        R w1 w2 ∧ wpr R Q (k (os_MkdirAll (fs w1) q).2) w2
  | WriteFileOS q data k =>
      ∀ w1, R w w1 →
        let w2 := (step1 (WriteFileOS q data k) w1).2 in
        R w1 w2 ∧ wpr R Q (k (os_WriteFile (fs w1) q data).2) w2
  | Call tr content k =>
      ∀ w1, R w w1 →
        let w2 := (step1 (Call tr content k) w1).2 in
        R w1 w2 ∧ wpr R Q (k (Translate tr (calls_made w1) content)) w2
  end.

(** The two ways in which workers may disturb each other. *)

(** The file system only grows. *)
Definition R_grow : relation World := λ w w', fs_le (fs w) (fs w').

(** The calls of a dry run: reads of source files and increments of
    counters. *)
Definition harmless (e : Event) : bool :=
  match e with
  | EvRead _ | EvAdd _ => true
  | _ => false
  end.

(** The file system stays as it is, and only harmless calls are made. *)
Definition R_dry : relation World := λ w w',
  fs w' = fs w ∧ ∃ evs, trace w' = trace w ++ evs ∧ Forall (λ e, harmless e = true) evs.

Definition source_of (cfg : Config) (f : path) : path :=
  filepath_Join (SourceDir cfg) f.
Definition target_of (cfg : Config) (f : path) : path :=
  filepath_Join (TargetDir cfg) f.

Definition can_read (fs : FS) (p : path) : bool :=
  match os_ReadFile fs p with Ok _ => true | Err _ => false end.

(** The counter a dry run picks for a task. *)
Definition dry_outcome (cfg : Config) (fs0 : FS) (task : TranslationTask) : Counter :=
  if can_read fs0 (source_of cfg (RelativePath task)) then CDryRunHits else CFailed.

(** No call of the program is [os.Stat], whatever the answers. *)
Fixpoint never_stats {A : Type} (m : prog A) : Prop :=
  match m with
  | Ret _ => True
  | Stat _ _ => False
  | ReadFileOS _ k => ∀ r, never_stats (k r)
  | MkdirAll _ k => ∀ r, never_stats (k r)
  | WriteFileOS _ _ k => ∀ r, never_stats (k r)
  | Call _ _ k => ∀ r, never_stats (k r)
  | Add _ k => never_stats k
  end.

Definition is_stat (e : Event) : bool :=
  match e with EvStat _ => true | _ => false end.

(** The files of a run whose source can, or cannot, be read. *)
Definition readable_files (cfg : Config) (fs0 : FS) (files : list path) : list path :=
  filter (λ f, can_read fs0 (source_of cfg f) = true) files.
Definition unreadable_files (cfg : Config) (fs0 : FS) (files : list path) : list path :=
  filter (λ f, can_read fs0 (source_of cfg f) ≠ true) files.

(** ** discovery/finder.go

    What [filepath.WalkDir] meets below the source root: files (anything
    that is not a directory) and directories, a directory with the
    result of [os.ReadDir] on it: its entries in the order read, and the
    error, if any, that ended the reading. *)

#[warnings="-register-all"]
Inductive entry :=
  | EFile (name : string)
  | EDir (name : string) (readErr : option errno) (entries : list entry).

Definition entry_name (e : entry) : string :=
  match e with
  | EFile name => name
  | EDir name _ _ => name
  end.

(** The result of [os.Lstat] on the root. *)
Inductive root_entry :=
  | LstatFailed (e : errno)
  | LstatOk (e : entry).

Record DirEntry := mkDirEntry {
  Name : string;
  dIsDir : bool;
}.

(** What a [fs.WalkDirFunc] returns: [nil], [fs.SkipDir], [fs.SkipAll],
    or an error of its own. *)
Inductive walk_ret :=
  | Continue
  | SkipDir
  | SkipAll
  | Fail (err : error).

(** How [WalkDir] calls its function: with the entry, or with an error
    (and then with the directory whose [ReadDir] failed, or with no
    entry when [Lstat] on the root failed). *)
Inductive visit_arg :=
  | Visit (d : DirEntry)
  | VisitErr (d : option DirEntry) (walkErr : error).

Section WalkDir.

Context {S : Type}.
Variable fn : path → visit_arg → S → S * walk_ret.

(** [walkDir(path, d, walkDirFn)] *)
Fixpoint walkDir (p : path) (e : entry) (s : S) {struct e} : S * walk_ret :=
  match e with
  | EFile name => fn p (Visit (mkDirEntry name false)) s
  | EDir name readErr entries =>
      let d := mkDirEntry name true in
      match fn p (Visit d) s with
      | (s1, Continue) =>
          let '(s2, r) :=
            match readErr with
            | None => (s1, Continue)
            | Some e => fn p (VisitErr (Some d) (PathError "open" p e)) s1
            end in
          match r with
          | Continue =>
              (fix loop (dirs : list entry) (s : S) {struct dirs} : S * walk_ret :=
                 match dirs with
                 | [] => (s, Continue)
                 | d1 :: rest =>
                     match walkDir (filepath_Join p [entry_name d1]) d1 s with
                     | (s', Continue) => loop rest s'
                     | (s', SkipDir) => (s', Continue)
                     | (s', r') => (s', r')
                     end
                 end) entries s2
          | SkipDir => (s2, Continue)
          | _ => (s2, r)
          end
      | (s1, SkipDir) => (s1, Continue)
      | (s1, r) => (s1, r)
      end
  end.

(** [filepath.WalkDir(root, fn)] *)
Definition WalkDir (root : path) (r : root_entry) (s : S) : S * option error :=
  let '(s', ret) :=
    match r with
    | LstatFailed e => fn root (VisitErr None (PathError "lstat" root e)) s
    | LstatOk e => walkDir root e s
    end in
  match ret with
  | Fail err => (s', Some err)
  | _ => (s', None)
  end.

End WalkDir.

(** [filepath.Rel] on component lists: up from [base] to the common
    prefix, then down to [targ].  Its error (a relative path against an
    absolute one) does not arise between component lists. *)
Fixpoint relative_to (base targ : path) : path :=
  match base, targ with
  | b :: base', t :: targ' =>
      if bool_decide (b = t) then relative_to base' targ'
      else replicate (length base) ".." ++ targ
  | _, _ => replicate (length base) ".." ++ targ
  end.

Definition filepath_Rel (base targ : path) : result path :=
  Ok (relative_to base targ).

(** The function that [FindMarkdownFiles] hands to [WalkDir]; the state
    is the slice [files]. *)
Definition visit (sourceDir : path) (p : path) (a : visit_arg)
    (files : list path) : list path * walk_ret :=
  match a with
  | VisitErr d walkErr =>
      if bool_decide (p = sourceDir) && os_IsPermission walkErr then
        (files, Fail (Errorf "源目录 %s 权限不足: %w" [ArgPath sourceDir; ArgError walkErr]))
      else
        match d with
        | None => (files, Continue)
        | Some d => if dIsDir d then (files, SkipDir) else (files, Continue)
        end
  | Visit d =>
      if negb (dIsDir d) && HasSuffix (ToLower (Name d)) ".md" then
        match filepath_Rel sourceDir p with
        | Err _ => (files, Continue)
        | Ok relPath => (files ++ [relPath], Continue)
        end
      else (files, Continue)
  end.

Definition FindMarkdownFiles (sourceDir : path) (root : root_entry) : result (list path) :=
  match WalkDir (visit sourceDir) sourceDir root [] with
  | (_, Some err) => Err (Errorf "文件发现失败: %w" [ArgError err])
  | (files, None) => Ok files
  end.

(** *** What discovery is to return *)

Definition is_markdown (name : string) : bool :=
  HasSuffix (ToLower name) ".md".

(** The markdown files at or below [e], by their path relative to the
    root; [rel] is the path of [e] itself.  Nothing below a directory
    that could not be read. *)
Fixpoint markdown_below (rel : path) (e : entry) : list path :=
  match e with
  | EFile name => if is_markdown name then [rel] else []
  | EDir _ (Some _) _ => []
  | EDir _ None entries =>
      mjoin (map (λ d1, markdown_below (rel ++ [entry_name d1]) d1) entries)
  end.

(** A name that ends in [.md], in whatever case. *)
Definition ends_in_md (name : string) : Prop :=
  ∃ stem m d,
    name = stem +:+ String "." (String m (String d EmptyString)) ∧
    (m = "m" ∨ m = "M")%char ∧ (d = "d" ∨ d = "D")%char.

(** [file_at e rel name]: going down from [e] along [rel], through
    directories that could be read, ends at a file called [name]. *)
Inductive file_at : entry → path → string → Prop :=
  | file_here name :
      file_at (EFile name) [] name
  | file_below dname entries d1 rel name :
      d1 ∈ entries → file_at d1 rel name →
      file_at (EDir dname None entries) (entry_name d1 :: rel) name.

Definition permission (e : errno) : bool :=
  bool_decide (e = EACCES ∨ e = EPERM).

(** The root is a directory that may not be read. *)
Definition root_denied (e : entry) : bool :=
  match e with
  | EDir _ (Some err) _ => permission err
  | _ => false
  end.

(** An example tree: a file at the top, a directory with two files, a
    directory that cannot be read, and a directory named like a
    markdown file. *)
Definition example_tree : entry :=
  EDir "docs" None
    [ EFile "README.MD";
      EDir "guide" None [EFile "intro.md"; EFile "logo.png"];
      EDir "private" (Some EACCES) [EFile "secret.md"];
      EDir "notes.md" None [EFile "todo.Md"] ].

(** ** Example data

    A source tree with three documents, a target tree that holds one of
    them already, a directory closed to the process, and a backend that
    answers in the agreed format. *)

Definition demo_fs : FS :=
  mkFS
    (list_to_map
       [ (["src"], Dir);
         (["src"; "a.md"], File "alpha");
         (["src"; "b.md"], File "beta");
         (["src"; "c.md"], File "gamma");
         (["src"; "secret.md"], File "classified");
         (["out"], Dir);
         (["out"; "c.md"], File "[fr] old gamma");
         (["vault"], Dir);
         (["vault"; "a.md"], File "kept") ])
    {[ ["vault"]; ["src"; "secret.md"] ]}.

Definition demo_files : list path := [["a.md"]; ["b.md"]; ["c.md"]].

Definition demo_backend : Translator :=
  mkTranslator (λ _ content,
    Ok ("Here you go: <translate> [fr] " +:+ content +:+ " </translate> Anything else?")).

Definition demo_world : World := mkWorld demo_fs (mkStats 3 0 0 0 0) [].

(** Two workers, no overwrite, no dry run. *)
Definition demo_cfg : Config := mkConfig ["src"] ["out"] 2 false false.
(** The same with overwrite. *)
Definition overwrite_cfg : Config := mkConfig ["src"] ["out"] 2 true false.
(** The same as a dry run. *)
Definition dry_cfg : Config := mkConfig ["src"] ["out"] 2 false true.
(** Writing into the closed directory. *)
Definition vault_cfg : Config := mkConfig ["src"] ["vault"] 2 false false.
(** Writing into a fresh target tree. *)
Definition fresh_cfg : Config := mkConfig ["src"] ["new"; "fr"] 2 false false.

Definition demo_run : Pool :=
  run_schedule demo_cfg (Some demo_backend) (fair_schedule 3 2)
    (ProcessFiles_start demo_cfg demo_files demo_fs).

Definition fresh_run : Pool :=
  run_schedule fresh_cfg (Some demo_backend) (fair_schedule 3 2)
    (ProcessFiles_start fresh_cfg demo_files demo_fs).

Definition fresh_rerun : Pool :=
  run_schedule fresh_cfg (Some demo_backend) (sequential_schedule 3 2)
    (ProcessFiles_start fresh_cfg demo_files (final_fs fresh_run)).

(** A dry run over two files, one of which the process may not read. *)
Definition dry_files : list path := [["a.md"]; ["secret.md"]].

Definition dry_run : Pool :=
  run_schedule dry_cfg None (fair_schedule 2 2)
    (ProcessFiles_start dry_cfg dry_files demo_fs).

(** A pool without workers. *)
Definition idle_cfg : Config := mkConfig ["src"] ["out"] 0 false false.

Definition idle_run : Pool :=
  run_schedule idle_cfg (Some demo_backend) (sequential_schedule 3 0)
    (ProcessFiles_start idle_cfg demo_files demo_fs).

(** ** What a run costs, and what it leaves alone *)

Definition is_write (e : Event) : bool :=
  match e with EvWrite _ _ => true | _ => false end.

Definition any_call (e : Event) : bool := true.

Definition count_events (P : Event → bool) (t : list Event) : nat :=
  length (filter (λ e, P e = true) t).

(** A call recorded as [e] is paid from a budget of [n] calls of the
    kind [P]; [K] is what has to hold of the budget left. *)
Definition spend (P : Event → bool) (e : Event) (n : nat) (K : nat → Prop) : Prop :=
  if P e then match n with O => False | S n' => K n' end else K n.

(** [at_most P n p]: whatever the answers, [p] makes at most [n] calls
    whose event satisfies [P]. *)
Fixpoint at_most {A : Type} (P : Event → bool) (n : nat) (p : prog A) : Prop :=
  match p with
  | Ret _ => True
  | Stat q k => spend P (EvStat q) n (λ n', ∀ r, at_most P n' (k r))
  | ReadFileOS q k => spend P (EvRead q) n (λ n', ∀ r, at_most P n' (k r))
  | MkdirAll q k => spend P (EvMkdirAll q) n (λ n', ∀ r, at_most P n' (k r))
  | WriteFileOS q data k => spend P (EvWrite q data) n (λ n', ∀ r, at_most P n' (k r))
  | Call _ content k => spend P (EvTranslate content) n (λ n', ∀ r, at_most P n' (k r))
  | Add c k => spend P (EvAdd c) n (λ n', at_most P n' k)
  end.

(** The budget a worker still holds. *)
Definition worker_budget (P : Event → bool) (ws : wstate) (b : nat) : Prop :=
  match ws with
  | WBody _ p => at_most P b p
  | _ => b = 0%nat
  end.

(** The steps a worker still has to make, at most: the calls of the
    loop body, the return to the head of the loop, the exit. *)
Definition worker_steps (ws : wstate) (b : nat) : Prop :=
  match ws with
  | WDone => b = 0%nat
  | WRange => b = 1%nat
  | WBody _ p => ∃ h, at_most any_call h p ∧ b = (h + 2)%nat
  end.

(** The steps a pool still has to make, at most: ten for a file not
    yet sent (the send, the receive, seven calls, the return to the head
    of the loop), nine for a task in the channel, one for [close]. *)
Definition steps_left (σ : Pool) (m : nat) : Prop :=
  ∃ bs, Forall2 worker_steps (workers σ) bs ∧
        m = (10 * length (unsent σ) + 9 * length (tasks (shared σ))
             + (if closed (shared σ) then 0 else 1) + sum_list bs)%nat.

(** The number of moves that a schedule makes (moves that are not
    possible are skipped). *)
Definition moves (cfg : Config) (trans : option Translator)
    (who : option nat) (σ : Pool) : bool :=
  match who with
  | None => bool_decide (is_Some (main_step σ))
  | Some i =>
      match workers σ !! i with
      | Some ws => bool_decide (is_Some (worker_step cfg trans ws (shared σ)))
      | None => false
      end
  end.

Fixpoint schedule_length (cfg : Config) (trans : option Translator)
    (schedule : list (option nat)) (σ : Pool) : nat :=
  match schedule with
  | [] => 0
  | who :: schedule' =>
      ((if moves cfg trans who σ then 1 else 0)
       + schedule_length cfg trans schedule' (sched_step cfg trans who σ))%nat
  end.

(** [same_at a b p]: the path [p] names the same node in [a] and in
    [b], closed or open alike. *)
Definition same_at (a b : FS) (p : path) : Prop :=
  nodes b !! p = nodes a !! p ∧ (p ∈ noaccess b ↔ p ∈ noaccess a).

(** Workers may add to the file system [fs0] of the start, and leave
    the paths in [S] as they are. *)
Definition R_keep (fs0 : FS) (S : path → Prop) : relation World := λ w w',
  fs_le fs0 (fs w) →
  fs_le (fs w) (fs w') ∧ ∀ p, S p → same_at (fs w) (fs w') p.

(** [q] is not among the paths [S] to be left alone. *)
Definition writable (S : path → Prop) (q : path) : Prop := ∀ p, S p → p ≠ q.

(** The file system stays as it is. *)
Definition R_same : relation World := λ w w', fs w' = fs w.

(** A backend none of whose answers holds a marker pair ([nil]
    included). *)
Definition never_translates (trans : option Translator) : Prop :=
  ∀ tr n content raw,
    trans = Some tr → Translate tr n content = Ok raw → ¬ has_marker_pair raw.

(** A backend that fails every call. *)
Definition down_backend : Translator :=
  mkTranslator (λ _ _, Err (BackendError "503 Service Unavailable")).

Definition down_run : Pool :=
  run_schedule fresh_cfg (Some down_backend) (fair_schedule 3 2)
    (ProcessFiles_start fresh_cfg demo_files demo_fs).

(** The calls of the kind [P] that a pool may still make, at most,
    when one loop body makes at most [c] of them. *)
Definition calls_left (P : Event → bool) (c : nat) (σ : Pool) (m : nat) : Prop :=
  ∃ bs, Forall2 (worker_budget P) (workers σ) bs ∧
        m = (c * (length (unsent σ) + length (tasks (shared σ))) + sum_list bs)%nat.

(** A source root that is a file, with overwrite. *)
Definition single_cfg : Config := mkConfig ["src"; "a.md"] ["out"] 2 true false.

Definition single_run : Pool :=
  run_schedule single_cfg (Some demo_backend) (fair_schedule 1 2)
    (ProcessFiles_start single_cfg [[]] demo_fs).
(** * Properties *)

(** ** Examples *)

Example TrimSpace_ex1 : TrimSpace (bytes [32; 10; 97; 32; 98; 9; 194; 160]%nat) = "a b".
Proof. vm_compute. reflexivity. Qed.

Example TrimSpace_ex2 : TrimSpace (bytes [226; 128; 128; 104; 105; 227; 128; 128; 13]%nat) = "hi".
Proof. vm_compute. reflexivity. Qed.

Example HasSuffix_ex : HasSuffix (ToLower "README.Md") ".md" = true.
Proof. vm_compute. reflexivity. Qed.

Example Sprintf0_ex1 : Fmt.Sprintf0 "50%% of 100% done: %d" = Some "50% of 100%!d(MISSING)one: %!d(MISSING)".
Proof. vm_compute. reflexivity. Qed.

Example Sprintf0_ex2 : Fmt.Sprintf0 "rate 100%" = Some "rate 100%!(NOVERB)".
Proof. vm_compute. reflexivity. Qed.

Example Extract_ex1 :
  ExtractTranslation "Sure! <translate>
 Bonjour </translate> bye <translate>x</translate>" = Ok "Bonjour".
Proof. vm_compute. reflexivity. Qed.

Example Extract_ex2 :
  ExtractTranslation "<translate>a</translate>b</translate>" = Ok "a".
Proof. vm_compute. reflexivity. Qed.

Example Extract_ex3 :
  ExtractTranslation "no tags" = Err (Errorf (extract_error_prefix +:+ "no tags") []).
Proof. vm_compute. reflexivity. Qed.

(** ** Facts about Go strings *)

Section StringFacts.

Implicit Types (s p a b r t : string) (c : ascii).

Lemma append_nil_r s : s +:+ EmptyString = s.
Proof. induction s as [|c s IH]; simpl; [done | by rewrite IH]. Qed.

Lemma append_assoc a b t : (a +:+ b) +:+ t = a +:+ (b +:+ t).
Proof. induction a as [|c a IH]; simpl; [done | by rewrite IH]. Qed.

Lemma length_append a b :
  String.length (a +:+ b) = (String.length a + String.length b)%nat.
Proof. induction a as [|c a IH]; simpl; [done | by rewrite IH]. Qed.

Lemma srev_append a b : srev (a +:+ b) = srev b +:+ srev a.
Proof.
  induction a as [|c a IH]; simpl.
  - by rewrite append_nil_r.
  - by rewrite IH, append_assoc.
Qed.

Lemma srev_involutive s : srev (srev s) = s.
Proof.
  induction s as [|c s IH]; simpl; [done|].
  by rewrite srev_append, IH.
Qed.

Lemma length_srev s : String.length (srev s) = String.length s.
Proof.
  induction s as [|c s IH]; simpl; [done|].
  rewrite length_append, IH. simpl. lia.
Qed.

Lemma strip_prefix_Some p s r : strip_prefix p s = Some r → s = p +:+ r.
Proof.
  revert s. induction p as [|a p IH]; intros s; simpl.
  - by intros [= ->].
  - destruct s as [|b s]; [done|].
    destruct (Ascii.eqb_spec a b) as [->|]; [|done].
    intros H. by rewrite (IH _ H).
Qed.

Lemma strip_prefix_app p r : strip_prefix p (p +:+ r) = Some r.
Proof.
  induction p as [|a p IH]; simpl; [done|].
  by rewrite Ascii.eqb_refl.
Qed.

(** A prefix test on [a +:+ b] either succeeds inside [a], or the
    pattern runs over the end of [a] and goes on in [b]. *)
Lemma strip_prefix_append p a b r :
  strip_prefix p (a +:+ b) = Some r →
  (∃ a', a = p +:+ a' ∧ r = a' +:+ b) ∨
  (∃ p2, p = a +:+ p2 ∧ p2 ≠ EmptyString ∧ strip_prefix p2 b = Some r).
Proof.
  revert a. induction p as [|x p IH]; intros a; simpl.
  - intros [= <-]. left. by exists a.
  - destruct a as [|y a]; simpl.
    + intros H. right. exists (String x p). by split.
    + destruct (Ascii.eqb_spec x y) as [->|]; [|done].
      intros H. destruct (IH _ H) as [(a' & -> & ->)|(p2 & -> & ? & ?)].
      * left. by exists a'.
      * right. by exists p2.
Qed.


Lemma char_in_append c a b : char_in c (a +:+ b) = char_in c a || char_in c b.
Proof.
  induction a as [|x a IH]; simpl; [done|].
  by rewrite IH, orb_assoc.
Qed.

Lemma char_in_srev c s : char_in c (srev s) = char_in c s.
Proof.
  induction s as [|x s IH]; simpl; [done|].
  rewrite char_in_append, IH. simpl. rewrite orb_false_r. apply orb_comm.
Qed.


Lemma last_char_append a b :
  b ≠ EmptyString → last_char (a +:+ b) = last_char b.
Proof.
  unfold last_char. rewrite srev_append.
  destruct b as [|x b]; [done|]. intros _. simpl.
  destruct (srev b) as [|y t]; simpl; done.
Qed.

Lemma last_char_in c s : last_char s = Some c → char_in c s = true.
Proof.
  unfold last_char. rewrite <-(char_in_srev c s).
  destruct (srev s) as [|x t]; [done|]. intros [= ->]. simpl.
  by rewrite Ascii.eqb_refl.
Qed.

Lemma HasPrefix_contains p s : HasPrefix s p = true → contains p s = true.
Proof. destruct s; simpl; intros ->; done. Qed.

Lemma contains_cons p c s : contains p (String c s) = false → contains p s = false.
Proof. simpl. by intros [_ ?]%orb_false_elim. Qed.

Lemma contains_not_prefix p s a' :
  contains p s = false → s ≠ p +:+ a'.
Proof.
  intros Hc ->.
  assert (HasPrefix (p +:+ a') p = true) as H
    by (unfold HasPrefix; by rewrite strip_prefix_app).
  apply HasPrefix_contains in H. congruence.
Qed.

End StringFacts.

(** *** Tags

  Both tags start with their only [<] and end with their only [>]:
  an occurrence can neither overlap a copy of the tag nor reach into
  text that has no angle bracket. *)
Section Tags.

Variable tag : string.
Variable body : string.
Hypothesis tag_shape : tag = String "<" body.
Hypothesis body_no_lt : char_in "<" body = false.
Hypothesis tag_last : last_char tag = Some ">"%char.

Lemma tag_not_across a b :
  a ≠ EmptyString → contains tag a = false →
  strip_prefix tag (a +:+ tag +:+ b) = None.
Proof using tag_shape body_no_lt.
  intros Ha Hc.
  destruct (strip_prefix tag (a +:+ tag +:+ b)) as [r|] eqn:E; [|done].
  exfalso.
  apply strip_prefix_append in E as [(a' & -> & _)|(p2 & Hp & Hne & Hs)].
  - by eapply contains_not_prefix.
  - destruct a as [|x a]; [done|].
    rewrite tag_shape in Hp. simpl in Hp. injection Hp as <- Hb.
    destruct p2 as [|y p2]; [done|].
    rewrite tag_shape in Hs. simpl in Hs.
    destruct (Ascii.eqb_spec y "<") as [->|]; [|done].
    rewrite Hb, char_in_append in body_no_lt. simpl in body_no_lt.
    by rewrite orb_true_r in body_no_lt.
Qed.

Lemma tag_needs_gt s r : strip_prefix tag s = Some r → char_in ">" s = true.
Proof using tag_last.
  intros ->%strip_prefix_Some. rewrite char_in_append.
  by rewrite (last_char_in _ _ tag_last).
Qed.

Lemma tag_not_into u r :
  char_in ">" r = false →
  strip_prefix tag (u +:+ r) = (λ x, x +:+ r) <$> strip_prefix tag u.
Proof using tag_last.
  intros Hr.
  destruct (strip_prefix tag (u +:+ r)) as [x|] eqn:E.
  - apply strip_prefix_append in E as [(a' & -> & ->)|(p2 & Hp & Hne & Hs)].
    + by rewrite strip_prefix_app.
    + exfalso. rewrite Hp, (last_char_append _ _ Hne) in tag_last.
      apply last_char_in in tag_last.
      apply strip_prefix_Some in Hs. subst r.
      rewrite char_in_append, tag_last in Hr. done.
  - destruct (strip_prefix tag u) as [y|] eqn:E'; [|done].
    apply strip_prefix_Some in E'. subst u.
    by rewrite append_assoc, strip_prefix_app in E.
Qed.

End Tags.

(** ** ExtractTranslation: the matching *)

Section Matching.

Implicit Types (s a b X r : string).

Let open_ok := tag_not_across open_tag "translate>" eq_refl eq_refl.
Let close_ok := tag_not_across close_tag "/translate>" eq_refl eq_refl.


Lemma lazy_until_close_eq s :
  lazy_until_close s =
    match strip_prefix close_tag s with
    | Some rest => Some (EmptyString, rest)
    | None =>
        match s with
        | EmptyString => None
        | String c s' =>
            match lazy_until_close s' with
            | Some (cap, rest) => Some (String c cap, rest)
            | None => None
            end
        end
    end.
Proof. by destruct s. Qed.

Lemma lazy_until_close_sound s cap rest :
  lazy_until_close s = Some (cap, rest) → s = cap +:+ close_tag +:+ rest.
Proof.
  revert cap rest. induction s as [|c s IH]; intros cap rest.
  - simpl. done.
  - rewrite lazy_until_close_eq.
    destruct (strip_prefix close_tag (String c s)) as [r|] eqn:E.
    + intros [= <- <-]. by apply strip_prefix_Some in E.
    + destruct (lazy_until_close s) as [[cap' rest']|]; [|done].
      intros [= <- <-]. simpl. by rewrite (IH cap' rest').
Qed.

Lemma lazy_until_close_shortest X b :
  contains close_tag X = false →
  lazy_until_close (X +:+ close_tag +:+ b) = Some (X, b).
Proof.
  induction X as [|c X IH]; intros Hc; rewrite lazy_until_close_eq.
  - change (EmptyString +:+ close_tag +:+ b) with (close_tag +:+ b).
    by rewrite strip_prefix_app.
  - rewrite close_ok by done.
    change (String c X +:+ close_tag +:+ b)
      with (String c (X +:+ close_tag +:+ b)).
    cbv beta iota.
    by rewrite IH by (by eapply contains_cons).
Qed.

Lemma lazy_until_close_complete X b :
  is_Some (lazy_until_close (X +:+ close_tag +:+ b)).
Proof.
  induction X as [|c X [[cap rest] IH]]; rewrite lazy_until_close_eq.
  - change (EmptyString +:+ close_tag +:+ b) with (close_tag +:+ b).
    by rewrite strip_prefix_app.
  - destruct (strip_prefix close_tag _); [done|].
    change (String c X +:+ close_tag +:+ b)
      with (String c (X +:+ close_tag +:+ b)).
    cbv beta iota.
    by rewrite IH.
Qed.

Lemma FindStringSubmatch_cases s :
  FindStringSubmatch s = [] ∨
  ∃ cap, FindStringSubmatch s = [open_tag +:+ cap +:+ close_tag; cap].
Proof.
  induction s as [|c s IH]; cbn [FindStringSubmatch].
  - left. done.
  - destruct (match_here (String c s)) as [[cap rest]|]; [|done].
    right. by exists cap.
Qed.

Lemma FindStringSubmatch_eq_cons s :
  FindStringSubmatch s =
    match match_here s with
    | Some (cap, _) => [open_tag +:+ cap +:+ close_tag; cap]
    | None => match s with
              | EmptyString => []
              | String _ s' => FindStringSubmatch s'
              end
    end.
Proof. by destruct s. Qed.

Lemma match_here_sound s cap rest :
  match_here s = Some (cap, rest) →
  s = open_tag +:+ cap +:+ close_tag +:+ rest.
Proof.
  unfold match_here.
  destruct (strip_prefix open_tag s) as [r|] eqn:E; [|done].
  intros H%lazy_until_close_sound. apply strip_prefix_Some in E.
  by subst.
Qed.

Lemma FindStringSubmatch_sound s :
  FindStringSubmatch s ≠ [] → has_marker_pair s.
Proof.
  induction s as [|c s IH]; rewrite FindStringSubmatch_eq_cons.
  - by cbn.
  - destruct (match_here (String c s)) as [[cap rest]|] eqn:E.
    + intros _. exists EmptyString, cap, rest. by apply match_here_sound.
    + intros (a & X & b & ->)%IH. by exists (String c a), X, b.
Qed.

Lemma FindStringSubmatch_complete s :
  has_marker_pair s → FindStringSubmatch s ≠ [].
Proof.
  intros (a & X & b & ->).
  induction a as [|c a IH]; rewrite FindStringSubmatch_eq_cons.
  - change (EmptyString +:+ open_tag +:+ X +:+ close_tag +:+ b)
      with (open_tag +:+ X +:+ close_tag +:+ b).
    unfold match_here. rewrite strip_prefix_app.
    by destruct (lazy_until_close_complete X b) as [[cap rest] ->].
  - destruct (match_here _) as [[cap rest]|]; [done|].
    exact IH.
Qed.

(** The leftmost start marker and the first end marker after it
    delimit the capture. *)
Lemma FindStringSubmatch_first a X b :
  contains open_tag a = false → contains close_tag X = false →
  FindStringSubmatch (a +:+ open_tag +:+ X +:+ close_tag +:+ b)
  = [open_tag +:+ X +:+ close_tag; X].
Proof.
  intros Ha HX.
  induction a as [|c a IH]; rewrite FindStringSubmatch_eq_cons.
  - change (EmptyString +:+ open_tag +:+ X +:+ close_tag +:+ b)
      with (open_tag +:+ X +:+ close_tag +:+ b).
    unfold match_here. rewrite strip_prefix_app.
    by rewrite lazy_until_close_shortest.
  - unfold match_here. rewrite open_ok by done.
    apply IH. by eapply contains_cons.
Qed.

(** Text without [<] in front of the input, or without [>] behind
    it, changes no match. *)
Lemma FindStringSubmatch_skip_front l s :
  char_in "<" l = false → FindStringSubmatch (l +:+ s) = FindStringSubmatch s.
Proof.
  induction l as [|c l IH]; [done|].
  cbn [char_in]. intros [Hc Hl]%orb_false_elim.
  rewrite FindStringSubmatch_eq_cons.
  change (String c l +:+ s) with (String c (l +:+ s)).
  assert (match_here (String c (l +:+ s)) = None) as ->.
  { unfold match_here, open_tag. cbn [strip_prefix]. by rewrite Hc. }
  by apply IH.
Qed.

Lemma lazy_until_close_no_gt r :
  char_in ">" r = false → lazy_until_close r = None.
Proof.
  induction r as [|c r IH]; [done|].
  intros Hr. rewrite lazy_until_close_eq.
  destruct (strip_prefix close_tag (String c r)) as [x|] eqn:E.
  - apply (tag_needs_gt close_tag eq_refl) in E. congruence.
  - rewrite IH; [done|]. cbn [char_in] in Hr. by apply orb_false_elim in Hr as [_ ?].
Qed.

Lemma lazy_until_close_skip_back s r :
  char_in ">" r = false →
  lazy_until_close (s +:+ r)
  = (λ '(cap, rest), (cap, rest +:+ r)) <$> lazy_until_close s.
Proof.
  intros Hr. induction s as [|c s IH].
  - cbn [String.append]. by rewrite lazy_until_close_no_gt.
  - rewrite (lazy_until_close_eq (String c s +:+ r)).
    rewrite (lazy_until_close_eq (String c s)).
    rewrite (tag_not_into close_tag eq_refl) by done.
    destruct (strip_prefix close_tag (String c s)) as [x|]; [done|].
    change (String c s +:+ r) with (String c (s +:+ r)).
    cbv beta iota. rewrite IH.
    by destruct (lazy_until_close s) as [[cap rest]|].
Qed.

Lemma match_here_skip_back s r :
  char_in ">" r = false →
  match_here (s +:+ r) = (λ '(cap, rest), (cap, rest +:+ r)) <$> match_here s.
Proof.
  intros Hr. unfold match_here.
  rewrite (tag_not_into open_tag eq_refl) by done.
  destruct (strip_prefix open_tag s) as [x|]; [|done].
  by apply lazy_until_close_skip_back.
Qed.

Lemma FindStringSubmatch_skip_back s r :
  char_in ">" r = false → FindStringSubmatch (s +:+ r) = FindStringSubmatch s.
Proof.
  intros Hr. induction s as [|c s IH].
  - cbn [String.append].
    destruct (FindStringSubmatch_cases r) as [->|[cap E]]; [done|].
    assert (has_marker_pair r) as (a & X & b & ->)
      by (apply FindStringSubmatch_sound; by rewrite E).
    rewrite !char_in_append in Hr. cbn in Hr.
    by rewrite !orb_true_r in Hr.
  - rewrite (FindStringSubmatch_eq_cons (String c s +:+ r)).
    rewrite (FindStringSubmatch_eq_cons (String c s)).
    rewrite match_here_skip_back by done.
    destruct (match_here (String c s)) as [[cap rest]|]; [done|].
    exact IH.
Qed.

End Matching.

(** ** TrimSpace removes only spaces *)

Section Trimming.

Implicit Types (s l r p : string) (table : list string).

Lemma strip_any_split table s r :
  strip_any table s = Some r → ∃ p, p ∈ table ∧ s = p +:+ r.
Proof.
  induction table as [|p table IH]; cbn [strip_any]; [done|].
  destruct (strip_prefix p s) as [r'|] eqn:E.
  - intros [= ->]. exists p. split; [left|]. by apply strip_prefix_Some.
  - intros (q & ? & ?)%IH. exists q. split; [by right|done].
Qed.

Lemma trim_loop_split (c : ascii) table fuel s :
  (∀ p, p ∈ table → char_in c p = false) →
  ∃ l, s = l +:+ trim_loop table fuel s ∧ char_in c l = false.
Proof.
  intros Htable. revert s.
  induction fuel as [|fuel IH]; intros s; cbn [trim_loop].
  - by exists EmptyString.
  - destruct (strip_any table s) as [r|] eqn:E; [|by exists EmptyString].
    apply strip_any_split in E as (p & Hp & ->).
    destruct (IH r) as (l & Hl & Hc).
    exists (p +:+ l). split.
    + by rewrite append_assoc, <-Hl.
    + by rewrite char_in_append, Hc, (Htable p Hp).
Qed.

Lemma space_runes_no_lt p : p ∈ space_runes → char_in "<" p = false.
Proof.
  revert p. apply Forall_forall.
  unfold space_runes. repeat (constructor; [by vm_compute|]). constructor.
Qed.

Lemma space_runes_rev_no_gt p : p ∈ map srev space_runes → char_in ">" p = false.
Proof.
  revert p. apply Forall_forall.
  unfold space_runes. repeat (constructor; [by vm_compute|]). constructor.
Qed.

(** The loop of [TrimSpace] runs until no space is left in front. *)
Lemma strip_any_nil table :
  (∀ p, p ∈ table → p ≠ EmptyString) → strip_any table EmptyString = None.
Proof.
  induction table as [|p table IH]; intros Hne; [done|]. cbn [strip_any].
  destruct p as [|c p]; [by destruct (Hne EmptyString); [left|]|].
  cbn [strip_prefix]. apply IH. intros q Hq. apply Hne. by right.
Qed.

Lemma trim_loop_done table fuel s :
  (∀ p, p ∈ table → p ≠ EmptyString) →
  (String.length s ≤ fuel)%nat →
  strip_any table (trim_loop table fuel s) = None.
Proof.
  intros Hne. revert s. induction fuel as [|fuel IH]; intros s Hlen.
  - destruct s; [|cbn in Hlen; lia]. by apply strip_any_nil.
  - cbn [trim_loop]. destruct (strip_any table s) as [r|] eqn:E; [|done].
    apply IH. apply strip_any_split in E as (p & Hp & ->).
    rewrite length_append in Hlen.
    destruct p as [|c p]; [by destruct (Hne EmptyString)|]. cbn in Hlen. lia.
Qed.

Lemma space_runes_nonempty p : p ∈ space_runes → p ≠ EmptyString.
Proof.
  revert p. apply Forall_forall.
  unfold space_runes. repeat (constructor; [by vm_compute|]). constructor.
Qed.

Lemma space_runes_rev_nonempty p : p ∈ map srev space_runes → p ≠ EmptyString.
Proof.
  revert p. apply Forall_forall.
  unfold space_runes. repeat (constructor; [by vm_compute|]). constructor.
Qed.

Lemma strip_any_shorter table u r :
  strip_any table (u +:+ r) = None → strip_any table u = None.
Proof.
  induction table as [|p table IH]; [done|]. cbn [strip_any].
  destruct (strip_prefix p (u +:+ r)) as [x|] eqn:E; [done|].
  intros H. destruct (strip_prefix p u) as [y|] eqn:E'; [|by apply IH].
  apply strip_prefix_Some in E'. subst u.
  by rewrite append_assoc, strip_prefix_app in E.
Qed.

(** [TrimSpace s] starts with no space and ends with none. *)
Lemma TrimSpace_done s :
  strip_any space_runes (TrimSpace s) = None ∧
  strip_any (map srev space_runes) (srev (TrimSpace s)) = None.
Proof.
  unfold TrimSpace, TrimRightSpace, TrimLeftSpace.
  set (t := trim_loop space_runes (String.length s) s).
  assert (strip_any space_runes t = None) as Hleft
    by (apply trim_loop_done; [apply space_runes_nonempty|done]).
  split.
  - destruct (trim_loop_split ">" (map srev space_runes) (String.length t)
                (srev t) space_runes_rev_no_gt) as (r & Hr & _).
    apply (strip_any_shorter _ _ (srev r)).
    rewrite <-srev_append, <-Hr, srev_involutive. exact Hleft.
  - rewrite srev_involutive. apply trim_loop_done.
    + apply space_runes_rev_nonempty.
    + by rewrite length_srev.
Qed.

(** What [TrimSpace] cuts off holds no angle bracket. *)
Lemma TrimSpace_split s :
  ∃ l r, s = l +:+ TrimSpace s +:+ r ∧
         char_in "<" l = false ∧ char_in ">" r = false.
Proof.
  unfold TrimSpace, TrimRightSpace, TrimLeftSpace.
  destruct (trim_loop_split "<" space_runes (String.length s) s
              space_runes_no_lt) as (l & Hl & Hcl).
  set (t := trim_loop space_runes (String.length s) s) in *.
  destruct (trim_loop_split ">" (map srev space_runes) (String.length t)
              (srev t) space_runes_rev_no_gt) as (r & Hr & Hcr).
  set (u := trim_loop (map srev space_runes) (String.length t) (srev t)) in *.
  exists l, (srev r). split; [|split; [done|by rewrite char_in_srev]].
  rewrite Hl at 1. f_equal.
  rewrite <-(srev_involutive t), Hr, srev_append. done.
Qed.

Lemma FindStringSubmatch_TrimSpace s :
  FindStringSubmatch (TrimSpace s) = FindStringSubmatch s.
Proof.
  destruct (TrimSpace_split s) as (l & r & Hs & Hl & Hr).
  rewrite Hs at 2.
  rewrite FindStringSubmatch_skip_front by done.
  by rewrite FindStringSubmatch_skip_back.
Qed.

Lemma slice_to_prefix n s : ∃ rest, s = slice_to n s +:+ rest.
Proof.
  unfold slice_to. revert s. induction n as [|n IH]; intros s.
  - exists s. by destruct s.
  - destruct s as [|c s]; [by exists EmptyString|].
    destruct (IH s) as [rest Hrest]. exists rest.
    cbn [String.substring String.append]. by rewrite <-Hrest.
Qed.

Lemma length_slice_to n s :
  (n ≤ String.length s)%nat → String.length (slice_to n s) = n.
Proof.
  unfold slice_to. revert s. induction n as [|n IH]; intros s Hn.
  - by destruct s.
  - destruct s as [|c s]; cbn in Hn; [lia|].
    cbn [String.substring String.length]. rewrite IH; lia.
Qed.

(** The preview is the raw output when that has at most 300 bytes, and
    else its first 300 bytes followed by three dots. *)
Lemma extract_preview_spec raw :
  ((String.length raw ≤ 300)%nat ∧ extract_preview raw = raw) ∨
  ((300 < String.length raw)%nat ∧
   ∃ head rest, raw = head +:+ rest ∧ String.length head = 300%nat ∧
                extract_preview raw = head +:+ "...").
Proof.
  unfold extract_preview.
  destruct (Nat.ltb_spec 300 (String.length raw)) as [H|H]; [right|left; done].
  split; [done|].
  destruct (slice_to_prefix 300 raw) as [rest Hrest].
  exists (slice_to 300 raw), rest.
  split; [done|]. split; [|done]. apply length_slice_to. lia.
Qed.

Lemma extract_preview_length raw :
  (String.length (extract_preview raw) ≤ 303)%nat.
Proof.
  destruct (extract_preview_spec raw) as [[H ->]|[H (h & r & _ & Hh & ->)]].
  - lia.
  - rewrite length_append, Hh. cbn. lia.
Qed.

End Trimming.

(** ** ExtractTranslation: results *)

Lemma ExtractTranslation_found raw cap :
  FindStringSubmatch raw = [open_tag +:+ cap +:+ close_tag; cap] →
  ExtractTranslation raw = Ok (TrimSpace cap).
Proof. unfold ExtractTranslation. by intros ->. Qed.

Lemma ExtractTranslation_not_found raw :
  FindStringSubmatch raw = [] →
  ExtractTranslation raw = Err (Errorf (extract_errMsg raw) []).
Proof.
  unfold ExtractTranslation. intros E.
  by rewrite FindStringSubmatch_TrimSpace, E.
Qed.

(** The capture is the text between the leftmost start marker and the
    first end marker after it. *)
Lemma ExtractTranslation_first_span a X b :
  contains open_tag a = false → contains close_tag X = false →
  ExtractTranslation (a +:+ open_tag +:+ X +:+ close_tag +:+ b) = Ok (TrimSpace X).
Proof.
  intros Ha HX. apply ExtractTranslation_found.
  by apply FindStringSubmatch_first.
Qed.

(** Without a marker pair the result is the error built from [errMsg]. *)
Lemma ExtractTranslation_no_markers raw :
  ¬ has_marker_pair raw →
  ExtractTranslation raw = Err (Errorf (extract_errMsg raw) []).
Proof.
  intros Hn. apply ExtractTranslation_not_found.
  destruct (FindStringSubmatch_cases raw) as [E|[cap E]]; [done|].
  exfalso. apply Hn, FindStringSubmatch_sound. by rewrite E.
Qed.

(** With a marker pair the extraction succeeds. *)
Lemma ExtractTranslation_markers raw :
  has_marker_pair raw → ∃ X, ExtractTranslation raw = Ok X.
Proof.
  intros Hp%FindStringSubmatch_complete.
  destruct (FindStringSubmatch_cases raw) as [E|[cap E]]; [done|].
  exists (TrimSpace cap). by apply ExtractTranslation_found.
Qed.

(** ** The file system only grows *)

Section FileSystem.

Implicit Types (a b : FS) (p q cur : path) (n : node).

Lemma difference_sub (X : gset path) p : X ∖ {[p]} ⊆ X.
Proof. by intros x [? _]%elem_of_difference. Qed.

Lemma fs_le_refl a : fs_le a a.
Proof. split; [done|]. intros p n H. by exists n. Qed.

Lemma fs_le_trans a b c : fs_le a b → fs_le b c → fs_le a c.
Proof.
  intros [Ha1 Ha2] [Hb1 Hb2]. split; [by etrans|].
  intros p n H. destruct (Ha2 p n H) as (n' & H' & E').
  destruct (Hb2 p n' H') as (n'' & H'' & E'').
  exists n''. split; [done|congruence].
Qed.

Lemma node_at_le a b p n :
  fs_le a b → node_at a p = Some n →
  ∃ n', node_at b p = Some n' ∧ IsDir n' = IsDir n.
Proof.
  intros [_ H]. destruct p as [|x p]; cbn [node_at].
  - intros [= <-]. by exists Dir.
  - apply H.
Qed.

Lemma walk_le a b cur rest :
  fs_le a b → walk a cur rest = None → walk b cur rest = None.
Proof.
  intros Hle. revert cur. induction rest as [|c rest IH]; intros cur; [done|].
  cbn [walk].
  destruct (node_at a cur) as [[d|]|] eqn:E; try done.
  destruct (node_at_le a b cur Dir Hle E) as (n' & -> & Hd).
  destruct n'; [done|].
  rewrite !bool_decide_decide.
  destruct (decide (cur ∈ noaccess a)); [done|].
  destruct Hle as [Hsub _].
  rewrite decide_False by (intros ?; by apply n, Hsub). apply IH.
Qed.

Lemma os_Stat_le a b p n :
  fs_le a b → os_Stat a p = Ok n →
  ∃ n', os_Stat b p = Ok n' ∧ IsDir n' = IsDir n.
Proof.
  intros Hle. unfold os_Stat.
  destruct (walk a [] p) eqn:Hw; [done|].
  rewrite (walk_le a b [] p Hle Hw).
  destruct (node_at a p) as [m|] eqn:E; [|done].
  intros [= <-].
  destruct (node_at_le a b p m Hle E) as (n' & -> & Hd). by exists n'.
Qed.

Lemma exists_at_le a b p : fs_le a b → exists_at a p → exists_at b p.
Proof.
  intros Hle [n Hn]. destruct (os_Stat_le a b p n Hle Hn) as (n' & ? & _).
  by exists n'.
Qed.

Lemma put_new_le a p n : nodes a !! p = None → fs_le a (put a p n).
Proof.
  intros Hp. split; cbn; [apply difference_sub|].
  intros q m Hq. exists m. split; [|done].
  rewrite lookup_insert_ne; [done|]. congruence.
Qed.

Lemma put_file_le a p d d' : nodes a !! p = Some (File d) → fs_le a (put a p (File d')).
Proof.
  intros Hp. split; cbn; [apply difference_sub|].
  intros q m Hq. destruct (decide (p = q)) as [->|].
  - rewrite lookup_insert_eq. exists (File d'). split; [done|]. by simplify_eq.
  - rewrite lookup_insert_ne by done. by exists m.
Qed.

Lemma node_at_None a p : node_at a p = None → nodes a !! p = None ∧ p ≠ [].
Proof. by destruct p. Qed.

Lemma node_at_put a p n : p ≠ [] → node_at (put a p n) p = Some n.
Proof. destruct p; [done|]. intros _. cbn. by rewrite lookup_insert_eq. Qed.

Lemma os_Mkdir_le a p : fs_le a (os_Mkdir a p).1.
Proof.
  unfold os_Mkdir. destruct (walk a [] p); [apply fs_le_refl|].
  destruct (node_at a p) eqn:E; [apply fs_le_refl|].
  apply node_at_None in E as [E _]. by apply put_new_le.
Qed.

Lemma os_Mkdir_ok a p b :
  os_Mkdir a p = (b, None) → os_Stat b p = Ok Dir.
Proof.
  unfold os_Mkdir. destruct (walk a [] p) eqn:Hw; [done|].
  destruct (node_at a p) eqn:E; [done|]. intros [= <-].
  apply node_at_None in E as [E Hne].
  unfold os_Stat.
  rewrite (walk_le a (put a p Dir) [] p (put_new_le a p Dir E) Hw).
  by rewrite node_at_put.
Qed.

Lemma MkdirAll_rev_le a rp : fs_le a (MkdirAll_rev a rp).1.
Proof.
  induction rp as [|c rp IH]; cbn [MkdirAll_rev].
  - destruct (os_Stat a (rev [])) as [[|]|]; apply fs_le_refl.
  - destruct (os_Stat a (rev (c :: rp))) as [[|]|]; try apply fs_le_refl.
    destruct (MkdirAll_rev a rp) as [fs1 [err|]]; [exact IH|].
    pose proof (os_Mkdir_le fs1 (rev (c :: rp))) as H.
    destruct (os_Mkdir fs1 (rev (c :: rp))) as [fs2 [err|]]; cbn [fst] in *.
    + destruct (os_Stat fs2 (rev (c :: rp))) as [[|]|]; by eapply fs_le_trans.
    + by eapply fs_le_trans.
Qed.

Lemma os_MkdirAll_le a p : fs_le a (os_MkdirAll a p).1.
Proof. apply MkdirAll_rev_le. Qed.

Lemma MkdirAll_rev_ok a rp b :
  MkdirAll_rev a rp = (b, None) → os_Stat b (rev rp) = Ok Dir.
Proof.
  revert b. induction rp as [|c rp IH]; intros b; cbn [MkdirAll_rev].
  - destruct (os_Stat a (rev [])) as [[|]|] eqn:E; try done; by intros [= <-].
  - destruct (os_Stat a (rev (c :: rp))) as [[|]|] eqn:E;
      try done; try (by intros [= <-]).
    destruct (MkdirAll_rev a rp) as [fs1 [err|]]; [done|].
    destruct (os_Mkdir fs1 (rev (c :: rp))) as [fs2 [err|]] eqn:Hm.
    + destruct (os_Stat fs2 (rev (c :: rp))) as [[|]|] eqn:E2;
        try done; by intros [= <-].
    + intros [= <-]. by eapply os_Mkdir_ok.
Qed.

Lemma os_MkdirAll_ok a p b :
  os_MkdirAll a p = (b, None) → os_Stat b p = Ok Dir.
Proof.
  unfold os_MkdirAll. intros H%MkdirAll_rev_ok. by rewrite rev_involutive in H.
Qed.

Lemma os_WriteFile_le a p data : fs_le a (os_WriteFile a p data).1.
Proof.
  unfold os_WriteFile. destruct (walk a [] p); [apply fs_le_refl|].
  destruct (node_at a p) as [[d|]|] eqn:E.
  - case_bool_decide; [apply fs_le_refl|].
    destruct p as [|x p]; [done|]. by eapply put_file_le.
  - apply fs_le_refl.
  - apply node_at_None in E as [E _]. by apply put_new_le.
Qed.

(** After a successful write the file holds exactly the new content. *)
Lemma os_WriteFile_ok a p data b :
  os_WriteFile a p data = (b, None) →
  os_Stat b p = Ok (File data) ∧ os_ReadFile b p = Ok data.
Proof.
  unfold os_WriteFile. destruct (walk a [] p) eqn:Hw; [done|].
  assert (∀ (Hle : fs_le a (put a p (File data))) (Hne : p ≠ []),
    os_Stat (put a p (File data)) p = Ok (File data) ∧
    os_ReadFile (put a p (File data)) p = Ok data) as Hput.
  { intros Hle Hne. unfold os_Stat, os_ReadFile.
    rewrite (walk_le _ _ _ _ Hle Hw), node_at_put by done.
    split; [done|]. rewrite bool_decide_false; [done|]. cbn.
    intros [_ H]%elem_of_difference. by apply H, elem_of_singleton. }
  destruct (node_at a p) as [[d|]|] eqn:E; [|done|].
  - case_bool_decide; [done|]. intros [= <-].
    destruct p as [|x p]; [done|]. apply Hput; [|done]. by eapply put_file_le.
  - intros [= <-]. apply node_at_None in E as [E Hne].
    apply Hput; [|done]. by apply put_new_le.
Qed.

(** A failed call of [os.WriteFile] leaves the file system as it was. *)
Lemma os_WriteFile_err a p data b err :
  os_WriteFile a p data = (b, Some err) → b = a.
Proof.
  unfold os_WriteFile. destruct (walk a [] p); [by intros [= <-]|].
  destruct (node_at a p) as [[d|]|]; try by intros [= <-].
  case_bool_decide; [by intros [= <-]|done].
Qed.

(** When a path resolves, each of its proper prefixes is a directory. *)
Lemma walk_app a cur r1 r2 :
  walk a cur (r1 ++ r2)
  = match walk a cur r1 with
    | Some e => Some e
    | None => walk a (cur ++ r1) r2
    end.
Proof.
  revert cur. induction r1 as [|c r1 IH]; intros cur; cbn [walk app].
  - by rewrite app_nil_r.
  - destruct (node_at a cur) as [[d|]|]; try done.
    case_bool_decide; [done|].
    rewrite IH, <-(assoc_L (++)). done.
Qed.

Lemma os_Stat_parent a p c n :
  os_Stat a (p ++ [c]) = Ok n → os_Stat a p = Ok Dir.
Proof.
  unfold os_Stat. rewrite walk_app. cbn [app].
  destruct (walk a [] p) eqn:Hw; [done|].
  cbn [walk].
  destruct (node_at a p) as [[d|]|]; try done.
Qed.

Lemma os_Stat_prefix a p q n :
  os_Stat a (p ++ q) = Ok n → q ≠ [] → os_Stat a p = Ok Dir.
Proof.
  revert n. induction q as [|c q IH] using rev_ind; [done|].
  intros n H _. rewrite (assoc_L (++)) in H.
  apply os_Stat_parent in H.
  destruct q as [|c' q]; [by rewrite app_nil_r in H|].
  by eapply IH.
Qed.

End FileSystem.

(** ** int32 arithmetic *)

Lemma wrap32_small z : -2^31 ≤ z < 2^31 → wrap32 z = z.
Proof. intros H. unfold wrap32. rewrite Z.mod_small; lia. Qed.

Lemma wrap32_add_l a b : wrap32 (wrap32 a + b) = wrap32 (a + b).
Proof.
  unfold wrap32.
  replace ((a + 2^31) mod 2^32 - 2^31 + b + 2^31)
    with ((a + 2^31) mod 2^32 + b) by lia.
  rewrite Zplus_mod_idemp_l. f_equal. f_equal. lia.
Qed.

Lemma wrap32_add_r a b : wrap32 (a + wrap32 b) = wrap32 (a + b).
Proof. rewrite (Z.add_comm a), wrap32_add_l. f_equal. lia. Qed.

(** ** Counting *)

Lemma Load_Add1 c c' s :
  Load c (Add1 c' s) = if decide (c' = c) then wrap32 (Load c s + 1) else Load c s.
Proof. by destruct c, c'. Qed.

Lemma TotalFiles_Add1 c s : TotalFiles (Add1 c s) = TotalFiles s.
Proof. by destruct c. Qed.

Lemma tally_snoc c os task c' :
  tally c (os ++ [(task, c')]) = (tally c os + if decide (c' = c) then 1 else 0)%nat.
Proof.
  unfold tally. rewrite filter_app, length_app. f_equal.
  rewrite filter_cons. cbn [snd]. by destruct (decide (c' = c)).
Qed.

Lemma tally_total os :
  (tally CProcessed os + tally CSkipped os + tally CFailed os + tally CDryRunHits os
   = length os)%nat.
Proof.
  induction os as [|[task c] os IH]; [done|].
  unfold tally in *. rewrite !filter_cons. cbn [snd length].
  destruct c; repeat case_decide; try done; cbn [length]; lia.
Qed.

Lemma tally_all c os :
  Forall (λ o, o.2 = c) os → tally c os = length os.
Proof.
  induction 1 as [|[task c'] os Hc _ IH]; [done|].
  unfold tally in *. rewrite filter_cons. cbn [snd] in *.
  rewrite decide_True by done. cbn [length]. by rewrite IH.
Qed.

Lemma tally_none c os :
  Forall (λ o, o.2 ≠ c) os → tally c os = 0%nat.
Proof.
  induction 1 as [|[task c'] os Hc _ IH]; [done|].
  unfold tally in *. rewrite filter_cons. cbn [snd] in *.
  by rewrite decide_False by done.
Qed.

Lemma tally_full c os :
  tally c os = length os → Forall (λ o, o.2 = c) os.
Proof.
  induction os as [|[task c'] os IH]; [constructor|].
  unfold tally in *. rewrite filter_cons. cbn [snd length].
  pose proof (length_filter (λ o : TranslationTask * Counter, o.2 = c) os).
  case_decide; cbn [length]; intros E; [|lia].
  constructor; [done|]. apply IH. lia.
Qed.

Lemma inflight_app a b : inflight (a ++ b) = inflight a ++ inflight b.
Proof. unfold inflight. by rewrite map_app, join_app. Qed.

Lemma inflight_cons ws l : inflight (ws :: l) = holding ws ++ inflight l.
Proof. done. Qed.

Lemma inflight_done wss : Forall (λ ws, ws = WDone) wss → inflight wss = [].
Proof. induction 1 as [|ws wss -> _ IH]; [done|]. by rewrite inflight_cons, IH. Qed.

Lemma perm_send {A} (a : A) (X B Y : list A) :
  (a :: X) ++ B ++ Y ≡ₚ X ++ (B ++ [a]) ++ Y.
Proof. solve_Permutation. Qed.

Lemma perm_recv {A} (t : A) (X B I1 I2 O : list A) :
  X ++ (t :: B) ++ (I1 ++ [] ++ I2) ++ O ≡ₚ X ++ B ++ (I1 ++ [t] ++ I2) ++ O.
Proof. solve_Permutation. Qed.

Lemma perm_count {A} (t : A) (X B I1 I2 O : list A) :
  X ++ B ++ (I1 ++ [t] ++ I2) ++ O ≡ₚ X ++ B ++ (I1 ++ [] ++ I2) ++ (O ++ [t]).
Proof. solve_Permutation. Qed.

Lemma done_elsewhere (before after : list wstate) ws ws' :
  ws' ≠ WDone →
  WDone ∈ before ++ ws' :: after → WDone ∈ before ++ ws :: after.
Proof.
  rewrite !elem_of_app, !elem_of_cons. intros ? [?|[?|?]]; auto. congruence.
Qed.

Lemma worker_step_body cfg trans task p sh :
  (∀ u, p ≠ Ret u) →
  worker_step cfg trans (WBody task p) sh
  = Some (WBody task (step1 p (world sh)).1,
          mkShared (closed sh) (tasks sh) (outcomes sh ++ counted task p)
                   (step1 p (world sh)).2).
Proof.
  intros H. destruct p; cbn [worker_step]; try (by destruct (step1 _ _)).
  by destruct (H a).
Qed.

(** ** The rely-guarantee invariant of the pool *)

Section Invariant.

Context (cfg : Config) (trans : option Translator) (files : list path) (w0 : World).
Context (R : relation World) (Φ : TranslationTask → Counter → World → Prop).

Hypothesis R_refl : ∀ w, R w w.
Hypothesis R_trans : ∀ w1 w2 w3, R w1 w2 → R w2 w3 → R w1 w3.
Hypothesis Φ_stable : ∀ task c w w', Φ task c w → R w w' → Φ task c w'.
Hypothesis body_ok : ∀ f w,
  f ∈ files → R w0 w → wp R (Φ (mkTask f)) (process_task cfg trans (mkTask f)) w.

Lemma wp_mono Ψ p w w' : wp R Ψ p w → R w w' → wp R Ψ p w'.
Proof.
  destruct p; cbn [wp]; try done; intros H HR;
    try (intros w1 H1; apply H; by eapply R_trans).
  destruct H as [-> H]. split; [done|].
  intros w1 H1. apply H. by eapply R_trans.
Qed.

Lemma worker_ok_mono w w' ws :
  worker_ok R Φ w ws → R w w' → worker_ok R Φ w' ws.
Proof.
  destruct ws as [|task p|]; cbn; [done| |done].
  intros [->|H] HR; [by left|right]. by eapply wp_mono.
Qed.

(** One call of a program that keeps its promise. *)
Lemma wp_step Ψ task p w :
  wp R Ψ p w →
  R w (step1 p w).2 ∧
  ((counted task p = [] ∧ wp R Ψ (step1 p w).1 (step1 p w).2 ∧
    stats (step1 p w).2 = stats w) ∨
   (∃ c, counted task p = [(task, c)] ∧ (step1 p w).1 = Ret tt ∧
         Ψ c (step1 p w).2 ∧ stats (step1 p w).2 = Add1 c (stats w))).
Proof.
  destruct p; cbn [wp]; try done; intros H.
  - destruct (H w (R_refl w)) as [HR Hk]. split; [done|]. left. done.
  - destruct (H w (R_refl w)) as [HR Hk]. split; [done|]. left. done.
  - destruct (H w (R_refl w)) as [HR Hk]. split; [done|]. left.
    cbn [step1] in *. by destruct (os_MkdirAll (fs w) p).
  - destruct (H w (R_refl w)) as [HR Hk]. split; [done|]. left.
    cbn [step1] in *. by destruct (os_WriteFile (fs w) p data).
  - destruct (H w (R_refl w)) as [HR Hk]. split; [done|]. left. done.
  - destruct H as [-> H]. destruct (H w (R_refl w)) as [HR Hk].
    split; [done|]. right. by exists c.
Qed.

Lemma wp_not_Ret Ψ p w : wp R Ψ p w → ∀ u, p ≠ Ret u.
Proof. by destruct p. Qed.

Lemma holding_wp Ψ task p w : wp R Ψ p w → holding (WBody task p) = [task].
Proof. by destruct p. Qed.

Lemma pool_inv_start fs0 :
  w0 = world (shared (ProcessFiles_start cfg files fs0)) →
  pool_inv R Φ files w0 (ProcessFiles_start cfg files fs0).
Proof using R_refl.
  clear body_ok Φ_stable R_trans.
  intros ->. unfold ProcessFiles_start.
  split; cbn [unsent workers shared closed tasks outcomes world stats Load TotalFiles].
  - apply R_refl.
  - cbn [map app]. rewrite app_nil_r.
    assert (inflight (replicate (Z.to_nat (Concurrency cfg)) WRange) = []) as ->.
    { induction (Z.to_nat (Concurrency cfg)) as [|n IH]; [done|]. exact IH. }
    by rewrite app_nil_r.
  - by intros [].
  - done.
  - done.
  - intros [[=] _]%elem_of_replicate.
  - apply Forall_replicate. done.
  - constructor.
Qed.

Lemma pool_inv_step σ σ' :
  pool_inv R Φ files w0 σ → pool_step cfg trans σ σ' → pool_inv R Φ files w0 σ'.
Proof.
  intros [Hrely Htasks Hstats Htotal Hclosed Hdone Hworkers Houtcomes] Hstep.
  destruct Hstep as [σ σ' Hmain|σ before ws after ws' sh' Hws Hstep].
  - (* main *)
    unfold main_step in Hmain.
    destruct (unsent σ) as [|f rest] eqn:Hunsent.
    + destruct (closed (shared σ)) eqn:Hc; [done|]. injection Hmain as <-.
      split; cbn [unsent workers shared closed tasks outcomes world]; try done.
      intros Hin. by destruct (Hdone Hin).
    + injection Hmain as <-.
      assert (closed (shared σ) = false) as Hc
        by (destruct (closed (shared σ)); [by specialize (Hclosed eq_refl)|done]).
      split; cbn [unsent workers shared closed tasks outcomes world]; try done.
      * etrans; [exact Htasks|]. cbn [map]. apply perm_send.
      * by rewrite Hc.
      * intros Hin. destruct (Hdone Hin). congruence.
  - (* a worker *)
    rewrite Hws in *.
    apply Forall_app in Hworkers as [Hbefore Hrest].
    apply Forall_cons in Hrest as [Hthis Hafter].
    rewrite !inflight_app, !inflight_cons in Htasks.
    destruct ws as [|task p|]; [cbn [worker_step] in Hstep| |done].
    + (* at the range *)
      destruct (tasks (shared σ)) as [|task rest] eqn:Hq.
      * destruct (closed (shared σ)) eqn:Hc; [|done]. injection Hstep as <- <-.
        split; cbn [unsent workers shared]; try done; try (by auto).
        -- by rewrite !inflight_app, !inflight_cons, Hq.
        -- apply Forall_app. split; [done|]. by constructor.
      * injection Hstep as <- <-.
        assert (∃ f, f ∈ files ∧ task = mkTask f) as (f & Hf & ->).
        { assert (task ∈ map mkTask files) as Hin.
          { rewrite Htasks, !elem_of_app, elem_of_cons. auto. }
          apply list_elem_of_fmap in Hin as (f & -> & Hf). by exists f. }
        pose proof (body_ok f _ Hf Hrely) as Hbody.
        split; cbn [unsent workers shared closed tasks outcomes world]; try done.
        -- rewrite !inflight_app, !inflight_cons.
           rewrite (holding_wp _ _ _ _ Hbody).
           etrans; [exact Htasks|]. cbn [holding]. apply perm_recv.
        -- intros Hin. exfalso.
           assert (WDone ∈ before ++ WRange :: after) as Hin'.
           { eapply done_elsewhere; [|exact Hin]. done. }
           by destruct (Hdone Hin').
        -- apply Forall_app. split; [done|]. constructor; [|done]. by right.
    + (* in the loop body *)
      destruct Hthis as [->|Hwp].
      * cbn [worker_step] in Hstep. injection Hstep as <- <-.
        split; cbn [unsent workers shared]; try done.
        -- by rewrite !inflight_app, !inflight_cons.
        -- intros Hin. apply Hdone. eapply done_elsewhere; [|exact Hin]. done.
        -- apply Forall_app. split; [done|]. by constructor.
      * rewrite worker_step_body in Hstep by (by eapply wp_not_Ret).
        injection Hstep as <- <-.
        destruct (wp_step _ task _ _ Hwp) as [HR Hcase].
        set (w2 := (step1 p (world (shared σ))).2) in *.
        set (p' := (step1 p (world (shared σ))).1) in *.
        assert (Forall (worker_ok R Φ w2) before) as Hbefore'.
        { eapply Forall_impl; [exact Hbefore|]. intros ws ?. by eapply worker_ok_mono. }
        assert (Forall (worker_ok R Φ w2) after) as Hafter'.
        { eapply Forall_impl; [exact Hafter|]. intros ws ?. by eapply worker_ok_mono. }
        assert (Forall (λ o, Φ o.1 o.2 w2) (outcomes (shared σ))) as Hout'.
        { eapply Forall_impl; [exact Houtcomes|]. intros o Ho. exact (Φ_stable _ _ _ _ Ho HR). }
        assert (WDone ∈ before ++ WBody task p' :: after →
                WDone ∈ before ++ WBody task p :: after) as Hsame
          by (by apply done_elsewhere).
        destruct Hcase as [(Hcount & Hwp' & Hst)|(c & Hcount & Hret & HΦ & Hst)].
        -- rewrite Hcount, app_nil_r.
           split; cbn [unsent workers shared closed tasks outcomes world]; try done.
           ++ by eapply R_trans.
           ++ rewrite !inflight_app, !inflight_cons.
              rewrite (holding_wp _ _ _ _ Hwp').
              by rewrite (holding_wp _ _ _ _ Hwp) in Htasks.
           ++ intros c. by rewrite Hst.
           ++ assert (TotalFiles (stats w2) = TotalFiles (stats (world (shared σ)))) as ->
                by (by rewrite Hst).
              done.
           ++ intros Hin. by apply Hdone, Hsame.
           ++ apply Forall_app. split; [done|]. constructor; [|done]. by right.
        -- rewrite Hcount.
           split; cbn [unsent workers shared closed tasks outcomes world]; try done.
           ++ by eapply R_trans.
           ++ rewrite !inflight_app, !inflight_cons, Hret. cbn [holding].
              rewrite (holding_wp _ _ _ _ Hwp) in Htasks.
              etrans; [exact Htasks|]. rewrite map_app. cbn [map fst].
              apply perm_count.
           ++ intros c'. rewrite Hst, Load_Add1, tally_snoc, Hstats.
              case_decide; [|by rewrite Nat.add_0_r].
              rewrite wrap32_add_l. f_equal. lia.
           ++ by rewrite Hst, TotalFiles_Add1.
           ++ intros Hin. by apply Hdone, Hsame.
           ++ apply Forall_app. split; [done|]. constructor; [|done].
              left. done.
           ++ apply Forall_app. split; [done|]. by constructor.
Qed.

Lemma pool_inv_rtc σ σ' :
  pool_inv R Φ files w0 σ → rtc (pool_step cfg trans) σ σ' → pool_inv R Φ files w0 σ'.
Proof.
  intros Hinv Hsteps. induction Hsteps as [|σ1 σ2 σ3 Hstep _ IH]; [done|].
  apply IH. by eapply pool_inv_step.
Qed.

End Invariant.

(** ** Programs run alone *)

Lemma never_stats_bind {A B} (m : prog A) (f : A → prog B) :
  never_stats m → (∀ a, never_stats (f a)) → never_stats (m ≫= f).
Proof.
  intros Hm Hf.
  induction m as [a|q k IH|q k IH|q k IH|q data k IH|tr content k IH|c k IH];
    cbn [mbind prog_bind bind never_stats] in *; try done;
    try (intros r; by apply IH); by apply IH.
Qed.

Lemma never_stats_trace {A} (m : prog A) w :
  never_stats m →
  ∃ evs, trace (exec m w).2 = trace w ++ evs ∧ Forall (λ e, is_stat e = false) evs.
Proof.
  revert w.
  induction m as [a|q k IH|q k IH|q k IH|q data k IH|tr content k IH|c k IH];
    intros w; cbn [never_stats exec]; intros H; try done.
  - exists []. by rewrite app_nil_r.
  - destruct (IH (os_ReadFile (fs w) q) (mkWorld (fs w) (stats w) (trace w ++ [EvRead q])) (H _))
      as (evs & -> & Hevs).
    exists (EvRead q :: evs). split; [cbn [trace]; by rewrite <-(assoc_L (++))|by constructor].
  - destruct (os_MkdirAll (fs w) q) as [fs' err].
    destruct (IH err (mkWorld fs' (stats w) (trace w ++ [EvMkdirAll q])) (H _))
      as (evs & -> & Hevs).
    exists (EvMkdirAll q :: evs). split; [cbn [trace]; by rewrite <-(assoc_L (++))|by constructor].
  - destruct (os_WriteFile (fs w) q data) as [fs' err].
    destruct (IH err (mkWorld fs' (stats w) (trace w ++ [EvWrite q data])) (H _))
      as (evs & -> & Hevs).
    exists (EvWrite q data :: evs). split; [cbn [trace]; by rewrite <-(assoc_L (++))|by constructor].
  - destruct (IH (Translate tr (calls_made w) content)
                (mkWorld (fs w) (stats w) (trace w ++ [EvTranslate content])) (H _))
      as (evs & -> & Hevs).
    exists (EvTranslate content :: evs).
    split; [cbn [trace]; by rewrite <-(assoc_L (++))|by constructor].
  - destruct (IH (mkWorld (fs w) (Add1 c (stats w)) (trace w ++ [EvAdd c])) H)
      as (evs & -> & Hevs).
    exists (EvAdd c :: evs). split; [cbn [trace]; by rewrite <-(assoc_L (++))|by constructor].
Qed.

Lemma never_stats_write p content : never_stats (WriteFile_write p content).
Proof.
  unfold WriteFile_write. cbn [never_stats]. intros [err|]; [done|].
  cbn [never_stats]. by intros [err|].
Qed.

Lemma never_stats_from_read cfg trans task :
  Overwrite cfg = true ∨ DryRun cfg = true →
  never_stats (process_task_from_read cfg trans task).
Proof.
  intros Hflags. unfold process_task_from_read.
  apply never_stats_bind.
  { unfold ReadFile. cbn [never_stats]. by intros [content|err]. }
  intros [content|err]; [|done].
  destruct (DryRun cfg) eqn:Hd; [done|].
  destruct Hflags as [Ho|]; [|done].
  destruct trans as [tr|]; [|done].
  cbn [never_stats]. intros [raw|err]; [|done].
  destruct (ExtractTranslation raw) as [translated|err]; [|done].
  apply never_stats_bind.
  - unfold WriteFile. rewrite Ho. apply never_stats_write.
  - by intros [err|].
Qed.

(** What [WriteFile_write] does when run alone. *)
Lemma exec_write p content w :
  let dir := filepath_Dir p in
  let mk := os_MkdirAll (fs w) dir in
  let wr := os_WriteFile mk.1 p content in
  exec (WriteFile_write p content) w =
    match mk.2 with
    | Some e =>
        (Some (Errorf "创建目录 %s 失败: %w" [ArgPath dir; ArgError e]),
         mkWorld mk.1 (stats w) (trace w ++ [EvMkdirAll dir]))
    | None =>
        (match wr.2 with
         | Some e => Some (Errorf "写入文件 %s 失败: %w" [ArgPath p; ArgError e])
         | None => None
         end,
         mkWorld wr.1 (stats w) (trace w ++ [EvMkdirAll dir; EvWrite p content]))
    end.
Proof.
  unfold WriteFile_write. cbn [exec].
  destruct (os_MkdirAll (fs w) (filepath_Dir p)) as [fs1 [e|]]; cbn [fst snd exec fs stats trace];
    [done|].
  destruct (os_WriteFile fs1 p content) as [fs2 [e|]]; cbn [fst snd exec];
    by rewrite <-(assoc_L (++)).
Qed.

(** ** Programs that keep their promises *)

Lemma wp_bind {A} R Φ (m : prog A) (f : A → prog unit) w :
  (∀ w, R w w) →
  wpr R (λ a w', wp R Φ (f a) w') m w → wp R Φ (m ≫= f) w.
Proof.
  intros R_refl. revert w.
  induction m as [a|q k IH|q k IH|q k IH|q data k IH|tr content k IH|c k IH];
    intros w; cbn [wpr]; intros H.
  - apply H, R_refl.
  - intros w1 H1. destruct (H w1 H1) as [HR Hk]. split; [exact HR|]. by apply IH.
  - intros w1 H1. destruct (H w1 H1) as [HR Hk]. split; [exact HR|]. by apply IH.
  - intros w1 H1. destruct (H w1 H1) as [HR Hk]. cbn [step1] in *.
    destruct (os_MkdirAll (fs w1) q) as [fs' err]. split; [exact HR|]. by apply IH.
  - intros w1 H1. destruct (H w1 H1) as [HR Hk]. cbn [step1] in *.
    destruct (os_WriteFile (fs w1) q data) as [fs' err]. split; [exact HR|]. by apply IH.
  - intros w1 H1. destruct (H w1 H1) as [HR Hk]. split; [exact HR|]. by apply IH.
  - done.
Qed.

(** *** Every call lets the file system grow *)

Lemma step1_grow {A} (p : prog A) w : R_grow w (step1 p w).2.
Proof.
  unfold R_grow. destruct p; cbn [step1 snd fs]; try apply fs_le_refl.
  - pose proof (os_MkdirAll_le (fs w) p) as H.
    by destruct (os_MkdirAll (fs w) p).
  - pose proof (os_WriteFile_le (fs w) p data) as H.
    by destruct (os_WriteFile (fs w) p data).
Qed.

Lemma R_grow_refl w : R_grow w w.
Proof. apply fs_le_refl. Qed.

Lemma R_grow_trans w1 w2 w3 : R_grow w1 w2 → R_grow w2 w3 → R_grow w1 w3.
Proof. apply fs_le_trans. Qed.

Lemma R_dry_refl w : R_dry w w.
Proof. split; [done|]. exists []. by rewrite app_nil_r. Qed.

Lemma R_dry_trans w1 w2 w3 : R_dry w1 w2 → R_dry w2 w3 → R_dry w1 w3.
Proof.
  intros [Hf (e1 & Ht1 & H1)] [Hf' (e2 & Ht2 & H2)].
  split; [congruence|]. exists (e1 ++ e2).
  split; [by rewrite Ht2, Ht1, (assoc_L (++))|]. by apply Forall_app.
Qed.

(** The write succeeds only with the file in place. *)
Lemma write_grow p content w :
  wpr R_grow (λ (err : option error) w', err = None → exists_at (fs w') p)
    (WriteFile_write p content) w.
Proof.
  unfold WriteFile_write. cbn [wpr]. intros w1 H1. split; [apply step1_grow|].
  destruct (os_MkdirAll (fs w1) (filepath_Dir p)).2 as [err|]; cbn [wpr]; [done|].
  intros w3 H3. split; [apply step1_grow|].
  cbn [step1].
  destruct (os_WriteFile (fs w3) p content) as [fs4 [err|]] eqn:Hw;
    cbn [snd wpr]; [done|].
  intros w5 H5 _. apply os_WriteFile_ok in Hw as [Hst _].
  eapply exists_at_le; [exact H5|]. by eexists.
Qed.

Lemma WriteFile_grow p content overwrite w :
  wpr R_grow (λ err w', err = None → exists_at (fs w') p)
    (WriteFile p content overwrite) w.
Proof.
  unfold WriteFile. destruct overwrite; cbn [negb].
  - apply write_grow.
  - cbn [wpr]. intros w1 H1. split; [apply step1_grow|].
    destruct (os_Stat (fs w1) p) as [n|err] eqn:Hs.
    + cbn [wpr]. intros w3 H3 _.
      eapply exists_at_le; [exact H3|]. cbn [step1 snd fs]. by eexists.
    + destruct (os_IsNotExist err); cbn [negb]; [|done].
      apply write_grow.
Qed.

Lemma wpr_conseq {A} R (Q Q' : A → World → Prop) (m : prog A) w :
  (∀ a w', Q a w' → Q' a w') → wpr R Q m w → wpr R Q' m w.
Proof.
  intros HQ. revert w.
  induction m as [a|q k IH|q k IH|q k IH|q data k IH|tr content k IH|c k IH];
    intros w; cbn [wpr]; intros H; try done.
  - intros w1 H1. by apply HQ, H.
  - intros w1 H1. destruct (H w1 H1) as [HR Hk]. split; [exact HR|]. by apply IH.
  - intros w1 H1. destruct (H w1 H1) as [HR Hk]. split; [exact HR|]. by apply IH.
  - intros w1 H1. destruct (H w1 H1) as [HR Hk]. split; [exact HR|]. by apply IH.
  - intros w1 H1. destruct (H w1 H1) as [HR Hk]. split; [exact HR|]. by apply IH.
  - intros w1 H1. destruct (H w1 H1) as [HR Hk]. split; [exact HR|]. by apply IH.
Qed.

(** A leaf of the loop body: one counter, then [continue]. *)
Lemma wp_Add_grow (Φ : Counter → World → Prop) c w :
  (∀ w1, R_grow w w1 → Φ c (step1 (Add c (Ret tt)) w1).2) →
  wp R_grow Φ (Add c (Ret tt)) w.
Proof.
  intros H. cbn [wp]. split; [done|]. intros w1 H1.
  split; [apply step1_grow|]. by apply H.
Qed.

(** *** What the loop body promises *)

(** Whatever the configuration: a task counted as processed has its
    target file in place. *)
Lemma process_task_grow cfg trans task w :
  wp R_grow
    (λ c w', c = CProcessed → exists_at (fs w') (target_of cfg (RelativePath task)))
    (process_task cfg trans task) w.
Proof.
  set (Φ := λ c w', c = CProcessed → exists_at (fs w') (target_of cfg (RelativePath task))).
  assert (∀ c w, c ≠ CProcessed → wp R_grow Φ (Add c (Ret tt)) w) as Hleaf.
  { intros c w' Hc. apply wp_Add_grow. intros w1 _ ?. done. }
  assert (∀ w, wp R_grow Φ (process_task_from_read cfg trans task) w) as Hread.
  { intros w'. unfold process_task_from_read. apply wp_bind; [apply R_grow_refl|].
    unfold ReadFile. cbn [wpr]. intros w1 H1. split; [apply step1_grow|].
    destruct (os_ReadFile (fs w1) _) as [content|err]; cbn [wpr]; intros w2 H2.
    2: { by apply Hleaf. }
    destruct (DryRun cfg); [by apply Hleaf|].
    destruct trans as [tr|]; [|by apply Hleaf].
    cbn [wp]. intros w3 H3. split; [apply step1_grow|].
    destruct (Translate tr (calls_made w3) content) as [raw|err]; [|by apply Hleaf].
    destruct (ExtractTranslation raw) as [translated|err]; [|by apply Hleaf].
    apply wp_bind; [apply R_grow_refl|].
    eapply wpr_conseq; [|apply WriteFile_grow].
    intros [err|] w5 H5; cbn beta iota; [by apply Hleaf|].
    apply wp_Add_grow. intros w6 H6 _.
    eapply exists_at_le; [exact H6|]. by apply H5. }
  unfold process_task.
  destruct (negb (Overwrite cfg) && negb (DryRun cfg)); [|apply Hread].
  cbn [wp]. intros w1 H1. split; [apply step1_grow|].
  destruct (os_Stat (fs w1) _) as [n|err]; [by apply Hleaf|].
  destruct (negb (os_IsNotExist err)); [by apply Hleaf|apply Hread].
Qed.

(** With the target in place and neither overwrite nor dry run, the
    task is skipped. *)
Lemma process_task_rerun cfg trans task w :
  Overwrite cfg = false → DryRun cfg = false →
  exists_at (fs w) (target_of cfg (RelativePath task)) →
  wp R_grow (λ c _, c = CSkipped) (process_task cfg trans task) w.
Proof.
  intros Ho Hd Hex. unfold process_task. rewrite Ho, Hd. cbn [negb andb wp].
  intros w1 H1. split; [apply step1_grow|].
  destruct (exists_at_le _ _ _ H1 Hex) as [n Hn].
  unfold target_of in Hn. rewrite Hn.
  by apply wp_Add_grow.
Qed.

(** In a dry run the source is read and nothing else happens. *)
Lemma process_task_dry cfg trans task fs0 w :
  DryRun cfg = true → fs w = fs0 →
  wp R_dry (λ c _, c = dry_outcome cfg fs0 task) (process_task cfg trans task) w.
Proof.
  intros Hd Hfs. unfold process_task, process_task_from_read.
  rewrite Hd, andb_false_r. unfold ReadFile. cbn [mbind prog_bind bind wp].
  intros w1 [Hfs1 _]. split.
  { split; [done|]. exists [EvRead (filepath_Join (SourceDir cfg) (RelativePath task))].
    split; [done|]. by repeat constructor. }
  unfold dry_outcome, can_read, source_of. rewrite <-Hfs, <-Hfs1.
  destruct (os_ReadFile (fs w1) _) as [content|err]; cbn [bind wp].
  - split; [done|]. intros w2 H2. split; [|done].
    split; [done|]. exists [EvAdd CDryRunHits]. split; [done|]. by repeat constructor.
  - split; [done|]. intros w2 H2. split; [|done].
    split; [done|]. exists [EvAdd CFailed]. split; [done|]. by repeat constructor.
Qed.

(** ** Runs of the pool *)

Lemma pool_step_workers cfg trans σ σ' :
  pool_step cfg trans σ σ' → length (workers σ') = length (workers σ).
Proof.
  intros [σ1 σ2 Hmain|σ1 before ws after ws' sh' Hws Hstep].
  - unfold main_step in Hmain. destruct (unsent σ1); [|by injection Hmain as <-].
    destruct (closed (shared σ1)); [done|]. by injection Hmain as <-.
  - rewrite Hws. cbn. by rewrite !length_app.
Qed.

Lemma pool_rtc_workers cfg trans σ σ' :
  rtc (pool_step cfg trans) σ σ' → length (workers σ') = length (workers σ).
Proof.
  induction 1 as [|σ1 σ2 σ3 Hstep _ IH]; [done|].
  rewrite IH. by eapply pool_step_workers.
Qed.

(** Without workers nothing is counted. *)
Lemma pool_rtc_idle cfg trans σ σ' :
  rtc (pool_step cfg trans) σ σ' → workers σ = [] →
  outcomes (shared σ') = outcomes (shared σ).
Proof.
  induction 1 as [|σ1 σ2 σ3 Hstep _ IH]; [done|]. intros Hw.
  destruct Hstep as [σ1 σ2 Hmain|σ1 before ws after ws' sh' Hws Hstep].
  - unfold main_step in Hmain. destruct (unsent σ1).
    + destruct (closed (shared σ1)); [done|]. injection Hmain as <-. by apply IH.
    + injection Hmain as <-. by apply IH.
  - rewrite Hw in Hws. by destruct before.
Qed.

Lemma start_workers cfg files fs0 :
  0 < Concurrency cfg → workers (ProcessFiles_start cfg files fs0) ≠ [].
Proof.
  intros H. cbn. destruct (Z.to_nat (Concurrency cfg)) eqn:E; [lia|done].
Qed.

Lemma run_workers cfg files trans fs0 σ :
  0 < Concurrency cfg →
  rtc (pool_step cfg trans) (ProcessFiles_start cfg files fs0) σ → workers σ ≠ [].
Proof.
  intros H Hrtc%pool_rtc_workers Hnil.
  apply (start_workers cfg files fs0 H).
  apply length_zero_iff_nil. rewrite <-Hrtc, Hnil. done.
Qed.

(** When the run has returned and there was a worker, every task has
    been counted. *)
Lemma returned_all_counted R Φ files w0 σ :
  pool_inv R Φ files w0 σ → returned σ → workers σ ≠ [] →
  map mkTask files ≡ₚ map fst (outcomes (shared σ)).
Proof.
  intros Hinv (Hunsent & Hclosed & Hall) Hne.
  assert (WDone ∈ workers σ) as Hin.
  { destruct (workers σ) as [|ws wss]; [done|].
    apply Forall_cons in Hall as [-> _]. by left. }
  destruct (inv_done _ _ _ _ _ Hinv Hin) as [_ Hq].
  pose proof (inv_tasks _ _ _ _ _ Hinv) as Hperm.
  by rewrite Hunsent, Hq, (inflight_done _ Hall) in Hperm.
Qed.

Lemma run_grow cfg files trans fs0 σ :
  rtc (pool_step cfg trans) (ProcessFiles_start cfg files fs0) σ →
  pool_inv R_grow
    (λ task c w, c = CProcessed → exists_at (fs w) (target_of cfg (RelativePath task)))
    files (world (shared (ProcessFiles_start cfg files fs0))) σ.
Proof.
  intros Hrtc. eapply pool_inv_rtc; [..|exact Hrtc].
  - apply R_grow_refl.
  - apply R_grow_trans.
  - intros task c w w' H HR Hc. eapply exists_at_le; [exact HR|]. by apply H.
  - intros f w _ _. apply process_task_grow.
  - apply pool_inv_start; [apply R_grow_refl|done].
Qed.

Lemma run_dry cfg files trans fs0 σ :
  DryRun cfg = true →
  rtc (pool_step cfg trans) (ProcessFiles_start cfg files fs0) σ →
  pool_inv R_dry (λ task c _, c = dry_outcome cfg fs0 task)
    files (world (shared (ProcessFiles_start cfg files fs0))) σ.
Proof.
  intros Hd Hrtc. eapply pool_inv_rtc; [..|exact Hrtc].
  - apply R_dry_refl.
  - apply R_dry_trans.
  - done.
  - intros f w _ [Hfs _]. by apply process_task_dry.
  - apply pool_inv_start; [apply R_dry_refl|done].
Qed.

Lemma run_rerun cfg files trans fs1 σ :
  Overwrite cfg = false → DryRun cfg = false →
  (∀ f, f ∈ files → exists_at fs1 (target_of cfg f)) →
  rtc (pool_step cfg trans) (ProcessFiles_start cfg files fs1) σ →
  pool_inv R_grow (λ _ c _, c = CSkipped)
    files (world (shared (ProcessFiles_start cfg files fs1))) σ.
Proof.
  intros Ho Hd Hex Hrtc. eapply pool_inv_rtc; [..|exact Hrtc].
  - apply R_grow_refl.
  - apply R_grow_trans.
  - done.
  - intros f w Hf HR. apply process_task_rerun; [done..|].
    eapply exists_at_le; [exact HR|]. by apply Hex.
  - apply pool_inv_start; [apply R_grow_refl|done].
Qed.

(** *** Sums of wrapped counters *)

Lemma wrap32_sum4 a b c d :
  wrap32 (wrap32 a + wrap32 b + wrap32 c + wrap32 d) = wrap32 (a + b + c + d).
Proof.
  rewrite wrap32_add_r.
  replace (wrap32 a + wrap32 b + wrap32 c + d)
    with (wrap32 c + (wrap32 a + wrap32 b + d)) by lia.
  rewrite wrap32_add_l.
  replace (c + (wrap32 a + wrap32 b + d))
    with (wrap32 b + (wrap32 a + c + d)) by lia.
  rewrite wrap32_add_l.
  replace (b + (wrap32 a + c + d)) with (wrap32 a + (b + c + d)) by lia.
  rewrite wrap32_add_l. f_equal. lia.
Qed.

Lemma tally_le c os : (tally c os ≤ length os)%nat.
Proof. apply length_filter. Qed.

Lemma tally_by (g : TranslationTask → Counter) c os :
  Forall (λ o, o.2 = g o.1) os →
  tally c os = length (filter (λ task, g task = c) (map fst os)).
Proof.
  induction 1 as [|[task c'] os Hc _ IH]; [done|].
  unfold tally in *. cbn [map fst snd] in *. rewrite !filter_cons. cbn [snd].
  subst c'. case_decide; cbn [length]; by rewrite IH.
Qed.

Lemma filter_tasks (P : TranslationTask → Prop) `{∀ t, Decision (P t)} files :
  length (filter P (map mkTask files)) = length (filter (λ f, P (mkTask f)) files).
Proof.
  induction files as [|f files IH]; [done|].
  cbn [map]. rewrite !filter_cons. case_decide; cbn [length]; by rewrite IH.
Qed.

(** ** Schedules are runs *)

Lemma sched_step_rtc cfg trans who σ :
  rtc (pool_step cfg trans) σ (sched_step cfg trans who σ).
Proof.
  destruct who as [i|]; cbn [sched_step].
  - destruct (workers σ !! i) as [ws|] eqn:Hi; [|done].
    destruct (worker_step cfg trans ws (shared σ)) as [[ws' sh']|] eqn:Hs; [|done].
    apply rtc_once.
    rewrite insert_take_drop by (by eapply lookup_lt_Some).
    eapply step_worker; [|exact Hs].
    by rewrite take_drop_middle.
  - destruct (main_step σ) as [σ'|] eqn:Hm; [|done].
    apply rtc_once. by constructor.
Qed.

Lemma run_schedule_rtc cfg trans schedule σ :
  rtc (pool_step cfg trans) σ (run_schedule cfg trans schedule σ).
Proof.
  unfold run_schedule. revert σ.
  induction schedule as [|who schedule IH]; intros σ; [done|].
  cbn [foldl]. etrans; [apply sched_step_rtc|apply IH].
Qed.

(** ** [ProcessFiles] can always return

    Main sends and closes; the first worker takes the tasks one by one
    and runs each loop body to its end (a program is a well-founded
    tree of calls); then every worker finds the channel closed. *)

Lemma body_completes cfg trans todo before task after p : ∀ sh,
  ∃ sh',
    rtc (pool_step cfg trans)
      (mkPool todo (before ++ WBody task p :: after) sh)
      (mkPool todo (before ++ WRange :: after) sh') ∧
    closed sh' = closed sh ∧ tasks sh' = tasks sh.
Proof.
  assert (∀ p sh, (∀ u, p ≠ Ret u) →
    pool_step cfg trans
      (mkPool todo (before ++ WBody task p :: after) sh)
      (mkPool todo (before ++ WBody task (step1 p (world sh)).1 :: after)
         (mkShared (closed sh) (tasks sh) (outcomes sh ++ counted task p)
            (step1 p (world sh)).2))) as Hcall.
  { intros p' sh Hp.
    apply (step_worker cfg trans
             (mkPool todo (before ++ WBody task p' :: after) sh)
             before (WBody task p') after); [done|].
    by apply worker_step_body. }
  assert (∀ (q : prog unit) sh1,
            (∃ sh',
               rtc (pool_step cfg trans)
                 (mkPool todo (before ++ WBody task q :: after) sh1)
                 (mkPool todo (before ++ WRange :: after) sh') ∧
               closed sh' = closed sh1 ∧ tasks sh' = tasks sh1) →
            ∀ p' sh, (∀ u, p' ≠ Ret u) →
              (step1 p' (world sh)).1 = q →
              sh1 = mkShared (closed sh) (tasks sh) (outcomes sh ++ counted task p')
                      (step1 p' (world sh)).2 →
              ∃ sh',
                rtc (pool_step cfg trans)
                  (mkPool todo (before ++ WBody task p' :: after) sh)
                  (mkPool todo (before ++ WRange :: after) sh') ∧
                closed sh' = closed sh ∧ tasks sh' = tasks sh) as Hnext.
  { intros q sh1 (sh' & Hrtc & Hc & Hq) p' sh Hp Hq' ->. exists sh'.
    split; [|done]. eapply rtc_l; [by apply Hcall|]. by rewrite Hq'. }
  induction p as [u|q k IH|q k IH|q k IH|q data k IH|tr content k IH|c k IH];
    intros sh.
  - exists sh. split; [|done]. apply rtc_once.
    by apply (step_worker cfg trans
                (mkPool todo (before ++ WBody task (Ret u) :: after) sh)
                before (WBody task (Ret u)) after).
  - eapply Hnext; [apply IH|done|done|done].
  - eapply Hnext; [apply IH|done|done|done].
  - eapply (Hnext (k (os_MkdirAll (fs (world sh)) q).2)); [apply IH|done| |done].
    cbn [step1]. by destruct (os_MkdirAll (fs (world sh)) q).
  - eapply (Hnext (k (os_WriteFile (fs (world sh)) q data).2)); [apply IH|done| |done].
    cbn [step1]. by destruct (os_WriteFile (fs (world sh)) q data).
  - eapply Hnext; [apply IH|done|done|done].
  - eapply Hnext; [apply IH|done|done|done].
Qed.

Lemma queue_drains cfg trans todo before after queue : ∀ sh,
  tasks sh = queue →
  ∃ sh',
    rtc (pool_step cfg trans)
      (mkPool todo (before ++ WRange :: after) sh)
      (mkPool todo (before ++ WRange :: after) sh') ∧
    closed sh' = closed sh ∧ tasks sh' = [].
Proof.
  induction queue as [|task queue IH]; intros sh Hq.
  - by exists sh.
  - destruct (body_completes cfg trans todo before task after
                (process_task cfg trans task)
                (mkShared (closed sh) queue (outcomes sh) (world sh)))
      as (sh1 & Hrtc1 & Hc1 & Hq1).
    cbn [closed tasks] in Hc1, Hq1.
    destruct (IH sh1 Hq1) as (sh2 & Hrtc2 & Hc2 & Hq2).
    exists sh2. split; [|split; [congruence|done]].
    eapply rtc_l; [|etrans; [exact Hrtc1|exact Hrtc2]].
    apply (step_worker cfg trans (mkPool todo (before ++ WRange :: after) sh)
             before WRange after); [done|].
    cbn [worker_step shared]. by rewrite Hq.
Qed.

Lemma main_sends_all cfg trans wss todo : ∀ sh,
  closed sh = false →
  ∃ sh',
    rtc (pool_step cfg trans) (mkPool todo wss sh) (mkPool [] wss sh') ∧
    closed sh' = true.
Proof.
  induction todo as [|f todo IH]; intros sh Hc.
  - exists (mkShared true (tasks sh) (outcomes sh) (world sh)).
    split; [|done]. apply rtc_once. constructor.
    unfold main_step. cbn [unsent shared workers]. by rewrite Hc.
  - destruct (IH (mkShared (closed sh) (tasks sh ++ [mkTask f]) (outcomes sh) (world sh)) Hc)
      as (sh' & Hrtc & Hc').
    exists sh'. split; [|done]. eapply rtc_l; [|exact Hrtc].
    by constructor.
Qed.

Lemma workers_exit cfg trans sh n : ∀ finished,
  closed sh = true → tasks sh = [] →
  rtc (pool_step cfg trans)
    (mkPool [] (finished ++ replicate n WRange) sh)
    (mkPool [] (finished ++ replicate n WDone) sh).
Proof.
  intros finished Hc Hq. revert finished.
  induction n as [|n IH]; intros finished; [done|].
  cbn [replicate]. eapply rtc_l.
  - apply (step_worker cfg trans (mkPool [] (finished ++ WRange :: replicate n WRange) sh)
             finished WRange (replicate n WRange)); [done|].
    cbn [worker_step shared]. by rewrite Hq, Hc.
  - cbn [unsent]. rewrite !(cons_middle _ finished), !(assoc_L (++)). apply IH.
Qed.

(** Whatever the configuration, the files, the backend and the file
    system: some run of [ProcessFiles] returns. *)
Lemma ProcessFiles_can_return cfg files trans fs0 :
  ∃ σ, ProcessFiles cfg files trans fs0 σ.
Proof.
  unfold ProcessFiles, ProcessFiles_start.
  set (sh0 := mkShared false [] [] _).
  set (n := Z.to_nat (Concurrency cfg)).
  destruct (main_sends_all cfg trans (replicate n WRange) files sh0 eq_refl)
    as (sh1 & Hrtc1 & Hc1).
  destruct n as [|n].
  - exists (mkPool [] [] sh1). split; [exact Hrtc1|]. by repeat split.
  - destruct (queue_drains cfg trans [] [] (replicate n WRange) (tasks sh1) sh1 eq_refl)
      as (sh2 & Hrtc2 & Hc2 & Hq2).
    exists (mkPool [] (replicate (S n) WDone) sh2). split.
    + etrans; [exact Hrtc1|]. etrans; [exact Hrtc2|].
      apply (workers_exit cfg trans sh2 (S n) []); congruence.
    + split; [done|]. split; [cbn; congruence|]. by apply Forall_replicate.
Qed.

(** ** Discovery *)

Lemma entry_ind' (P : entry → Prop) :
  (∀ name, P (EFile name)) →
  (∀ name readErr entries, Forall P entries → P (EDir name readErr entries)) →
  ∀ e, P e.
Proof.
  intros Hfile Hdir. fix IH 1. intros [name|name readErr entries].
  - apply Hfile.
  - apply Hdir. induction entries as [|d1 entries IHentries]; constructor.
    + apply IH.
    + apply IHentries.
Qed.

Lemma relative_to_below base rel : relative_to base (base ++ rel) = rel.
Proof.
  induction base as [|b base IH]; cbn [relative_to app].
  - by destruct rel.
  - by rewrite bool_decide_true.
Qed.

Lemma filepath_Rel_below base rel : filepath_Rel base (base ++ rel) = Ok rel.
Proof. unfold filepath_Rel. by rewrite relative_to_below. Qed.

Lemma below_root (sourceDir rel : path) : rel ≠ [] → sourceDir ++ rel ≠ sourceDir.
Proof.
  intros Hrel E. apply Hrel.
  rewrite <-(app_nil_r sourceDir) in E at 2. by apply app_inv_head in E.
Qed.

(** The walk from an entry on: it never stops early, and it appends the
    markdown files below the entry. *)
Lemma walkDir_visit sourceDir e : ∀ rel files,
  rel ≠ [] ∨ root_denied e = false →
  walkDir (visit sourceDir) (sourceDir ++ rel) e files
  = (files ++ markdown_below rel e, Continue).
Proof.
  induction e as [name|name readErr entries IH] using entry_ind';
    intros rel files Hrel.
  - cbn [walkDir visit markdown_below dIsDir Name negb andb].
    unfold is_markdown. destruct (HasSuffix (ToLower name) ".md").
    + by rewrite filepath_Rel_below.
    + by rewrite app_nil_r.
  - cbn [walkDir].
    change (visit sourceDir (sourceDir ++ rel) (Visit (mkDirEntry name true)) files)
      with (files, Continue).
    cbv beta iota.
    assert ((match readErr with
             | None => (files, Continue)
             | Some e =>
                 visit sourceDir (sourceDir ++ rel)
                   (VisitErr (Some (mkDirEntry name true))
                      (PathError "open" (sourceDir ++ rel) e)) files
             end)
            = (files, match readErr with None => Continue | Some _ => SkipDir end))
      as ->.
    { destruct readErr as [err|]; [|done]. cbn [visit os_IsPermission dIsDir].
      destruct Hrel as [Hrel|Hroot].
      - by rewrite bool_decide_false by (by apply below_root).
      - cbn in Hroot. unfold permission in Hroot. by rewrite Hroot, andb_false_r. }
    destruct readErr as [err|]; cbn [markdown_below].
    { by rewrite app_nil_r. }
    clear Hrel. revert files.
    induction IH as [|d1 entries Hd1 _ IHentries]; intros files.
    + cbn. by rewrite app_nil_r.
    + unfold filepath_Join at 1. rewrite <-(assoc_L (++)).
      rewrite Hd1 by (left; by destruct rel).
      rewrite IHentries. cbn [map mjoin list_join].
      by rewrite (assoc_L (++)).
Qed.

(** Membership in [markdown_below], without the recursion. *)
Lemma markdown_below_file_at e : ∀ rel p,
  p ∈ markdown_below rel e ↔
  ∃ r name, p = rel ++ r ∧ file_at e r name ∧ is_markdown name = true.
Proof.
  induction e as [name|name readErr entries IH] using entry_ind'; intros rel p.
  - cbn [markdown_below]. split.
    + destruct (is_markdown name) eqn:E; [|by intros ?%elem_of_nil].
      intros ->%list_elem_of_singleton. exists [], name.
      rewrite app_nil_r. repeat split; [constructor|done].
    + intros (r & name' & -> & Hat & Hmd). inversion Hat; subst.
      rewrite Hmd, app_nil_r. by apply list_elem_of_singleton.
  - destruct readErr as [err|]; cbn [markdown_below].
    { split; [by intros ?%elem_of_nil|].
      intros (r & name' & _ & Hat & _). inversion Hat. }
    rewrite list_elem_of_join. split.
    + intros (l & Hp & Hl). apply list_elem_of_fmap in Hl as (d1 & -> & Hd1).
      rewrite Forall_forall in IH.
      apply (IH d1 Hd1) in Hp as (r & name' & -> & Hat & Hmd).
      exists (entry_name d1 :: r), name'. rewrite <-(assoc_L (++)).
      split; [done|]. split; [by constructor|done].
    + intros (r & name' & -> & Hat & Hmd). inversion Hat as [|? ? d1 r' ? Hd1 Hat']; subst.
      exists (markdown_below (rel ++ [entry_name d1]) d1). split.
      * rewrite Forall_forall in IH. apply (IH d1 Hd1).
        exists r', name'. by rewrite <-(assoc_L (++)).
      * apply list_elem_of_fmap. by exists d1.
Qed.

(** *** The suffix test *)

Lemma ToLower_append a b : ToLower (a +:+ b) = ToLower a +:+ ToLower b.
Proof. induction a as [|c a IH]; cbn; [done|]. by rewrite IH. Qed.

Lemma ToLower_srev s : ToLower (srev s) = srev (ToLower s).
Proof.
  induction s as [|c s IH]; cbn; [done|]. by rewrite ToLower_append, IH.
Qed.

Lemma lower_byte_m c : lower_byte c = "m"%char ↔ c = "m"%char ∨ c = "M"%char.
Proof.
  destruct c as [[] [] [] [] [] [] [] []]; vm_compute;
    (split;
     [intros H; solve [discriminate H | auto]
     |intros [H|H]; solve [discriminate H | reflexivity]]).
Qed.

Lemma lower_byte_d c : lower_byte c = "d"%char ↔ c = "d"%char ∨ c = "D"%char.
Proof.
  destruct c as [[] [] [] [] [] [] [] []]; vm_compute;
    (split;
     [intros H; solve [discriminate H | auto]
     |intros [H|H]; solve [discriminate H | reflexivity]]).
Qed.

Lemma lower_byte_dot c : lower_byte c = "."%char ↔ c = "."%char.
Proof.
  destruct c as [[] [] [] [] [] [] [] []]; vm_compute;
    (split; intros H; solve [discriminate H | reflexivity]).
Qed.

(** A name is taken when it ends in a dot, an [m] and a [d], of either case. *)
Lemma is_markdown_spec name : is_markdown name = true ↔ ends_in_md name.
Proof.
  unfold is_markdown, ends_in_md, HasSuffix, HasPrefix.
  rewrite <-ToLower_srev.
  change (srev ".md") with "dm.".
  split.
  - destruct (strip_prefix "dm." (ToLower (srev name))) as [r|] eqn:E; [|done].
    intros _. apply strip_prefix_Some in E.
    destruct (srev name) as [|c2 [|c1 [|c0 rest]]] eqn:En;
      cbn [ToLower] in E; try discriminate E.
    injection E as H2 H1 H0 _.
    apply lower_byte_dot in H0 as ->.
    exists (srev rest), c1, c2.
    split; [|split; [by apply lower_byte_m|by apply lower_byte_d]].
    rewrite <-(srev_involutive name), En. cbn [srev].
    by rewrite !append_assoc.
  - intros (stem & m & d & -> & Hm & Hd).
    rewrite srev_append. cbn.
    apply lower_byte_m in Hm as ->. apply lower_byte_d in Hd as ->. done.
Qed.

(** * The pipeline's properties *)

Lemma run_counters cfg files trans fs0 σ :
  ProcessFiles cfg files trans fs0 σ →
  ∀ c, Load c (final_stats σ) = wrap32 (Z.of_nat (tally c (outcomes (shared σ)))).
Proof.
  intros [Hrtc _]. exact (inv_stats _ _ _ _ _ (run_grow _ _ _ _ _ Hrtc)).
Qed.

Lemma run_total cfg files trans fs0 σ :
  ProcessFiles cfg files trans fs0 σ →
  TotalFiles (final_stats σ) = wrap32 (Z.of_nat (length files)).
Proof.
  intros [Hrtc _]. exact (inv_total _ _ _ _ _ (run_grow _ _ _ _ _ Hrtc)).
Qed.

Lemma run_outcomes cfg files trans fs0 σ :
  0 < Concurrency cfg → ProcessFiles cfg files trans fs0 σ →
  map fst (outcomes (shared σ)) ≡ₚ map mkTask files.
Proof.
  intros Hc [Hrtc Hret]. symmetry.
  eapply returned_all_counted;
    [exact (run_grow _ _ _ _ _ Hrtc)|done|by eapply run_workers].
Qed.

(** C1.  When [ProcessFiles] returns (with at least one worker, as the
    configuration guarantees), every task has been counted exactly
    once: the history of counted tasks is a permutation of the
    discovered files, each counter holds the number of tasks that went
    to it, and so [Processed + Skipped + Failed + DryRunHits ==
    TotalFiles], both in [int32] arithmetic and, for fewer than 2^31
    files, as plain integers. *)
Theorem ProcessFiles_counts_every_task_once cfg files trans fs0 σ :
  0 < Concurrency cfg →
  ProcessFiles cfg files trans fs0 σ →
  let st := final_stats σ in
  map fst (outcomes (shared σ)) ≡ₚ map mkTask files ∧
  (∀ c, Load c st = wrap32 (Z.of_nat (tally c (outcomes (shared σ))))) ∧
  wrap32 (Processed st + Skipped st + Failed st + DryRunHits st) = TotalFiles st ∧
  (Z.of_nat (length files) < 2^31 →
   Processed st + Skipped st + Failed st + DryRunHits st = TotalFiles st).
Proof.
  intros Hc Hrun st.
  pose proof (run_outcomes _ _ _ _ _ Hc Hrun) as Hperm.
  pose proof (run_counters _ _ _ _ _ Hrun) as Hload.
  pose proof (run_total _ _ _ _ _ Hrun) as Htotal.
  assert (length (outcomes (shared σ)) = length files) as Hlen.
  { apply Permutation_length in Hperm. by rewrite !length_map in Hperm. }
  pose proof (tally_total (outcomes (shared σ))) as Hsum.
  pose proof (Hload CProcessed) as HP. pose proof (Hload CSkipped) as HS.
  pose proof (Hload CFailed) as HF. pose proof (Hload CDryRunHits) as HD.
  cbn [Load] in HP, HS, HF, HD. fold st in HP, HS, HF, HD, Htotal.
  split; [done|]. split; [done|].
  rewrite HP, HS, HF, HD, Htotal. split.
  - rewrite wrap32_sum4. f_equal. lia.
  - intros Hn.
    pose proof (tally_le CProcessed (outcomes (shared σ))).
    pose proof (tally_le CSkipped (outcomes (shared σ))).
    pose proof (tally_le CFailed (outcomes (shared σ))).
    pose proof (tally_le CDryRunHits (outcomes (shared σ))).
    rewrite !wrap32_small by lia. lia.
Qed.

(** C7.  After a completed run the exit status is non-zero exactly when
    the [Failed] counter is positive; a dry run without failures exits
    with status zero. *)
Theorem exit_status_reports_failures cfg files trans fs0 σ :
  ProcessFiles cfg files trans fs0 σ →
  (main_exit_status (final_stats σ) ≠ 0 ↔ 0 < Failed (final_stats σ)) ∧
  (DryRun cfg = true → Failed (final_stats σ) = 0 →
   main_exit_status (final_stats σ) = 0).
Proof.
  intros _. unfold main_exit_status. split.
  - destruct (Z.ltb_spec 0 (Failed (final_stats σ))); split; (done || lia).
  - by intros _ ->.
Qed.

Lemma dry_outcome_cases cfg fs0 task :
  dry_outcome cfg fs0 task = CDryRunHits ∨ dry_outcome cfg fs0 task = CFailed.
Proof. unfold dry_outcome. destruct (can_read _ _); auto. Qed.

Lemma dry_outcome_hits cfg fs0 f :
  dry_outcome cfg fs0 (mkTask f) = CDryRunHits ↔ can_read fs0 (source_of cfg f) = true.
Proof. unfold dry_outcome. cbn. by destruct (can_read _ _). Qed.

Lemma dry_outcome_failed cfg fs0 f :
  dry_outcome cfg fs0 (mkTask f) = CFailed ↔ can_read fs0 (source_of cfg f) ≠ true.
Proof. unfold dry_outcome. cbn. by destruct (can_read _ _). Qed.

Lemma readable_split cfg fs0 files :
  (length (readable_files cfg fs0 files) + length (unreadable_files cfg fs0 files)
   = length files)%nat.
Proof.
  unfold readable_files, unreadable_files.
  rewrite <-length_app. apply Permutation_length, filter_app_complement.
Qed.

(** C3, as the code has it.  In a dry run the backend is never called
    and the file system stays as it was: the only calls made are reads
    of source files and counter increments.  A task whose source can be
    read is counted in [DryRunHits]; a task whose source cannot be read
    is counted in [Failed]; nothing is counted in [Processed] or
    [Skipped].  So [DryRunHits == TotalFiles - Failed]. *)
Theorem dry_run_reads_and_counts cfg files trans fs0 σ :
  DryRun cfg = true →
  0 < Concurrency cfg →
  ProcessFiles cfg files trans fs0 σ →
  let st := final_stats σ in
  final_fs σ = fs0 ∧
  Forall (λ e, harmless e = true) (final_trace σ) ∧
  Processed st = 0 ∧ Skipped st = 0 ∧
  DryRunHits st = wrap32 (Z.of_nat (length (readable_files cfg fs0 files))) ∧
  Failed st = wrap32 (Z.of_nat (length (unreadable_files cfg fs0 files))) ∧
  (Z.of_nat (length files) < 2^31 → DryRunHits st = TotalFiles st - Failed st).
Proof.
  intros Hd Hc Hrun st. pose proof Hrun as [Hrtc Hret].
  pose proof (run_dry _ _ _ _ _ Hd Hrtc) as Hinv.
  destruct (inv_rely _ _ _ _ _ Hinv) as [Hfs (evs & Htr & Hevs)].
  pose proof (inv_outcomes _ _ _ _ _ Hinv) as Hout. cbn beta in Hout.
  pose proof (run_outcomes _ _ _ _ _ Hc Hrun) as Hperm.
  pose proof (run_counters _ _ _ _ _ Hrun) as Hload.
  pose proof (Hload CProcessed) as HP0. pose proof (Hload CSkipped) as HS0.
  pose proof (Hload CFailed) as HF0. pose proof (Hload CDryRunHits) as HD0.
  cbn [Load] in HP0, HS0, HF0, HD0.
  assert (∀ c, c ≠ CDryRunHits → c ≠ CFailed →
               tally c (outcomes (shared σ)) = 0%nat) as Hnone.
  { intros c H1 H2. apply tally_none.
    eapply Forall_impl; [exact Hout|]. intros o ->.
    destruct (dry_outcome_cases cfg fs0 o.1) as [->| ->]; done. }
  assert (∀ c, tally c (outcomes (shared σ))
               = length (filter (λ f, dry_outcome cfg fs0 (mkTask f) = c) files)) as Hby.
  { intros c. rewrite (tally_by (dry_outcome cfg fs0)) by done.
    rewrite Hperm. apply filter_tasks. }
  assert (DryRunHits st = wrap32 (Z.of_nat (length (readable_files cfg fs0 files)))) as HD.
  { unfold st. rewrite HD0, Hby. unfold readable_files.
    do 3 f_equal. apply list_filter_iff. intros f. apply dry_outcome_hits. }
  assert (Failed st = wrap32 (Z.of_nat (length (unreadable_files cfg fs0 files)))) as HF.
  { unfold st. rewrite HF0, Hby. unfold unreadable_files.
    do 3 f_equal. apply list_filter_iff. intros f. apply dry_outcome_failed. }
  split; [exact Hfs|]. split; [unfold final_trace; by rewrite Htr|].
  split; [unfold st; by rewrite HP0, Hnone|].
  split; [unfold st; by rewrite HS0, Hnone|].
  split; [exact HD|]. split; [exact HF|].
  intros Hn. rewrite HD, HF. unfold st. rewrite (run_total _ _ _ _ _ Hrun).
  pose proof (readable_split cfg fs0 files).
  rewrite !wrap32_small by lia. lia.
Qed.

(** C8.  Idempotence of re-runs without overwrite: when every task of a
    first run was counted as processed, a second run with the same
    configuration over the file system the first one left skips every
    task. *)
Theorem rerun_skips_everything cfg files trans1 trans2 fs0 σ1 σ2 :
  Overwrite cfg = false →
  Z.of_nat (length files) < 2^31 →
  ProcessFiles cfg files trans1 fs0 σ1 →
  Processed (final_stats σ1) = TotalFiles (final_stats σ1) →
  ProcessFiles cfg files trans2 (final_fs σ1) σ2 →
  Skipped (final_stats σ2) = TotalFiles (final_stats σ2) ∧
  Processed (final_stats σ2) = 0.
Proof.
  intros Ho Hn Hrun1 Hall Hrun2.
  pose proof Hrun1 as [Hrtc1 Hret1]. pose proof Hrun2 as [Hrtc2 Hret2].
  pose proof (run_grow _ _ _ _ _ Hrtc1) as Hinv1.
  pose proof (inv_tasks _ _ _ _ _ Hinv1) as Hperm1.
  (* the first run counted every task, and as processed *)
  rewrite (run_counters _ _ _ _ _ Hrun1 CProcessed : Processed _ = _) in Hall.
  rewrite (run_total _ _ _ _ _ Hrun1) in Hall.
  assert (length files
          = (length (unsent σ1) + length (tasks (shared σ1))
             + length (inflight (workers σ1)) + length (outcomes (shared σ1)))%nat)
    as Hlen.
  { apply Permutation_length in Hperm1.
    rewrite !length_app, !length_map in Hperm1. lia. }
  pose proof (tally_le CProcessed (outcomes (shared σ1))) as Hle.
  rewrite !wrap32_small in Hall by lia.
  assert (tally CProcessed (outcomes (shared σ1)) = length (outcomes (shared σ1)))
    as Hfull by lia.
  assert (length (outcomes (shared σ1)) = length files) as Hlen1 by lia.
  apply tally_full in Hfull.
  destruct files as [|f0 files'] eqn:Hfiles.
  { (* no files: nothing to count in the second run *)
    pose proof (run_grow _ _ _ _ _ Hrtc2) as Hinv2.
    pose proof (inv_tasks _ _ _ _ _ Hinv2) as Hperm2.
    symmetry in Hperm2. apply Permutation_nil_r in Hperm2.
    apply app_eq_nil in Hperm2 as [_ Hperm2].
    apply app_eq_nil in Hperm2 as [_ Hperm2].
    apply app_eq_nil in Hperm2 as [_ Hperm2].
    apply fmap_nil_inv in Hperm2.
    rewrite (run_counters _ _ _ _ _ Hrun2 CSkipped : Skipped _ = _).
    rewrite (run_counters _ _ _ _ _ Hrun2 CProcessed : Processed _ = _).
    rewrite (run_total _ _ _ _ _ Hrun2), Hperm2. done. }
  rewrite <-Hfiles in *.
  assert (outcomes (shared σ1) ≠ []) as Hsome.
  { intros E. rewrite E, Hfiles in Hlen1. done. }
  (* so there was a worker, and the run was not a dry run *)
  assert (0 < Concurrency cfg) as Hc.
  { destruct (Z.ltb_spec 0 (Concurrency cfg)) as [|Hz]; [done|]. exfalso.
    apply Hsome.
    rewrite (pool_rtc_idle _ _ _ _ Hrtc1); [done|].
    cbn. by replace (Z.to_nat (Concurrency cfg)) with 0%nat by lia. }
  assert (DryRun cfg = false) as Hd.
  { destruct (DryRun cfg) eqn:Hd; [exfalso|done].
    pose proof (inv_outcomes _ _ _ _ _ (run_dry _ _ _ _ _ Hd Hrtc1)) as Hdry.
    cbn beta in Hdry.
    destruct (outcomes (shared σ1)) as [|o os]; [done|].
    apply Forall_cons in Hfull as [Ho1 _]. apply Forall_cons in Hdry as [Ho2 _].
    rewrite Ho1 in Ho2.
    by destruct (dry_outcome_cases cfg fs0 o.1) as [E|E]; rewrite E in Ho2. }
  (* every target is in place after the first run *)
  assert (∀ f, f ∈ files → exists_at (final_fs σ1) (target_of cfg f)) as Hex.
  { intros f Hf.
    pose proof (run_outcomes _ _ _ _ _ Hc Hrun1) as Hperm.
    assert (mkTask f ∈ map fst (outcomes (shared σ1))) as Hin.
    { rewrite Hperm. by apply list_elem_of_fmap_2. }
    apply list_elem_of_fmap in Hin as ([task c] & Htask & Hin). cbn in Htask.
    pose proof (inv_outcomes _ _ _ _ _ Hinv1) as Hout.
    rewrite Forall_forall in Hout, Hfull.
    specialize (Hout _ Hin (Hfull _ Hin)). cbn in Hout. by rewrite <-Htask in Hout. }
  (* the second run finds them *)
  pose proof (run_rerun _ _ _ _ _ Ho Hd Hex Hrtc2) as Hinv2.
  pose proof (inv_outcomes _ _ _ _ _ Hinv2) as Hout2. cbn beta in Hout2.
  pose proof (run_outcomes _ _ _ _ _ Hc Hrun2) as Hperm2.
  rewrite (run_counters _ _ _ _ _ Hrun2 CSkipped : Skipped _ = _).
  rewrite (run_counters _ _ _ _ _ Hrun2 CProcessed : Processed _ = _).
  rewrite (run_total _ _ _ _ _ Hrun2).
  rewrite (tally_all CSkipped) by done.
  rewrite (tally_none CProcessed)
    by (eapply Forall_impl; [exact Hout2|]; by intros o ->).
  apply Permutation_length in Hperm2. rewrite !length_map in Hperm2.
  by rewrite Hperm2.
Qed.

(** C2.  The skip check.  With neither overwrite nor dry run, a task
    whose target exists makes two calls, [os.Stat] on the target and the
    increment of [Skipped] (no read of the source, no backend call); a
    task whose [os.Stat] fails with something other than "does not
    exist" likewise increments [Failed] and stops.  In both cases the
    increment is all that is left of the loop body once [os.Stat] has
    answered, whatever other workers do in between.  With overwrite or
    dry run, the task makes no [os.Stat] call at all. *)
Theorem skip_check cfg trans task w :
  let target := target_of cfg (RelativePath task) in
  let body := process_task cfg trans task in
  let w' := (exec body w).2 in
  (Overwrite cfg = false → DryRun cfg = false →
     (exists_at (fs w) target →
        (step1 body w).1 = Add CSkipped (Ret tt) ∧
        stats w' = Add1 CSkipped (stats w) ∧ fs w' = fs w ∧
        trace w' = trace w ++ [EvStat target; EvAdd CSkipped]) ∧
     (∀ err, os_Stat (fs w) target = Err err → os_IsNotExist err = false →
        (step1 body w).1 = Add CFailed (Ret tt) ∧
        stats w' = Add1 CFailed (stats w) ∧ fs w' = fs w ∧
        trace w' = trace w ++ [EvStat target; EvAdd CFailed])) ∧
  (Overwrite cfg = true ∨ DryRun cfg = true →
     never_stats body ∧
     ∃ evs, trace w' = trace w ++ evs ∧ Forall (λ e, is_stat e = false) evs).
Proof.
  intros target body w'. subst target body w'. unfold target_of. split.
  - intros Ho Hd. unfold process_task. rewrite Ho, Hd.
    cbn [negb andb exec step1 fst]. split.
    + intros [n Hn]. rewrite Hn. cbn [exec snd stats fs trace].
      by rewrite <-(assoc_L (++)).
    + intros err Herr Hne. rewrite Herr, Hne. cbn [negb exec snd stats fs trace].
      by rewrite <-(assoc_L (++)).
  - intros Hflags.
    assert (never_stats (process_task cfg trans task)) as Hnever.
    { unfold process_task.
      replace (negb (Overwrite cfg) && negb (DryRun cfg)) with false
        by (destruct Hflags as [-> | ->]; by rewrite ?andb_false_r).
      by apply never_stats_from_read. }
    split; [done|]. by apply never_stats_trace.
Qed.

(** C5.  [WriteFile].  Without overwrite, an existing file is left
    alone and the call succeeds; a failure of the existence check other
    than "not found" is returned and nothing is written.  Otherwise the
    parent directories are created and the content is written: the call
    succeeds exactly when both steps succeed; once [MkdirAll] has
    succeeded the parent directory exists; after a success the file
    holds exactly the content and every parent is a directory; a failure
    returns the error of the step that failed, and no content has been
    written. *)
Theorem WriteFile_spec p content overwrite w :
  let err := (exec (WriteFile p content overwrite) w).1 in
  let w' := (exec (WriteFile p content overwrite) w).2 in
  let check := if overwrite then [] else [EvStat p] in
  let dir := filepath_Dir p in
  let mk := os_MkdirAll (fs w) dir in
  let wr := os_WriteFile mk.1 p content in
  (overwrite = false → exists_at (fs w) p →
     err = None ∧ fs w' = fs w ∧ trace w' = trace w ++ [EvStat p]) ∧
  (overwrite = false →
   ∀ e, os_Stat (fs w) p = Err e → os_IsNotExist e = false →
     err = Some (Errorf "检查目标文件 %s 状态失败: %w" [ArgPath p; ArgError e]) ∧
     fs w' = fs w ∧ trace w' = trace w ++ [EvStat p]) ∧
  (overwrite = true ∨ (∃ e, os_Stat (fs w) p = Err e ∧ os_IsNotExist e = true) →
     (mk.2 = None → os_Stat mk.1 dir = Ok Dir) ∧
     (err = None ↔ mk.2 = None ∧ wr.2 = None) ∧
     (∀ e, mk.2 = Some e →
        err = Some (Errorf "创建目录 %s 失败: %w" [ArgPath dir; ArgError e]) ∧
        fs w' = mk.1 ∧ trace w' = trace w ++ check ++ [EvMkdirAll dir]) ∧
     (∀ e, mk.2 = None → wr.2 = Some e →
        err = Some (Errorf "写入文件 %s 失败: %w" [ArgPath p; ArgError e]) ∧
        fs w' = mk.1) ∧
     (err = None →
        fs w' = wr.1 ∧
        trace w' = trace w ++ check ++ [EvMkdirAll dir; EvWrite p content] ∧
        os_ReadFile (fs w') p = Ok content ∧
        ∀ q r, p = q ++ r → r ≠ [] → os_Stat (fs w') q = Ok Dir)).
Proof.
  intros err w' check dir mk wr. subst err w'. split; [|split].
  - intros -> [n Hn]. unfold WriteFile. cbn [negb exec]. by rewrite Hn.
  - intros -> e He Hne. unfold WriteFile. cbn [negb exec]. by rewrite He, Hne.
  - intros Hcase.
    assert (exec (WriteFile p content overwrite) w
            = exec (WriteFile_write p content)
                (mkWorld (fs w) (stats w) (trace w ++ check))) as ->.
    { unfold WriteFile, check. destruct overwrite; cbn [negb exec].
      - destruct w. cbn. by rewrite app_nil_r.
      - destruct Hcase as [|(e & -> & ->)]; done. }
    rewrite exec_write. cbn [fs stats trace]. fold dir mk wr.
    split.
    { intros Hmk. apply (os_MkdirAll_ok (fs w) dir). fold mk.
      rewrite <-Hmk. by destruct mk. }
    pose proof (os_WriteFile_err mk.1 p content) as Hfail.
    pose proof (os_WriteFile_ok mk.1 p content) as Hok.
    fold wr in Hfail, Hok.
    destruct mk.2 as [e1|] eqn:Hmk.
    { cbn [fst snd fs trace]. split; [by split; [|intros [? _]]|].
      split; [|by split].
      intros e [= <-]. split; [done|]. split; [done|]. by rewrite <-(assoc_L (++)). }
    destruct wr as [fs2 [e2|]] eqn:Hwr; cbn [fst snd fs trace] in *.
    + split; [by split; [|intros [_ ?]]|]. split; [done|].
      split; [|done]. intros e _ [= <-]. split; [done|]. by eapply Hfail.
    + split; [done|]. split; [done|]. split; [done|]. intros _.
      destruct (Hok fs2 eq_refl) as [Hstat Hread].
      split; [done|]. split; [by rewrite <-!(assoc_L (++))|]. split; [done|].
      intros q r -> Hr. by eapply os_Stat_prefix.
Qed.

Lemma FindMarkdownFiles_walk sourceDir e :
  root_denied e = false →
  FindMarkdownFiles sourceDir (LstatOk e) = Ok (markdown_below [] e).
Proof.
  intros He. unfold FindMarkdownFiles, WalkDir.
  pose proof (walkDir_visit sourceDir e [] [] (or_intror He)) as H.
  rewrite app_nil_r in H. by rewrite H.
Qed.

(** C6.  Discovery.  Unless the root is a directory that the process
    may not read, [FindMarkdownFiles] returns, as paths relative to the
    root, exactly the files that can be reached through readable
    directories and whose name ends, whatever the case, in [.md].  A
    permission error on the root, from [Lstat] or from [ReadDir], makes
    discovery fail.  Below the root, an error on a directory skips that
    directory and an error on a single entry skips that entry; neither
    stops the walk. *)
Theorem FindMarkdownFiles_spec sourceDir :
  (∀ e, root_denied e = false →
     FindMarkdownFiles sourceDir (LstatOk e) = Ok (markdown_below [] e) ∧
     ∀ rel, rel ∈ markdown_below [] e ↔
            ∃ name, file_at e rel name ∧ ends_in_md name) ∧
  (∀ errno, permission errno = true →
     ∃ err, FindMarkdownFiles sourceDir (LstatFailed errno) = Err err) ∧
  (∀ e, root_denied e = true →
     ∃ err, FindMarkdownFiles sourceDir (LstatOk e) = Err err) ∧
  (∀ p d walkErr files, p ≠ sourceDir →
     visit sourceDir p (VisitErr (Some d) walkErr) files
     = (files, if dIsDir d then SkipDir else Continue)).
Proof.
  split; [|split; [|split]].
  - intros e He. split.
    + by apply FindMarkdownFiles_walk.
    + intros rel. rewrite markdown_below_file_at. split.
      * intros (r & name & -> & ? & ?%is_markdown_spec). by exists name.
      * intros (name & ? & ?%is_markdown_spec). by exists rel, name.
  - intros errno Hperm. unfold FindMarkdownFiles, WalkDir, visit.
    rewrite bool_decide_true by done. cbn [os_IsPermission].
    unfold permission in Hperm. rewrite Hperm. cbn [andb]. by eexists.
  - intros [name|name [errno|] entries] He; try done.
    unfold FindMarkdownFiles, WalkDir. cbn [walkDir].
    change (visit sourceDir sourceDir (Visit (mkDirEntry name true)) [])
      with (@nil path, Continue).
    cbv beta iota. unfold visit at 1.
    rewrite bool_decide_true by done. cbn [os_IsPermission].
    cbn in He. unfold permission in He. rewrite He. cbn [andb]. by eexists.
  - intros p d walkErr files Hp. unfold visit.
    rewrite bool_decide_false by done. cbn [andb]. by destruct (dIsDir d).
Qed.

(** C10.  A root that does not exist, or whose [Lstat] or [ReadDir]
    fails with anything but a permission error, makes
    [FindMarkdownFiles] return no file and no error. *)
Theorem FindMarkdownFiles_missing_root sourceDir :
  FindMarkdownFiles sourceDir (LstatFailed ENOENT) = Ok [] ∧
  (∀ errno, permission errno = false →
     FindMarkdownFiles sourceDir (LstatFailed errno) = Ok []) ∧
  (∀ name errno partial, permission errno = false →
     FindMarkdownFiles sourceDir (LstatOk (EDir name (Some errno) partial)) = Ok []).
Proof.
  assert (∀ errno, permission errno = false →
            FindMarkdownFiles sourceDir (LstatFailed errno) = Ok []) as Hlstat.
  { intros errno Hperm. unfold FindMarkdownFiles, WalkDir, visit.
    cbn [os_IsPermission]. unfold permission in Hperm.
    by rewrite Hperm, andb_false_r. }
  split; [by apply Hlstat|]. split; [exact Hlstat|].
  intros name errno partial Hperm.
  by rewrite FindMarkdownFiles_walk.
Qed.

(** C9.  The retry of [ExtractTranslation] on the trimmed input changes
    nothing: the expression matches [TrimSpace s] exactly when it
    matches [s], and the function equals the one that matches once. *)
Theorem trim_retry_is_redundant s :
  (FindStringSubmatch (TrimSpace s) ≠ [] ↔ FindStringSubmatch s ≠ []) ∧
  ExtractTranslation s = ExtractTranslation_once s.
Proof.
  split; [by rewrite FindStringSubmatch_TrimSpace|].
  unfold ExtractTranslation, ExtractTranslation_once.
  rewrite FindStringSubmatch_TrimSpace.
  by destruct (FindStringSubmatch_cases s) as [->|[cap ->]].
Qed.

(** What the extraction returns.  The text between the leftmost start
    marker and the first end marker after it is returned, trimmed; any
    output with a marker pair yields a result; without a marker pair the
    result is the error made from [errMsg], whose preview is the raw
    output or, beyond 300 bytes, its first 300 bytes and three dots. *)
Lemma ExtractTranslation_spec :
  (∀ a X b, contains open_tag a = false → contains close_tag X = false →
     ExtractTranslation (a +:+ open_tag +:+ X +:+ close_tag +:+ b) = Ok (TrimSpace X)) ∧
  (∀ raw, has_marker_pair raw → ∃ X, ExtractTranslation raw = Ok X) ∧
  (∀ raw, ¬ has_marker_pair raw →
     ExtractTranslation raw
     = Err (Errorf (extract_error_prefix +:+ extract_preview raw) []) ∧
     (String.length (extract_preview raw) ≤ 303)%nat ∧
     (((String.length raw ≤ 300)%nat ∧ extract_preview raw = raw) ∨
      ((300 < String.length raw)%nat ∧
       ∃ head rest, raw = head +:+ rest ∧ String.length head = 300%nat ∧
                    extract_preview raw = head +:+ "..."))).
Proof.
  split; [|split].
  - apply ExtractTranslation_first_span.
  - apply ExtractTranslation_markers.
  - intros raw Hn. split; [by apply ExtractTranslation_no_markers|].
    split; [apply extract_preview_length|apply extract_preview_spec].
Qed.

(** C4, the error text.  [errMsg] is handed to [fmt.Errorf] as the
    format: a raw output with a percent sign comes back altered.  For
    the output [Translation is 100% done.] the error reads
    [...100%!d(MISSING)one.] and the preview is no longer part of it,
    although it is part of [errMsg], which is what gets logged. *)
Theorem ExtractTranslation_error_text_percent :
  let raw := "Translation is 100% done." in
  ExtractTranslation raw = Err (Errorf (extract_errMsg raw) []) ∧
  extract_errMsg raw = extract_error_prefix +:+ raw ∧
  Error (Errorf (extract_errMsg raw) [])
  = Some (extract_error_prefix +:+ "Translation is 100%!d(MISSING)one.") ∧
  contains raw (extract_error_prefix +:+ "Translation is 100%!d(MISSING)one.") = false ∧
  contains raw (extract_errMsg raw) = true.
Proof. vm_compute. repeat split. Qed.

(** ** The theorems at work *)

Lemma demo_run_returns :
  ProcessFiles demo_cfg demo_files (Some demo_backend) demo_fs demo_run.
Proof.
  split; [apply run_schedule_rtc|].
  repeat split; vm_compute; repeat constructor.
Qed.

Lemma fresh_run_returns :
  ProcessFiles fresh_cfg demo_files (Some demo_backend) demo_fs fresh_run.
Proof.
  split; [apply run_schedule_rtc|].
  repeat split; vm_compute; repeat constructor.
Qed.

Lemma fresh_rerun_returns :
  ProcessFiles fresh_cfg demo_files (Some demo_backend) (final_fs fresh_run) fresh_rerun.
Proof.
  split; [apply run_schedule_rtc|].
  repeat split; vm_compute; repeat constructor.
Qed.

Lemma dry_run_returns :
  ProcessFiles dry_cfg dry_files None demo_fs dry_run.
Proof.
  split; [apply run_schedule_rtc|].
  repeat split; vm_compute; repeat constructor.
Qed.

Lemma idle_run_returns :
  ProcessFiles idle_cfg demo_files (Some demo_backend) demo_fs idle_run.
Proof.
  split; [apply run_schedule_rtc|].
  repeat split; vm_compute; repeat constructor.
Qed.

(** Without a worker [ProcessFiles] returns with nothing counted: the
    condition on [Concurrency], which the configuration checks, is
    needed for C1. *)
Lemma no_worker_no_count :
  ProcessFiles idle_cfg demo_files (Some demo_backend) demo_fs idle_run ∧
  TotalFiles (final_stats idle_run) = 3 ∧
  Processed (final_stats idle_run) + Skipped (final_stats idle_run)
  + Failed (final_stats idle_run) + DryRunHits (final_stats idle_run) = 0.
Proof. split; [apply idle_run_returns|]. by vm_compute. Qed.

(** C1 at the example: three files, one already translated. *)
Lemma ProcessFiles_counts_every_task_once_witness :
  let st := final_stats demo_run in
  Processed st + Skipped st + Failed st + DryRunHits st = TotalFiles st.
Proof.
  apply (ProcessFiles_counts_every_task_once
           demo_cfg demo_files (Some demo_backend) demo_fs demo_run).
  - vm_compute. reflexivity.
  - apply demo_run_returns.
  - vm_compute. reflexivity.
Defined.

(** C7 at the dry run, in which one file cannot be read. *)
Lemma exit_status_reports_failures_witness :
  main_exit_status (final_stats dry_run) ≠ 0 ↔ 0 < Failed (final_stats dry_run).
Proof.
  apply (exit_status_reports_failures dry_cfg dry_files None demo_fs dry_run).
  apply dry_run_returns.
Defined.

(** C3 as stated fails: discovery finds two files, without any
    failure; in the dry run one of them cannot be read, and it is
    counted in [Failed], not in [DryRunHits]. *)
Lemma dry_run_counts_unreadable_as_failed :
  FindMarkdownFiles ["src"] (LstatOk (EDir "src" None [EFile "a.md"; EFile "secret.md"]))
  = Ok dry_files ∧
  DryRun dry_cfg = true ∧
  ProcessFiles dry_cfg dry_files None demo_fs dry_run ∧
  TotalFiles (final_stats dry_run) = 2 ∧
  DryRunHits (final_stats dry_run) = 1 ∧
  Failed (final_stats dry_run) = 1 ∧
  DryRunHits (final_stats dry_run) ≠ TotalFiles (final_stats dry_run).
Proof.
  split; [done|]. split; [done|]. split; [apply dry_run_returns|]. by vm_compute.
Qed.

(** C3 as amended, at the same run. *)
Lemma dry_run_reads_and_counts_witness :
  final_fs dry_run = demo_fs ∧
  Forall (λ e, harmless e = true) (final_trace dry_run) ∧
  DryRunHits (final_stats dry_run)
  = TotalFiles (final_stats dry_run) - Failed (final_stats dry_run).
Proof.
  destruct (dry_run_reads_and_counts dry_cfg dry_files None demo_fs dry_run)
    as (Hfs & Htrace & _ & _ & _ & _ & Hsum).
  - reflexivity.
  - vm_compute. reflexivity.
  - apply dry_run_returns.
  - split; [exact Hfs|]. split; [exact Htrace|]. apply Hsum. vm_compute. reflexivity.
Defined.

(** C8 at the example: a first run into a fresh target tree, then the
    same run again. *)
Lemma rerun_skips_everything_witness :
  Skipped (final_stats fresh_rerun) = TotalFiles (final_stats fresh_rerun) ∧
  Processed (final_stats fresh_rerun) = 0.
Proof.
  apply (rerun_skips_everything fresh_cfg demo_files
           (Some demo_backend) (Some demo_backend) demo_fs fresh_run fresh_rerun).
  - reflexivity.
  - vm_compute. reflexivity.
  - apply fresh_run_returns.
  - vm_compute. reflexivity.
  - apply fresh_rerun_returns.
Defined.

(** C2 at the example: [c.md] is translated already; nothing can be
    looked up below [vault]; with overwrite no check is made. *)
Lemma skip_check_witness :
  trace (exec (process_task demo_cfg (Some demo_backend) (mkTask ["c.md"])) demo_world).2
  = [EvStat ["out"; "c.md"]; EvAdd CSkipped] ∧
  trace (exec (process_task vault_cfg (Some demo_backend) (mkTask ["a.md"])) demo_world).2
  = [EvStat ["vault"; "a.md"]; EvAdd CFailed] ∧
  never_stats (process_task overwrite_cfg (Some demo_backend) (mkTask ["c.md"])).
Proof.
  split; [|split].
  - destruct (skip_check demo_cfg (Some demo_backend) (mkTask ["c.md"]) demo_world)
      as [Hcheck _].
    destruct (Hcheck eq_refl eq_refl) as [Hexists _].
    destruct Hexists as (_ & _ & _ & Htrace); [|exact Htrace].
    exists (File "[fr] old gamma"). vm_compute. reflexivity.
  - destruct (skip_check vault_cfg (Some demo_backend) (mkTask ["a.md"]) demo_world)
      as [Hcheck _].
    destruct (Hcheck eq_refl eq_refl) as [_ Hfails].
    destruct (Hfails (PathError "stat" ["vault"; "a.md"] EACCES))
      as (_ & _ & _ & Htrace); [vm_compute; reflexivity|reflexivity|exact Htrace].
  - destruct (skip_check overwrite_cfg (Some demo_backend) (mkTask ["c.md"]) demo_world)
      as [_ Hnone].
    destruct Hnone as [Hnever _]; [left; reflexivity|exact Hnever].
Defined.

(** C5 at the example: an existing file without overwrite; a path
    below the closed directory; a file in a target tree that does not
    exist yet. *)
Lemma WriteFile_spec_witness :
  (exec (WriteFile ["out"; "c.md"] "new" false) demo_world).1 = None ∧
  fs (exec (WriteFile ["out"; "c.md"] "new" false) demo_world).2 = demo_fs ∧
  (exec (WriteFile ["vault"; "a.md"] "new" false) demo_world).1
  = Some (Errorf "检查目标文件 %s 状态失败: %w"
            [ArgPath ["vault"; "a.md"];
             ArgError (PathError "stat" ["vault"; "a.md"] EACCES)]) ∧
  os_ReadFile (fs (exec (WriteFile ["new"; "fr"; "a.md"] "alpha [fr]" false) demo_world).2)
    ["new"; "fr"; "a.md"] = Ok "alpha [fr]" ∧
  os_Stat (fs (exec (WriteFile ["new"; "fr"; "a.md"] "alpha [fr]" false) demo_world).2)
    ["new"; "fr"] = Ok Dir.
Proof.
  destruct (WriteFile_spec ["out"; "c.md"] "new" false demo_world) as (Hkeep & _ & _).
  destruct (WriteFile_spec ["vault"; "a.md"] "new" false demo_world) as (_ & Hfail & _).
  destruct (WriteFile_spec ["new"; "fr"; "a.md"] "alpha [fr]" false demo_world)
    as (_ & _ & Hwrite).
  destruct Hkeep as (Herr & Hfs & _);
    [reflexivity|exists (File "[fr] old gamma"); vm_compute; reflexivity|].
  destruct (Hfail eq_refl (PathError "stat" ["vault"; "a.md"] EACCES))
    as (Herr' & _ & _); [vm_compute; reflexivity|reflexivity|].
  destruct Hwrite as (_ & _ & _ & _ & Hdone).
  { right. exists (PathError "stat" ["new"; "fr"; "a.md"] ENOENT).
    split; vm_compute; reflexivity. }
  destruct Hdone as (_ & _ & Hread & Hdirs); [vm_compute; reflexivity|].
  split; [exact Herr|]. split; [exact Hfs|]. split; [exact Herr'|].
  split; [exact Hread|].
  apply (Hdirs ["new"; "fr"] ["a.md"]); [reflexivity|discriminate].
Defined.

(** C6 at the example tree, and at roots that cannot be read. *)
Lemma FindMarkdownFiles_spec_witness :
  FindMarkdownFiles ["docs"] (LstatOk example_tree)
  = Ok [["README.MD"]; ["guide"; "intro.md"]; ["notes.md"; "todo.Md"]] ∧
  (∃ err, FindMarkdownFiles ["docs"] (LstatFailed EACCES) = Err err) ∧
  (∃ err, FindMarkdownFiles ["docs"]
            (LstatOk (EDir "docs" (Some EACCES) [EFile "a.md"])) = Err err) ∧
  visit ["docs"] ["docs"; "broken.md"]
    (VisitErr (Some (mkDirEntry "broken.md" false))
       (PathError "lstat" ["docs"; "broken.md"] EIO)) [["a.md"]]
  = ([["a.md"]], Continue).
Proof.
  destruct (FindMarkdownFiles_spec ["docs"]) as (Hok & Hlstat & Hdenied & Hentry).
  split; [|split; [|split]].
  - destruct (Hok example_tree) as [Hfiles _]; [reflexivity|exact Hfiles].
  - apply Hlstat. reflexivity.
  - apply Hdenied. reflexivity.
  - apply (Hentry ["docs"; "broken.md"] (mkDirEntry "broken.md" false)). discriminate.
Defined.

(** C10 at a root whose [Lstat] fails with an input/output error. *)
Lemma FindMarkdownFiles_missing_root_witness :
  FindMarkdownFiles ["docs"] (LstatFailed EIO) = Ok [] ∧
  FindMarkdownFiles ["docs"] (LstatOk (EDir "docs" (Some EIO) [EFile "a.md"])) = Ok [].
Proof.
  destruct (FindMarkdownFiles_missing_root ["docs"]) as (_ & Hlstat & Hreaddir).
  split.
  - apply Hlstat. reflexivity.
  - apply Hreaddir. reflexivity.
Defined.

(** * More about the pipeline *)

(** ** Runs of the pool end *)

Lemma is_WDone_dec ws : Decision (ws = WDone).
Proof. destruct ws; [right|right|left]; done. Defined.

Lemma worker_can_move cfg trans ws sh :
  ws ≠ WDone → closed sh = true →
  ∃ ws' sh', worker_step cfg trans ws sh = Some (ws', sh').
Proof.
  intros Hws Hc. destruct ws as [|task p|]; [| |done].
  - cbn [worker_step]. destruct (tasks sh); [|by eauto]. rewrite Hc. by eauto.
  - destruct p; cbn [worker_step]; try (destruct (step1 _ _)); by eauto.
Qed.

(** A pool that has not returned can always move, and one that has
    returned cannot: no worker waits for a task that never comes, main
    never waits for room in the channel. *)
Theorem ProcessFiles_no_deadlock cfg trans σ :
  (returned σ → ∀ σ', ¬ pool_step cfg trans σ σ') ∧
  (¬ returned σ → ∃ σ', pool_step cfg trans σ σ').
Proof.
  split.
  - intros (Hunsent & Hclosed & Hall) σ' Hstep.
    destruct Hstep as [σ1 σ2 Hmain|σ1 before ws after ws' sh' Hws Hstep].
    + unfold main_step in Hmain. by rewrite Hunsent, Hclosed in Hmain.
    + rewrite Hws in Hall. apply Forall_app in Hall as [_ Hall].
      apply Forall_cons in Hall as [-> _]. done.
  - intros Hnot. destruct (unsent σ) as [|f rest] eqn:Hunsent.
    + destruct (closed (shared σ)) eqn:Hclosed.
      * assert (Exists (λ ws, ws ≠ WDone) (workers σ)) as Hex.
        { apply (@not_Forall_Exists _ (λ ws, ws = WDone) is_WDone_dec).
          intros Hall. by apply Hnot. }
        apply Exists_exists in Hex as (ws & Hin & Hws).
        apply list_elem_of_split in Hin as (before & after & Hsplit).
        destruct (worker_can_move cfg trans ws (shared σ) Hws Hclosed)
          as (ws' & sh' & Hstep).
        eexists. by eapply step_worker.
      * eexists. apply step_main. unfold main_step.
        by rewrite Hunsent, Hclosed.
    + eexists. apply step_main. unfold main_step. by rewrite Hunsent.
Qed.

(** *** The calls of one loop body *)

Lemma any_call_step {A} h (p : prog A) w :
  (∀ a, p ≠ Ret a) → at_most any_call h p →
  ∃ h', h = S h' ∧ at_most any_call h' (step1 p w).1.
Proof.
  intros Hp. destruct p; cbn [at_most spend any_call]; try (by destruct (Hp a));
    destruct h as [|h']; try done; intros H; exists h'; (split; [done|]);
    cbn [step1 fst]; try done.
  - destruct (os_MkdirAll (fs w) p). apply H.
  - destruct (os_WriteFile (fs w) p data). apply H.
Qed.

Lemma count_events_snoc P t e :
  count_events P (t ++ [e]) = (count_events P t + if P e then 1 else 0)%nat.
Proof.
  unfold count_events. rewrite filter_app, length_app. f_equal.
  rewrite filter_cons. by destruct (P e).
Qed.

Lemma at_most_step {A} P b (p : prog A) w :
  (∀ a, p ≠ Ret a) → at_most P b p →
  ∃ b', at_most P b' (step1 p w).1 ∧
        (count_events P (trace (step1 p w).2) + b' ≤ count_events P (trace w) + b)%nat.
Proof.
  intros Hp.
  assert (∀ e (K : nat → Prop) (q : prog A) t,
            (∀ n, K n → at_most P n q) → spend P e b K →
            ∃ b', at_most P b' q ∧
                  (count_events P (t ++ [e]) + b' ≤ count_events P t + b)%nat) as Hspend.
  { intros e K q t HK. unfold spend. rewrite count_events_snoc.
    destruct (P e).
    - destruct b as [|b']; [done|]. intros H. exists b'. split; [by apply HK|lia].
    - intros H. exists b. split; [by apply HK|lia]. }
  destruct p; cbn [at_most]; try (by destruct (Hp a)); intros H; cbn [step1].
  - eapply Hspend; [|exact H]. intros n Hn. apply Hn.
  - eapply Hspend; [|exact H]. intros n Hn. apply Hn.
  - destruct (os_MkdirAll (fs w) p) as [fs' err].
    eapply Hspend; [|exact H]. intros n Hn. apply Hn.
  - destruct (os_WriteFile (fs w) p data) as [fs' err].
    eapply Hspend; [|exact H]. intros n Hn. apply Hn.
  - eapply Hspend; [|exact H]. intros n Hn. apply Hn.
  - eapply Hspend; [|exact H]. intros n Hn. apply Hn.
Qed.

(** The loop body makes at most seven calls: two [os.Stat], one read,
    one call of the backend, one [os.MkdirAll], one write, one counter. *)
Lemma process_task_calls cfg trans task :
  at_most any_call 7 (process_task cfg trans task).
Proof.
  unfold process_task, process_task_from_read, ReadFile, WriteFile, WriteFile_write.
  repeat first
    [ progress cbn [at_most spend any_call mbind prog_bind bind negb andb]
    | progress intros
    | case_match
    | done ].
Qed.

Lemma process_task_one_call cfg trans task :
  at_most is_translate 1 (process_task cfg trans task).
Proof.
  unfold process_task, process_task_from_read, ReadFile, WriteFile, WriteFile_write.
  repeat first
    [ progress cbn [at_most spend is_translate mbind prog_bind bind negb andb]
    | progress intros
    | case_match
    | done ].
Qed.

Lemma process_task_one_write cfg trans task :
  at_most is_write 1 (process_task cfg trans task).
Proof.
  unfold process_task, process_task_from_read, ReadFile, WriteFile, WriteFile_write.
  repeat first
    [ progress cbn [at_most spend is_write mbind prog_bind bind negb andb]
    | progress intros
    | case_match
    | done ].
Qed.

(** *** Every step uses up one of the steps left *)

Lemma Forall2_middle {A B} (P : A → B → Prop) before x after bs :
  Forall2 P (before ++ x :: after) bs →
  ∃ bs1 b bs2, bs = bs1 ++ b :: bs2 ∧ Forall2 P before bs1 ∧ P x b ∧ Forall2 P after bs2.
Proof.
  intros (bs1 & bs' & H1 & H2 & ->)%Forall2_app_inv_l.
  apply Forall2_cons_inv_l in H2 as (b & bs2 & Hb & H2 & ->).
  by exists bs1, b, bs2.
Qed.

Lemma prog_Ret_cases {A} (p : prog A) : (∃ a, p = Ret a) ∨ (∀ a, p ≠ Ret a).
Proof. destruct p; [left; by eexists|right..]; done. Qed.

Lemma sum_list_middle bs1 b bs2 :
  sum_list (bs1 ++ b :: bs2) = (sum_list bs1 + b + sum_list bs2)%nat.
Proof. rewrite sum_list_with_app. cbn. lia. Qed.

Lemma steps_left_step cfg trans σ σ' m :
  pool_step cfg trans σ σ' → steps_left σ m →
  ∃ m', steps_left σ' m' ∧ (m' < m)%nat.
Proof.
  intros Hstep (bs & Hbs & ->).
  destruct Hstep as [σ1 σ2 Hmain|σ1 before ws after ws' sh' Hws Hstep].
  - unfold main_step in Hmain. destruct (unsent σ1) as [|f rest] eqn:Hunsent.
    + destruct (closed (shared σ1)) eqn:Hclosed; [done|]. injection Hmain as <-.
      eexists. split; [by exists bs|]. cbn. lia.
    + injection Hmain as <-.
      eexists. split; [by exists bs|]. cbn [unsent shared tasks closed].
      rewrite length_app. cbn [length]. lia.
  - rewrite Hws in Hbs.
    apply Forall2_middle in Hbs as (bs1 & b & bs2 & -> & H1 & Hb & H2).
    assert (∀ b', worker_steps ws' b' →
              Forall2 worker_steps (before ++ ws' :: after) (bs1 ++ b' :: bs2)) as Hnew.
    { intros b' Hb'. apply Forall2_app; [done|]. by constructor. }
    rewrite sum_list_middle.
    destruct ws as [|task p|]; [| |done].
    + cbn in Hb. subst b. cbn [worker_step] in Hstep.
      destruct (tasks (shared σ1)) as [|task rest] eqn:Hq.
      * destruct (closed (shared σ1)) eqn:Hclosed; [|done]. injection Hstep as <- <-.
        eexists. split; [eexists; split; [by apply (Hnew 0%nat)|done]|].
        cbn [unsent shared]. rewrite sum_list_middle, Hq, Hclosed. cbn. lia.
      * injection Hstep as <- <-.
        eexists. split.
        { eexists. split; [|done]. apply (Hnew 9%nat).
          exists 7%nat. split; [apply process_task_calls|done]. }
        rewrite sum_list_middle. cbn [unsent shared tasks closed length]. lia.
    + destruct Hb as (h & Hh & ->).
      destruct (prog_Ret_cases p) as [[u ->]|Hp].
      * cbn [worker_step] in Hstep. injection Hstep as <- <-.
        eexists. split; [eexists; split; [by apply (Hnew 1%nat)|done]|].
        cbn [unsent shared]. rewrite sum_list_middle. lia.
      * rewrite worker_step_body in Hstep by done.
        injection Hstep as <- <-.
        destruct (any_call_step h p (world (shared σ1)) Hp Hh) as (h' & -> & Hh').
        eexists. split.
        { eexists. split; [|done]. apply (Hnew (h' + 2)%nat). by exists h'. }
        rewrite sum_list_middle. cbn [unsent shared tasks closed]. lia.
Qed.

Lemma steps_left_start cfg files fs0 :
  steps_left (ProcessFiles_start cfg files fs0)
    (10 * length files + Z.to_nat (Concurrency cfg) + 1).
Proof.
  exists (replicate (Z.to_nat (Concurrency cfg)) 1%nat). split.
  - cbn [ProcessFiles_start workers].
    induction (Z.to_nat (Concurrency cfg)) as [|n IH]; by constructor.
  - rewrite sum_list_replicate. cbn. lia.
Qed.

Lemma nsteps_bound cfg trans n σ σ' m :
  nsteps (pool_step cfg trans) n σ σ' → steps_left σ m → (n ≤ m)%nat.
Proof.
  intros Hn. revert m. induction Hn as [|n σ1 σ2 σ3 Hstep _ IH]; intros m Hm; [lia|].
  destruct (steps_left_step _ _ _ _ _ Hstep Hm) as (m' & Hm' & Hlt).
  specialize (IH m' Hm'). lia.
Qed.

Lemma schedule_nsteps cfg trans schedule σ :
  nsteps (pool_step cfg trans) (schedule_length cfg trans schedule σ)
    σ (run_schedule cfg trans schedule σ).
Proof.
  unfold run_schedule. revert σ.
  induction schedule as [|who schedule IH]; intros σ; [constructor|].
  cbn [foldl schedule_length].
  assert (if moves cfg trans who σ
          then pool_step cfg trans σ (sched_step cfg trans who σ)
          else sched_step cfg trans who σ = σ) as Hmove.
  { destruct who as [i|]; cbn [moves sched_step].
    - destruct (workers σ !! i) as [ws|] eqn:Hi; [|done].
      case_bool_decide as Hs.
      + destruct Hs as [[ws' sh'] Hs]. rewrite Hs.
        rewrite insert_take_drop by (by eapply lookup_lt_Some).
        eapply step_worker; [|exact Hs].
        by rewrite take_drop_middle.
      + destruct (worker_step cfg trans ws (shared σ)) as [[ws' sh']|]; [|done].
        destruct Hs. by eexists.
    - case_bool_decide as Hm.
      + destruct Hm as [σ' Hm]. rewrite Hm. by constructor.
      + destruct (main_step σ); [|done]. destruct Hm. by eexists. }
  destruct (moves cfg trans who σ).
  - eapply nsteps_l; [exact Hmove|apply IH].
  - cbn [Nat.add]. rewrite Hmove. apply IH.
Qed.

(** Every run of [ProcessFiles] is finite: ten steps for each file
    (the send, the receive, at most seven calls, the return to the head
    of the loop), one for each worker's exit, one for [close].  With the
    theorem before: however the workers are scheduled, [ProcessFiles]
    returns (each call of the backend returning, as its timeout
    ensures). *)
Theorem ProcessFiles_terminates cfg files trans fs0 n σ :
  nsteps (pool_step cfg trans) n (ProcessFiles_start cfg files fs0) σ →
  (n ≤ 10 * length files + Z.to_nat (Concurrency cfg) + 1)%nat.
Proof.
  intros Hn. eapply nsteps_bound; [exact Hn|apply steps_left_start].
Qed.

(** The bound is reached: the run into a fresh target tree takes its
    33 steps. *)
Lemma ProcessFiles_terminates_witness :
  nsteps (pool_step fresh_cfg (Some demo_backend)) 33
    (ProcessFiles_start fresh_cfg demo_files demo_fs) fresh_run ∧
  (33 ≤ 10 * length demo_files + Z.to_nat (Concurrency fresh_cfg) + 1)%nat.
Proof.
  assert (nsteps (pool_step fresh_cfg (Some demo_backend)) 33
            (ProcessFiles_start fresh_cfg demo_files demo_fs) fresh_run) as Hn.
  { exact (schedule_nsteps fresh_cfg (Some demo_backend) (fair_schedule 3 2)
             (ProcessFiles_start fresh_cfg demo_files demo_fs)). }
  split; [exact Hn|].
  exact (ProcessFiles_terminates fresh_cfg demo_files (Some demo_backend) demo_fs 33
           fresh_run Hn).
Defined.

(** The two ends of the run into the fresh target tree: at its end
    nothing can move, at its start main can. *)
Lemma ProcessFiles_no_deadlock_witness :
  (∀ σ', ¬ pool_step fresh_cfg (Some demo_backend) fresh_run σ') ∧
  (∃ σ', pool_step fresh_cfg (Some demo_backend)
           (ProcessFiles_start fresh_cfg demo_files demo_fs) σ').
Proof.
  destruct (ProcessFiles_no_deadlock fresh_cfg (Some demo_backend) fresh_run)
    as [Hend _].
  destruct (ProcessFiles_no_deadlock fresh_cfg (Some demo_backend)
              (ProcessFiles_start fresh_cfg demo_files demo_fs)) as [_ Hstart].
  split.
  - apply Hend. repeat split; vm_compute; repeat constructor.
  - apply Hstart. intros [Hunsent _]. discriminate Hunsent.
Defined.

(** ** What a run costs *)

Lemma calls_left_step P c cfg trans σ σ' m :
  (∀ task, at_most P c (process_task cfg trans task)) →
  pool_step cfg trans σ σ' → calls_left P c σ m →
  ∃ m', calls_left P c σ' m' ∧
        (count_events P (trace (world (shared σ'))) + m'
         ≤ count_events P (trace (world (shared σ))) + m)%nat.
Proof.
  intros Hbody Hstep (bs & Hbs & ->).
  destruct Hstep as [σ1 σ2 Hmain|σ1 before ws after ws' sh' Hws Hstep].
  - unfold main_step in Hmain. destruct (unsent σ1) as [|f rest] eqn:Hunsent.
    + destruct (closed (shared σ1)) eqn:Hclosed; [done|]. injection Hmain as <-.
      eexists. split; [by exists bs|]. cbn. lia.
    + injection Hmain as <-.
      eexists. split; [by exists bs|]. cbn [unsent shared tasks world].
      rewrite length_app. cbn [length]. lia.
  - rewrite Hws in Hbs.
    apply Forall2_middle in Hbs as (bs1 & b & bs2 & -> & H1 & Hb & H2).
    assert (∀ b', worker_budget P ws' b' →
              Forall2 (worker_budget P) (before ++ ws' :: after) (bs1 ++ b' :: bs2))
      as Hnew.
    { intros b' Hb'. apply Forall2_app; [done|]. by constructor. }
    rewrite sum_list_middle.
    destruct ws as [|task p|]; [| |done].
    + cbn in Hb. subst b. cbn [worker_step] in Hstep.
      destruct (tasks (shared σ1)) as [|task rest] eqn:Hq.
      * destruct (closed (shared σ1)) eqn:Hclosed; [|done]. injection Hstep as <- <-.
        eexists. split; [eexists; split; [by apply (Hnew 0%nat)|done]|].
        cbn [unsent shared]. rewrite sum_list_middle, Hq. lia.
      * injection Hstep as <- <-.
        eexists. split; [eexists; split; [by apply (Hnew c), Hbody|done]|].
        rewrite sum_list_middle. cbn [unsent shared tasks world length]. lia.
    + cbn in Hb. destruct (prog_Ret_cases p) as [[u ->]|Hp].
      * cbn [worker_step] in Hstep. injection Hstep as <- <-.
        eexists. split; [eexists; split; [by apply (Hnew 0%nat)|done]|].
        cbn [unsent shared]. rewrite sum_list_middle. lia.
      * rewrite worker_step_body in Hstep by done.
        injection Hstep as <- <-.
        destruct (at_most_step P b p (world (shared σ1)) Hp Hb) as (b' & Hb' & Hle).
        eexists. split; [eexists; split; [by apply (Hnew b')|done]|].
        rewrite sum_list_middle. cbn [unsent shared tasks world]. lia.
Qed.

Lemma calls_left_rtc P c cfg files trans fs0 σ :
  (∀ task, at_most P c (process_task cfg trans task)) →
  rtc (pool_step cfg trans) (ProcessFiles_start cfg files fs0) σ →
  (count_events P (final_trace σ) ≤ c * length files)%nat.
Proof.
  intros Hbody Hrtc.
  assert (∃ m, calls_left P c σ m ∧
               (count_events P (final_trace σ) + m ≤ c * length files)%nat)
    as (m & _ & Hm); [|lia].
  apply rtc_nsteps in Hrtc as [n Hn].
  remember (ProcessFiles_start cfg files fs0) as σ0 eqn:Hσ0.
  revert σ0 σ Hn Hσ0. induction n as [|n IH]; intros σ0 σ Hn ->.
  - inversion Hn; subst. exists (c * length files)%nat. split; [|cbn; lia].
    exists (replicate (Z.to_nat (Concurrency cfg)) 0%nat). split.
    + cbn [ProcessFiles_start workers].
      induction (Z.to_nat (Concurrency cfg)) as [|k IHk]; by constructor.
    + rewrite sum_list_replicate. cbn. lia.
  - apply nsteps_inv_r in Hn as (σ1 & Hn & Hstep).
    destruct (IH _ _ Hn eq_refl) as (m1 & Hm1 & Hle1).
    destruct (calls_left_step _ _ _ _ _ _ _ Hbody Hstep Hm1) as (m' & Hm' & Hle).
    exists m'. split; [done|]. unfold final_trace in *. lia.
Qed.

(** At any moment of a run the backend has been called at most once for
    each file, at most one file has been written for each file, and no
    more than seven calls have been made for each file. *)
Theorem ProcessFiles_calls_bounded cfg files trans fs0 σ :
  rtc (pool_step cfg trans) (ProcessFiles_start cfg files fs0) σ →
  (count_events is_translate (final_trace σ) ≤ length files)%nat ∧
  (count_events is_write (final_trace σ) ≤ length files)%nat ∧
  (length (final_trace σ) ≤ 7 * length files)%nat.
Proof.
  intros Hrtc. split; [|split].
  - rewrite <-(Nat.mul_1_l (length files)).
    eapply calls_left_rtc; [|exact Hrtc]. apply process_task_one_call.
  - rewrite <-(Nat.mul_1_l (length files)).
    eapply calls_left_rtc; [|exact Hrtc]. apply process_task_one_write.
  - assert (count_events any_call (final_trace σ) = length (final_trace σ)) as <-.
    { unfold count_events. induction (final_trace σ) as [|e t IH]; [done|].
      rewrite filter_cons. cbn [any_call length].
      rewrite decide_True by done. cbn [length]. by rewrite IH. }
    eapply calls_left_rtc; [|exact Hrtc]. apply process_task_calls.
Qed.

(** In the run into the fresh target tree every bound is reached; in
    the run onto the old target tree one file is skipped. *)
Lemma ProcessFiles_calls_bounded_witness :
  count_events is_translate (final_trace fresh_run) = 3%nat ∧
  (count_events is_translate (final_trace demo_run) ≤ 3)%nat ∧
  (length (final_trace fresh_run) ≤ 21)%nat.
Proof.
  destruct (ProcessFiles_calls_bounded fresh_cfg demo_files (Some demo_backend)
              demo_fs fresh_run) as (_ & _ & Hall); [apply run_schedule_rtc|].
  destruct (ProcessFiles_calls_bounded demo_cfg demo_files (Some demo_backend)
              demo_fs demo_run) as (Hcalls & _ & _); [apply run_schedule_rtc|].
  split; [by vm_compute|]. split; [exact Hcalls|exact Hall].
Defined.

(** ** What a run leaves alone *)

Section Frame.

Implicit Types (a b : FS) (p q d cur : path) (n : node).

Lemma same_at_refl a p : same_at a a p.
Proof. done. Qed.

Lemma same_at_trans a b c p : same_at a b p → same_at b c p → same_at a c p.
Proof. intros [H1 H2] [H3 H4]. split; [congruence|]. by rewrite H4. Qed.

Lemma put_same_at a q n p : p ≠ q → same_at a (put a q n) p.
Proof.
  intros Hne. split; cbn.
  - by rewrite lookup_insert_ne.
  - rewrite elem_of_difference, elem_of_singleton. tauto.
Qed.

(** What a call answers about a path depends on the prefixes of the
    path only. *)
Lemma walk_same a b cur rest :
  (∀ q, q `prefix_of` cur ++ rest → same_at a b q) →
  walk b cur rest = walk a cur rest.
Proof.
  revert cur. induction rest as [|c rest IH]; intros cur Hsame; [done|].
  cbn [walk].
  assert (node_at b cur = node_at a cur) as ->.
  { destruct cur as [|x cur]; [done|]. cbn [node_at].
    apply Hsame. by apply prefix_app_r. }
  destruct (node_at a cur) as [[data|]|]; try done.
  assert (bool_decide (cur ∈ noaccess b) = bool_decide (cur ∈ noaccess a)) as ->.
  { apply bool_decide_ext, Hsame. by apply prefix_app_r. }
  case_bool_decide; [done|]. apply IH.
  intros q Hq. apply Hsame. by rewrite <-(assoc_L (++)) in Hq.
Qed.

Lemma calls_same a b p :
  (∀ q, q `prefix_of` p → same_at a b q) →
  os_Stat b p = os_Stat a p ∧ os_ReadFile b p = os_ReadFile a p.
Proof.
  intros Hsame. unfold os_Stat, os_ReadFile.
  rewrite (walk_same a b [] p Hsame).
  assert (node_at b p = node_at a p) as ->.
  { destruct p as [|x p]; [done|]. cbn [node_at]. by apply Hsame. }
  assert (bool_decide (p ∈ noaccess b) = bool_decide (p ∈ noaccess a)) as ->.
  { by apply bool_decide_ext, Hsame. }
  done.
Qed.

(** [os.Mkdir], [os.MkdirAll] and [os.WriteFile] touch nothing but
    what they are to create. *)
Lemma os_Mkdir_keeps a q p :
  p ≠ q ∨ exists_at a q → same_at a (os_Mkdir a q).1 p.
Proof.
  intros Hp. unfold os_Mkdir, exists_at, os_Stat in *.
  destruct (walk a [] q); [done|].
  destruct (node_at a q) as [n|]; [done|]. cbn [fst].
  destruct Hp as [Hp|[n Hn]]; [by apply put_same_at|done].
Qed.

Lemma MkdirAll_rev_keeps a rp p :
  ¬ p `prefix_of` rev rp ∨ exists_at a p → same_at a (MkdirAll_rev a rp).1 p.
Proof.
  revert a. induction rp as [|c rp IH]; intros a Hp; cbn [MkdirAll_rev].
  - by destruct (os_Stat a (rev [])) as [[|]|].
  - destruct (os_Stat a (rev (c :: rp))) as [[|]|]; try done.
    assert (same_at a (MkdirAll_rev a rp).1 p) as H1.
    { apply IH. destruct Hp as [Hp|Hp]; [left|by right].
      intros Hpre. apply Hp. cbn [rev]. by apply prefix_app_r. }
    pose proof (MkdirAll_rev_le a rp) as Hle.
    destruct (MkdirAll_rev a rp) as [fs1 [err|]]; [exact H1|]. cbn [fst] in *.
    assert (same_at fs1 (os_Mkdir fs1 (rev (c :: rp))).1 p) as H2.
    { apply os_Mkdir_keeps.
      destruct (decide (p = rev (c :: rp))) as [->|Hne]; [|by left].
      destruct Hp as [Hp|Hp]; [by destruct Hp|].
      right. by eapply exists_at_le. }
    destruct (os_Mkdir fs1 (rev (c :: rp))) as [fs2 [err|]]; cbn [fst] in *.
    + destruct (os_Stat fs2 (rev (c :: rp))) as [[|]|]; by eapply same_at_trans.
    + by eapply same_at_trans.
Qed.

Lemma os_MkdirAll_keeps a d p :
  ¬ p `prefix_of` d ∨ exists_at a p → same_at a (os_MkdirAll a d).1 p.
Proof.
  intros Hp. apply MkdirAll_rev_keeps. by rewrite rev_involutive.
Qed.

Lemma os_WriteFile_keeps a q data p :
  p ≠ q → same_at a (os_WriteFile a q data).1 p.
Proof.
  intros Hp. unfold os_WriteFile.
  destruct (walk a [] q); [done|].
  destruct (node_at a q) as [[old|]|]; [|done|by apply put_same_at].
  case_bool_decide; [done|by apply put_same_at].
Qed.

(** A directory that exists already is left as it is. *)
Lemma os_MkdirAll_existing a d :
  os_Stat a d = Ok Dir → os_MkdirAll a d = (a, None).
Proof.
  unfold os_MkdirAll. intros H.
  destruct (rev d) as [|c rp] eqn:E; cbn [MkdirAll_rev];
    rewrite <-E, rev_involutive, H; done.
Qed.

End Frame.

Section Keep.

Context (fs0 : FS) (S : path → Prop).

Local Abbreviation R := (R_keep fs0 S).
Local Abbreviation G w := (fs_le fs0 (fs w)).
Local Abbreviation writable := (writable S).

Lemma R_keep_refl w : R w w.
Proof. intros _. split; [apply fs_le_refl|]. intros p _. apply same_at_refl. Qed.

Lemma R_keep_trans w1 w2 w3 : R w1 w2 → R w2 w3 → R w1 w3.
Proof.
  intros H12 H23 H1. destruct (H12 H1) as [Hle12 Hs12].
  destruct (H23 (fs_le_trans _ _ _ H1 Hle12)) as [Hle23 Hs23].
  split; [by eapply fs_le_trans|].
  intros p Hp. eapply same_at_trans; [by apply Hs12|by apply Hs23].
Qed.

Lemma R_keep_G w w' : G w → R w w' → G w'.
Proof. intros HG HR. destruct (HR HG) as [Hle _]. by eapply fs_le_trans. Qed.

(** A call that leaves the file system as it is. *)
Lemma R_keep_quiet w w' : fs w' = fs w → R w w'.
Proof.
  intros E _. rewrite E. split; [apply fs_le_refl|]. intros p _. apply same_at_refl.
Qed.

Lemma wp_Add_keep (Φ : Counter → World → Prop) c w :
  (∀ w', Φ c w') → wp R Φ (Add c (Ret tt)) w.
Proof.
  intros H. cbn [wp]. split; [done|]. intros w1 H1.
  split; [by apply R_keep_quiet|apply H].
Qed.

Lemma write_keep q content w :
  G w → writable q →
  (∀ a p, fs_le fs0 a → S p → same_at a (os_MkdirAll a (filepath_Dir q)).1 p) →
  wpr R (λ (_ : option error) _, True) (WriteFile_write q content) w.
Proof.
  intros HG Hq Hmk. unfold WriteFile_write. cbn [wpr]. intros w1 H1.
  pose proof (R_keep_G _ _ HG H1) as HG1.
  assert (R w1 (step1 (MkdirAll (filepath_Dir q)
                (λ err, match err with
                        | Some err => Ret (Some (Errorf "创建目录 %s 失败: %w"
                                             [ArgPath (filepath_Dir q); ArgError err]))
                        | None => WriteFileOS q content (λ err,
                            match err with
                            | Some err => Ret (Some (Errorf "写入文件 %s 失败: %w"
                                                 [ArgPath q; ArgError err]))
                            | None => Ret None
                            end)
                        end)) w1).2) as HR1.
  { intros _. cbn [step1].
    pose proof (os_MkdirAll_le (fs w1) (filepath_Dir q)) as Hle.
    pose proof (λ p, Hmk (fs w1) p HG1) as Hs.
    destruct (os_MkdirAll (fs w1) (filepath_Dir q)) as [fs2 err]. by split. }
  split; [exact HR1|].
  pose proof (R_keep_G _ _ HG1 HR1) as HG2.
  destruct (os_MkdirAll (fs w1) (filepath_Dir q)).2 as [err|]; cbn [wpr]; [done|].
  intros w3 H3. pose proof (R_keep_G _ _ HG2 H3) as HG3.
  split; [|by destruct (os_WriteFile (fs w3) q content).2].
  intros _. cbn [step1].
  pose proof (os_WriteFile_le (fs w3) q content) as Hle.
  pose proof (λ p (Hp : S p), os_WriteFile_keeps (fs w3) q content p (Hq p Hp)) as Hs.
  destruct (os_WriteFile (fs w3) q content) as [fs4 err]. by split.
Qed.

Lemma WriteFile_keep q content overwrite w :
  G w →
  (∀ a p, fs_le fs0 a → S p → same_at a (os_MkdirAll a (filepath_Dir q)).1 p) →
  (overwrite = true → writable q) →
  (∀ a e, fs_le fs0 a → os_Stat a q = Err e → writable q) →
  wpr R (λ (_ : option error) _, True) (WriteFile q content overwrite) w.
Proof.
  intros HG Hmk Hov Hstat. unfold WriteFile. destruct overwrite; cbn [negb].
  - apply write_keep; auto.
  - cbn [wpr]. intros w1 H1. pose proof (R_keep_G _ _ HG H1) as HG1.
    split; [by apply R_keep_quiet|].
    destruct (os_Stat (fs w1) q) as [n|err] eqn:Hs; [done|].
    destruct (os_IsNotExist err); cbn [negb]; [|done].
    apply write_keep; [done|by eapply Hstat|done].
Qed.

Lemma process_task_keep cfg trans task w :
  let q := target_of cfg (RelativePath task) in
  G w →
  (∀ a p, fs_le fs0 a → S p → same_at a (os_MkdirAll a (filepath_Dir q)).1 p) →
  (Overwrite cfg = true → writable q) →
  (∀ a e, fs_le fs0 a → os_Stat a q = Err e → writable q) →
  wp R (λ _ _, True) (process_task cfg trans task) w.
Proof.
  intros q HG Hmk Hov Hstat.
  assert (∀ c w, wp R (λ _ _, True) (Add c (Ret tt)) w) as Hleaf.
  { intros c w'. by apply wp_Add_keep. }
  assert (∀ w, G w → wp R (λ _ _, True) (process_task_from_read cfg trans task) w)
    as Hread.
  { intros w' HG'. unfold process_task_from_read.
    apply wp_bind; [apply R_keep_refl|].
    unfold ReadFile. cbn [wpr]. intros w1 H1.
    pose proof (R_keep_G _ _ HG' H1) as HG1.
    split; [by apply R_keep_quiet|].
    destruct (os_ReadFile (fs w1) _) as [content|err]; cbn [wpr]; intros w2 H2;
      [|apply Hleaf].
    pose proof (R_keep_G _ _ HG1 H2) as HG2.
    destruct (DryRun cfg); [apply Hleaf|].
    destruct trans as [tr|]; [|apply Hleaf].
    cbn [wp]. intros w3 H3. pose proof (R_keep_G _ _ HG2 H3) as HG3.
    split; [by apply R_keep_quiet|].
    destruct (Translate tr (calls_made w3) content) as [raw|err]; [|apply Hleaf].
    destruct (ExtractTranslation raw) as [translated|err]; [|apply Hleaf].
    apply wp_bind; [apply R_keep_refl|].
    eapply wpr_conseq; [|by apply WriteFile_keep].
    intros [err|] w5 _; apply Hleaf. }
  unfold process_task.
  destruct (negb (Overwrite cfg) && negb (DryRun cfg)); [|by apply Hread].
  cbn [wp]. intros w1 H1. pose proof (R_keep_G _ _ HG H1) as HG1.
  split; [by apply R_keep_quiet|].
  destruct (os_Stat (fs w1) _) as [n|err]; [apply Hleaf|].
  destruct (negb (os_IsNotExist err)); [apply Hleaf|by apply Hread].
Qed.

Lemma run_keep cfg files trans σ :
  (∀ f, f ∈ files →
     let q := target_of cfg f in
     (∀ a p, fs_le fs0 a → S p → same_at a (os_MkdirAll a (filepath_Dir q)).1 p) ∧
     (Overwrite cfg = true → writable q) ∧
     (∀ a e, fs_le fs0 a → os_Stat a q = Err e → writable q)) →
  rtc (pool_step cfg trans) (ProcessFiles_start cfg files fs0) σ →
  fs_le fs0 (final_fs σ) ∧ ∀ p, S p → same_at fs0 (final_fs σ) p.
Proof.
  intros Hfiles Hrtc.
  assert (pool_inv R (λ _ _ _, True) files
            (world (shared (ProcessFiles_start cfg files fs0))) σ) as Hinv.
  { eapply pool_inv_rtc; [..|exact Hrtc].
    - apply R_keep_refl.
    - apply R_keep_trans.
    - done.
    - intros f w Hf HR. destruct (Hfiles f Hf) as (Hmk & Hov & Hstat).
      apply process_task_keep; [|done..].
      eapply R_keep_G; [|exact HR]. apply fs_le_refl.
    - apply pool_inv_start; [apply R_keep_refl|done]. }
  apply (inv_rely _ _ _ _ _ Hinv). apply fs_le_refl.
Qed.

End Keep.

Lemma removelast_prefix {A} (l : list A) : removelast l `prefix_of` l.
Proof.
  rewrite removelast_firstn_len. apply prefix_take.
Qed.

Lemma exists_at_prefix a p q : exists_at a q → p `prefix_of` q → exists_at a p.
Proof.
  intros [n Hn] [r ->]. destruct r as [|c r].
  - rewrite app_nil_r in Hn. by exists n.
  - exists Dir. by eapply os_Stat_prefix.
Qed.

(** Whatever the configuration, a run only adds to the file system:
    what could be found before the run can be found after it, a file as
    a file and a directory as a directory; and every task that was
    counted as processed has its target file in place. *)
Theorem processed_targets_exist cfg files trans fs0 σ :
  rtc (pool_step cfg trans) (ProcessFiles_start cfg files fs0) σ →
  (∀ p n, os_Stat fs0 p = Ok n →
     ∃ n', os_Stat (final_fs σ) p = Ok n' ∧ IsDir n' = IsDir n) ∧
  (∀ task, (task, CProcessed) ∈ outcomes (shared σ) →
     exists_at (final_fs σ) (target_of cfg (RelativePath task))).
Proof.
  intros Hrtc. pose proof (run_grow _ _ _ _ _ Hrtc) as Hinv. split.
  - intros p n Hn. eapply os_Stat_le; [|exact Hn].
    exact (inv_rely _ _ _ _ _ Hinv).
  - intros task Hin.
    pose proof (inv_outcomes _ _ _ _ _ Hinv) as Hout.
    rewrite Forall_forall in Hout. by apply (Hout _ Hin).
Qed.

(** In the run into the fresh target tree the translation of [a.md] is
    in place at the end, and the source is still there. *)
Lemma processed_targets_exist_witness :
  exists_at (final_fs fresh_run) ["new"; "fr"; "a.md"] ∧
  ∃ n', os_Stat (final_fs fresh_run) ["src"; "a.md"] = Ok n' ∧ IsDir n' = false.
Proof.
  destruct (processed_targets_exist fresh_cfg demo_files (Some demo_backend)
              demo_fs fresh_run) as [Hkeep Hdone]; [apply run_schedule_rtc|].
  split.
  - apply (Hdone (mkTask ["a.md"])). vm_compute. repeat constructor.
  - apply (Hkeep ["src"; "a.md"] (File "alpha")). vm_compute. reflexivity.
Defined.

(** Without overwrite a run changes no file and no directory that was
    there before it, whatever the schedule and even when one file is
    listed twice: every path that could be found before the run answers
    [os.Stat] and [os.ReadFile] after it as it did before. *)
Theorem no_overwrite_keeps_files cfg files trans fs0 σ :
  Overwrite cfg = false →
  rtc (pool_step cfg trans) (ProcessFiles_start cfg files fs0) σ →
  ∀ p, exists_at fs0 p →
    os_Stat (final_fs σ) p = os_Stat fs0 p ∧
    os_ReadFile (final_fs σ) p = os_ReadFile fs0 p.
Proof.
  intros Ho Hrtc.
  destruct (run_keep fs0 (exists_at fs0) cfg files trans σ) as [Hle Hsame];
    [|exact Hrtc|].
  { intros f _ q. split; [|split].
    - intros a p Hle Hp. apply os_MkdirAll_keeps. right. by eapply exists_at_le.
    - by rewrite Ho.
    - intros a e Hle He p Hp ->.
      destruct (exists_at_le _ _ _ Hle Hp) as [n Hn]. congruence. }
  intros p Hp. apply calls_same. intros q Hq. apply Hsame.
  by eapply exists_at_prefix.
Qed.

(** The run onto the old target tree leaves the old translation of
    [c.md] as it was. *)
Lemma no_overwrite_keeps_files_witness :
  os_ReadFile (final_fs demo_run) ["out"; "c.md"] = Ok "[fr] old gamma".
Proof.
  destruct (no_overwrite_keeps_files demo_cfg demo_files (Some demo_backend)
              demo_fs demo_run eq_refl (run_schedule_rtc _ _ _ _) ["out"; "c.md"])
    as [_ Hread].
  - exists (File "[fr] old gamma"). vm_compute. reflexivity.
  - rewrite Hread. vm_compute. reflexivity.
Defined.

(** Once the target directory exists, a run changes nothing outside
    it, with or without overwrite: a path that is not below the target
    directory answers [os.Stat] and [os.ReadFile] after the run as it
    did before. *)
Theorem changes_stay_below_target cfg files trans fs0 σ :
  os_Stat fs0 (TargetDir cfg) = Ok Dir →
  rtc (pool_step cfg trans) (ProcessFiles_start cfg files fs0) σ →
  ∀ p, ¬ TargetDir cfg `prefix_of` p →
    os_Stat (final_fs σ) p = os_Stat fs0 p ∧
    os_ReadFile (final_fs σ) p = os_ReadFile fs0 p.
Proof.
  intros HT Hrtc.
  destruct (run_keep fs0 (λ p, ¬ TargetDir cfg `prefix_of` p) cfg files trans σ)
    as [Hle Hsame]; [|exact Hrtc|].
  { intros f _ q.
    assert (writable (λ p, ¬ TargetDir cfg `prefix_of` p) q) as Hq.
    { intros p Hp ->. apply Hp. by apply prefix_app_r. }
    split; [|by split].
    intros a p Hle Hp. apply os_MkdirAll_keeps.
    destruct (decide (p `prefix_of` filepath_Dir q)) as [Hpre|]; [right|by left].
    assert (p `prefix_of` q) as Hpq.
    { etrans; [exact Hpre|apply removelast_prefix]. }
    destruct (prefix_weak_total p (TargetDir cfg) q Hpq) as [Hin|Hout];
      [by apply prefix_app_r| |done].
    eapply exists_at_prefix; [|exact Hin].
    eapply exists_at_le; [exact Hle|]. by eexists. }
  intros p Hp. apply calls_same. intros q Hq. apply Hsame.
  intros HTq. apply Hp. by etrans.
Qed.

(** With overwrite, the run onto the old target tree replaces the old
    translation and leaves the source tree as it was. *)
Lemma changes_stay_below_target_witness :
  os_ReadFile (final_fs (run_schedule overwrite_cfg (Some demo_backend)
                 (fair_schedule 3 2)
                 (ProcessFiles_start overwrite_cfg demo_files demo_fs)))
    ["src"; "c.md"] = Ok "gamma".
Proof.
  destruct (changes_stay_below_target overwrite_cfg demo_files (Some demo_backend)
              demo_fs _ eq_refl (run_schedule_rtc _ _ (fair_schedule 3 2) _)
              ["src"; "c.md"]) as [_ Hread].
  - intros [r Hr]. discriminate Hr.
  - rewrite Hread. vm_compute. reflexivity.
Defined.

(** *** A backend that never delivers *)

Lemma R_same_refl w : R_same w w.
Proof. done. Qed.

Lemma R_same_trans w1 w2 w3 : R_same w1 w2 → R_same w2 w3 → R_same w1 w3.
Proof. unfold R_same. congruence. Qed.

(** Without a translation the loop body ends before [utils.WriteFile]. *)
Lemma process_task_down cfg trans task w :
  never_translates trans →
  wp R_same (λ c _, c ≠ CProcessed) (process_task cfg trans task) w.
Proof.
  intros Hdown.
  assert (∀ c w, c ≠ CProcessed →
            wp R_same (λ c _, c ≠ CProcessed) (Add c (Ret tt)) w) as Hleaf.
  { intros c w' Hc. cbn [wp]. split; [done|]. by intros w1 _. }
  assert (∀ w, wp R_same (λ c _, c ≠ CProcessed)
                 (process_task_from_read cfg trans task) w) as Hread.
  { intros w'. unfold process_task_from_read. apply wp_bind; [apply R_same_refl|].
    unfold ReadFile. cbn [wpr]. intros w1 H1. split; [done|].
    destruct (os_ReadFile (fs w1) _) as [content|err]; cbn [wpr]; intros w2 H2;
      [|by apply Hleaf].
    destruct (DryRun cfg); [by apply Hleaf|].
    destruct trans as [tr|]; [|by apply Hleaf].
    cbn [wp]. intros w3 H3. split; [done|].
    destruct (Translate tr (calls_made w3) content) as [raw|err] eqn:Hraw;
      [|by apply Hleaf].
    rewrite ExtractTranslation_no_markers by (by eapply Hdown).
    by apply Hleaf. }
  unfold process_task.
  destruct (negb (Overwrite cfg) && negb (DryRun cfg)); [|apply Hread].
  cbn [wp]. intros w1 H1. split; [done|].
  destruct (os_Stat (fs w1) _) as [n|err]; [by apply Hleaf|].
  destruct (negb (os_IsNotExist err)); [by apply Hleaf|apply Hread].
Qed.

(** When the backend delivers nothing that holds a marker pair (it
    fails, it answers without the markers, or there is none), a run
    leaves the file system exactly as it was: no directory is created
    and no file, not even an empty one; and nothing is counted as
    processed. *)
Theorem failed_translation_leaves_no_file cfg files trans fs0 σ :
  never_translates trans →
  rtc (pool_step cfg trans) (ProcessFiles_start cfg files fs0) σ →
  final_fs σ = fs0 ∧
  Processed (final_stats σ) = 0 ∧
  ∀ task c, (task, c) ∈ outcomes (shared σ) → c ≠ CProcessed.
Proof.
  intros Hdown Hrtc.
  assert (pool_inv R_same (λ _ c _, c ≠ CProcessed) files
            (world (shared (ProcessFiles_start cfg files fs0))) σ) as Hinv.
  { eapply pool_inv_rtc; [..|exact Hrtc].
    - apply R_same_refl.
    - apply R_same_trans.
    - done.
    - intros f w _ _. by apply process_task_down.
    - apply pool_inv_start; [apply R_same_refl|done]. }
  pose proof (inv_outcomes _ _ _ _ _ Hinv) as Hout. cbn beta in Hout.
  split; [exact (inv_rely _ _ _ _ _ Hinv)|]. split.
  - pose proof (inv_stats _ _ _ _ _ Hinv CProcessed) as HP. cbn [Load] in HP.
    unfold final_stats. rewrite HP, tally_none; [done|].
    eapply Forall_impl; [exact Hout|]. by intros [task c].
  - intros task c Hin. rewrite Forall_forall in Hout. exact (Hout _ Hin).
Qed.

(** A backend that answers every call with an error: the fresh target
    tree is not even created. *)
Lemma failed_translation_leaves_no_file_witness :
  final_fs down_run = demo_fs ∧ Failed (final_stats down_run) = 3.
Proof.
  destruct (failed_translation_leaves_no_file fresh_cfg demo_files
              (Some down_backend) demo_fs down_run) as (Hfs & _ & _).
  - intros tr n content raw [= <-]. discriminate.
  - apply run_schedule_rtc.
  - split; [exact Hfs|]. vm_compute. reflexivity.
Defined.

(** *** A source root that is a file *)

Lemma wp_conseq R (Φ Ψ : Counter → World → Prop) p w :
  (∀ c w', Φ c w' → Ψ c w') → wp R Φ p w → wp R Ψ p w.
Proof.
  intros HΦ. revert w.
  induction p as [a|q k IH|q k IH|q k IH|q data k IH|tr content k IH|c k IH];
    intros w; cbn [wp]; intros H; try done;
    try (intros w1 H1; destruct (H w1 H1) as [HR Hk]; split; [exact HR|]; by apply IH).
  destruct H as [-> H]. split; [done|]. intros w1 H1.
  destruct (H w1 H1) as [HR Hc]. split; [exact HR|]. by apply HΦ.
Qed.

Lemma is_dir_le a b p : fs_le a b → os_Stat a p = Ok Dir → os_Stat b p = Ok Dir.
Proof.
  intros Hle Hp. destruct (os_Stat_le a b p Dir Hle Hp) as (n' & Hn' & Hd).
  by destruct n'.
Qed.

Lemma os_WriteFile_dir a p data :
  os_Stat a p = Ok Dir → ∃ e, (os_WriteFile a p data).2 = Some e.
Proof.
  unfold os_Stat, os_WriteFile. destruct (walk a [] p); [done|].
  destruct (node_at a p) as [[old|]|]; try done. by eexists.
Qed.

(** The task for the path [.]: its target is the target directory. *)
Lemma process_task_root cfg trans w :
  os_Stat (fs w) (TargetDir cfg) = Ok Dir →
  wp R_grow
    (λ c _, c ≠ CProcessed ∧
            (Overwrite cfg = false → DryRun cfg = false → c = CSkipped))
    (process_task cfg trans (mkTask [])) w.
Proof.
  set (Φ := λ (c : Counter) (_ : World), c ≠ CProcessed ∧
              (Overwrite cfg = false → DryRun cfg = false → c = CSkipped)).
  intros HT.
  assert (∀ c w, c ≠ CProcessed ∧
                 (Overwrite cfg = false → DryRun cfg = false → c = CSkipped) →
                 wp R_grow Φ (Add c (Ret tt)) w) as Hleaf.
  { intros c w' Hc. apply wp_Add_grow. by intros w1 _. }
  assert (∀ w, os_Stat (fs w) (TargetDir cfg) = Ok Dir →
               Overwrite cfg = true ∨ DryRun cfg = true →
               wp R_grow Φ (process_task_from_read cfg trans (mkTask [])) w) as Hread.
  { intros w' HT' Hmode.
    assert (∀ c, (Overwrite cfg = false → DryRun cfg = false → c = CSkipped)) as Hno.
    { intros c Ho Hd. destruct Hmode; congruence. }
    unfold process_task_from_read. apply wp_bind; [apply R_grow_refl|].
    unfold ReadFile. cbn [wpr]. intros w1 H1. split; [apply step1_grow|].
    pose proof (is_dir_le _ _ _ H1 HT') as HT1.
    destruct (os_ReadFile (fs w1) _) as [content|err]; cbn [wpr]; intros w2 H2;
      [|by (apply Hleaf; split; [|apply Hno])].
    pose proof (is_dir_le _ _ _ H2 HT1) as HT2.
    destruct (DryRun cfg); [by (apply Hleaf; split; [|apply Hno])|].
    destruct trans as [tr|]; [|by (apply Hleaf; split; [|apply Hno])].
    cbn [wp]. intros w3 H3. split; [apply step1_grow|].
    pose proof (is_dir_le _ _ _ H3 HT2) as HT3.
    destruct (Translate tr (calls_made w3) content) as [raw|err]; [|by (apply Hleaf; split; [|apply Hno])].
    destruct (ExtractTranslation raw) as [translated|err]; [|by (apply Hleaf; split; [|apply Hno])].
    destruct Hmode as [Ho|?]; [|done]. rewrite Ho.
    unfold filepath_Join at 1. cbn [RelativePath]. rewrite app_nil_r.
    unfold WriteFile, WriteFile_write.
    cbn [negb mbind prog_bind bind wp]. intros w4 H4. split; [apply step1_grow|].
    pose proof (is_dir_le _ _ _ H4 HT3) as HT4.
    pose proof (os_MkdirAll_le (fs w4) (filepath_Dir (TargetDir cfg))) as Hmk.
    cbn [step1].
    destruct (os_MkdirAll (fs w4) (filepath_Dir (TargetDir cfg))) as [fs5 [err|]];
      cbn [snd bind wp fst] in *; [by (apply Hleaf; split; [|apply Hno])|].
    pose proof (is_dir_le _ _ _ Hmk HT4) as HT5.
    intros w6 H6. split; [apply step1_grow|].
    pose proof (is_dir_le _ _ _ H6 HT5) as HT6.
    destruct (os_WriteFile_dir (fs w6) (TargetDir cfg) translated HT6) as [e ->].
    by (apply Hleaf; split; [|apply Hno]). }
  unfold process_task.
  destruct (Overwrite cfg) eqn:Ho; cbn [negb andb]; [by apply Hread; auto|].
  destruct (DryRun cfg) eqn:Hd; cbn [negb]; [by apply Hread; auto|].
  unfold filepath_Join. cbn [wp RelativePath]. rewrite app_nil_r.
  intros w1 H1. split; [apply step1_grow|].
  rewrite (is_dir_le _ _ _ H1 HT). by apply Hleaf.
Qed.

Lemma relative_to_refl p : relative_to p p = [].
Proof.
  induction p as [|c p IH]; [done|]. cbn [relative_to].
  by rewrite bool_decide_true.
Qed.

(** A source root that is not a directory but a markdown file is
    discovered as the one path [.]; its target is then the target
    directory itself, and once that directory exists the file is never
    translated: without overwrite it is skipped, with overwrite the
    write fails. *)
Theorem root_file_is_never_translated cfg files trans fs0 σ name :
  os_Stat fs0 (TargetDir cfg) = Ok Dir →
  rtc (pool_step cfg trans) (ProcessFiles_start cfg files fs0) σ →
  FindMarkdownFiles (SourceDir cfg) (LstatOk (EFile name))
  = Ok (if is_markdown name then [[]] else []) ∧
  ∀ c, (mkTask [], c) ∈ outcomes (shared σ) →
    c ≠ CProcessed ∧ (Overwrite cfg = false → DryRun cfg = false → c = CSkipped).
Proof.
  intros HT Hrtc. split.
  { unfold FindMarkdownFiles, WalkDir. cbn [walkDir visit dIsDir Name negb andb].
    unfold is_markdown, filepath_Rel. rewrite relative_to_refl.
    by destruct (HasSuffix (ToLower name) ".md"). }
  assert (pool_inv R_grow (λ task c _, RelativePath task = [] →
               c ≠ CProcessed ∧
               (Overwrite cfg = false → DryRun cfg = false → c = CSkipped)) files
            (world (shared (ProcessFiles_start cfg files fs0))) σ) as Hinv.
  { eapply pool_inv_rtc; [..|exact Hrtc].
    - apply R_grow_refl.
    - apply R_grow_trans.
    - done.
    - intros f w _ HR. destruct f as [|x f].
      + eapply wp_conseq; [|apply process_task_root].
        * by intros c w' H _.
        * by apply (is_dir_le _ _ _ HR).
      + eapply wp_conseq; [|apply process_task_grow]. by intros c w' _ [=].
    - apply pool_inv_start; [apply R_grow_refl|done]. }
  intros c Hin. pose proof (inv_outcomes _ _ _ _ _ Hinv) as Hout.
  rewrite Forall_forall in Hout. by apply (Hout _ Hin).
Qed.

(** The source root [src/a.md], with overwrite: the one task fails on
    the write to the directory [out]. *)
Lemma root_file_is_never_translated_witness :
  FindMarkdownFiles ["src"; "a.md"] (LstatOk (EFile "a.md")) = Ok [[]] ∧
  outcomes (shared single_run) = [(mkTask [], CFailed)] ∧
  CFailed ≠ CProcessed.
Proof.
  destruct (root_file_is_never_translated single_cfg [[]] (Some demo_backend)
              demo_fs single_run "a.md") as [Hfind Hcount].
  - vm_compute. reflexivity.
  - apply run_schedule_rtc.
  - split; [exact Hfind|]. split; [vm_compute; reflexivity|].
    apply (Hcount CFailed). vm_compute. repeat constructor.
Defined.

(** ** utils/text.go: what [ExtractTranslation] returns *)

Section Extraction.

Implicit Types (s a b l r p X cap raw : string).

Lemma contains_app_l p a b : contains p a = true → contains p (a +:+ b) = true.
Proof.
  induction a as [|c a IH].
  - destruct p as [|x p]; [|done]. intros _. by destruct b.
  - change (contains p (String c a))
      with (HasPrefix (String c a) p || contains p a).
    change (contains p (String c a +:+ b))
      with (HasPrefix (String c a +:+ b) p || contains p (a +:+ b)).
    intros [Hpre|Hin]%orb_true_iff; apply orb_true_iff.
    + left. unfold HasPrefix in *.
      destruct (strip_prefix p (String c a)) as [x|] eqn:E; [|done].
      apply strip_prefix_Some in E.
      by rewrite E, append_assoc, strip_prefix_app.
    + right. by apply IH.
Qed.

Lemma contains_app_r p a b : contains p b = true → contains p (a +:+ b) = true.
Proof.
  intros Hb. induction a as [|c a IH]; [done|].
  change (contains p (String c a +:+ b))
    with (HasPrefix (String c a +:+ b) p || contains p (a +:+ b)).
  apply orb_true_iff. by right.
Qed.

(** A piece of a text that does not hold [p] does not hold [p]. *)
Lemma contains_piece p l X r :
  contains p (l +:+ X +:+ r) = false → contains p X = false.
Proof.
  intros H. destruct (contains p X) eqn:E; [|done].
  rewrite <-H. symmetry. by apply contains_app_r, contains_app_l.
Qed.

(** The capture is the shortest one: it does not hold the end marker. *)
Lemma lazy_until_close_no_close s cap rest :
  lazy_until_close s = Some (cap, rest) → contains close_tag cap = false.
Proof.
  revert cap rest. induction s as [|c s IH]; intros cap rest;
    rewrite lazy_until_close_eq.
  - cbn. done.
  - destruct (strip_prefix close_tag (String c s)) as [r|] eqn:E.
    + by intros [= <- <-].
    + destruct (lazy_until_close s) as [[cap' rest']|] eqn:El; [|done].
      intros [= <- <-]. cbn [contains]. rewrite (IH cap' rest') by done.
      rewrite orb_false_r. unfold HasPrefix.
      destruct (strip_prefix close_tag (String c cap')) as [x|] eqn:E'; [|done].
      apply strip_prefix_Some in E'.
      apply lazy_until_close_sound in El.
      assert (String c s = close_tag +:+ (x +:+ close_tag +:+ rest')) as Hs.
      { rewrite El. change (String c (cap' +:+ close_tag +:+ rest'))
          with (String c cap' +:+ close_tag +:+ rest').
        by rewrite E', append_assoc. }
      by rewrite Hs, strip_prefix_app in E.
Qed.

Lemma FindStringSubmatch_capture s w cap :
  FindStringSubmatch s = [w; cap] →
  (∃ a b, s = a +:+ open_tag +:+ cap +:+ close_tag +:+ b) ∧
  contains close_tag cap = false.
Proof.
  induction s as [|c s IH]; rewrite FindStringSubmatch_eq_cons.
  - by cbn.
  - destruct (match_here (String c s)) as [[cap' rest]|] eqn:E.
    + intros [= <- <-]. split.
      * exists EmptyString, rest. by apply match_here_sound.
      * unfold match_here in E.
        destruct (strip_prefix open_tag (String c s)); [|done].
        by eapply lazy_until_close_no_close.
    + intros [(a & b & ->) Hc]%IH. split; [|done]. by exists (String c a), b.
Qed.

Lemma TrimSpace_idem s : TrimSpace (TrimSpace s) = TrimSpace s.
Proof.
  destruct (TrimSpace_done s) as [Hl Hr]. set (t := TrimSpace s) in *.
  unfold TrimSpace at 1.
  assert (TrimLeftSpace t = t) as ->.
  { unfold TrimLeftSpace. destruct (String.length t); cbn [trim_loop]; [done|].
    by rewrite Hl. }
  unfold TrimRightSpace.
  destruct (String.length t); cbn [trim_loop]; [apply srev_involutive|].
  rewrite Hr. apply srev_involutive.
Qed.

(** Whatever [ExtractTranslation] returns is a piece of the raw output
    that stands between a start marker and the first end marker after
    it; it does not hold an end marker, and it starts and ends with no
    white space (trimming it again changes nothing). *)
Theorem ExtractTranslation_result raw X :
  ExtractTranslation raw = Ok X →
  (∃ a l r b, raw = a +:+ open_tag +:+ (l +:+ X +:+ r) +:+ close_tag +:+ b ∧
              X = TrimSpace (l +:+ X +:+ r)) ∧
  contains close_tag X = false ∧
  TrimSpace X = X.
Proof.
  unfold ExtractTranslation. rewrite FindStringSubmatch_TrimSpace.
  destruct (FindStringSubmatch_cases raw) as [->|[cap Hcap]]; [done|].
  rewrite Hcap. cbn [length Nat.ltb Nat.leb nth]. intros [= <-].
  destruct (FindStringSubmatch_capture _ _ _ Hcap) as [(a & b & Hraw) Hc].
  destruct (TrimSpace_split cap) as (l & r & Hsplit & _ & _).
  split; [|split].
  - exists a, l, r, b. by rewrite <-Hsplit.
  - rewrite Hsplit in Hc. by eapply contains_piece.
  - apply TrimSpace_idem.
Qed.

Lemma ExtractTranslation_result_witness :
  contains close_tag "Bonjour" = false ∧ TrimSpace "Bonjour" = "Bonjour".
Proof.
  destruct (ExtractTranslation_result
              "Sure! <translate> Bonjour </translate> bye <translate>x</translate>"
              "Bonjour") as (_ & Hc & Ht).
  - vm_compute. reflexivity.
  - by split.
Defined.

(** *** The error text *)

Lemma doPrintf0_plain fuel s :
  char_in "%" s = false → (String.length s < fuel)%nat →
  Fmt.doPrintf0 fuel s = Some s.
Proof.
  revert fuel. induction s as [|c s IH]; intros fuel Hc Hlen.
  - destruct fuel; [lia|done].
  - destruct fuel as [|fuel]; [lia|].
    cbn [char_in] in Hc. apply orb_false_elim in Hc as [Hc Hs].
    cbn [String.length] in Hlen.
    specialize (IH fuel Hs ltac:(lia)).
    destruct c as [[] [] [] [] [] [] [] []];
      try discriminate Hc; cbn [Fmt.doPrintf0]; by rewrite IH.
Qed.

Lemma Sprintf0_plain s : char_in "%" s = false → Fmt.Sprintf0 s = Some s.
Proof. intros H. apply doPrintf0_plain; [done|lia]. Qed.

Lemma char_in_preview c raw :
  char_in c raw = false → char_in c "..." = false →
  char_in c (extract_preview raw) = false.
Proof.
  intros Hraw Hdots. unfold extract_preview.
  destruct (300 <? String.length raw)%nat; [|done].
  destruct (slice_to_prefix 300 raw) as [rest Hrest].
  rewrite Hrest, char_in_append in Hraw. apply orb_false_elim in Hraw as [Hs _].
  by rewrite char_in_append, Hs.
Qed.

(** For a raw output without a marker pair and without a percent
    sign, the text of the error is the fixed message followed by the
    preview, exactly as it is logged. *)
Theorem ExtractTranslation_error_text raw :
  ¬ has_marker_pair raw → char_in "%" raw = false →
  ∃ err, ExtractTranslation raw = Err err ∧
         Error err = Some (extract_error_prefix +:+ extract_preview raw).
Proof.
  intros Hn Hp. exists (Errorf (extract_errMsg raw) []).
  split; [by apply ExtractTranslation_no_markers|].
  cbn [Error]. apply Sprintf0_plain. unfold extract_errMsg.
  rewrite char_in_append, char_in_preview by done. by vm_compute.
Qed.

Lemma ExtractTranslation_error_text_witness :
  ∃ err, ExtractTranslation "no tags" = Err err ∧
         Error err = Some (extract_error_prefix +:+ "no tags").
Proof.
  apply (ExtractTranslation_error_text "no tags").
  - intros H%FindStringSubmatch_complete. by apply H.
  - reflexivity.
Defined.

End Extraction.

(** ** utils/io.go: writing and reading back *)

Lemma exec_WriteFile_done p content overwrite w :
  (exec (WriteFile p content overwrite) w).1 = None →
  (overwrite = false ∧ exists_at (fs w) p ∧
   fs (exec (WriteFile p content overwrite) w).2 = fs w) ∨
  ((overwrite = true ∨ ¬ exists_at (fs w) p) ∧
   os_Stat (fs (exec (WriteFile p content overwrite) w).2) p = Ok (File content) ∧
   os_ReadFile (fs (exec (WriteFile p content overwrite) w).2) p = Ok content).
Proof.
  assert (∀ w', (exec (WriteFile_write p content) w').1 = None →
            os_Stat (fs (exec (WriteFile_write p content) w').2) p = Ok (File content) ∧
            os_ReadFile (fs (exec (WriteFile_write p content) w').2) p = Ok content)
    as Hwrite.
  { intros w'. rewrite exec_write.
    destruct (os_MkdirAll (fs w') (filepath_Dir p)) as [fs1 [e|]]; cbn [fst snd]; [done|].
    destruct (os_WriteFile fs1 p content) as [fs2 [e|]] eqn:Hw; cbn [fst snd fs]; [done|].
    intros _. by apply (os_WriteFile_ok fs1). }
  unfold WriteFile. destruct overwrite; cbn [negb exec].
  - intros H. right. split; [by left|]. by apply Hwrite.
  - destruct (os_Stat (fs w) p) as [n|e] eqn:Hs.
    + intros _. left. split; [done|]. split; [by exists n|done].
    + destruct (os_IsNotExist e); cbn [negb exec]; [|done].
      intros H. right. split; [|by apply Hwrite].
      right. intros [n Hn]. unfold exists_at in *. congruence.
Qed.

(** What [utils.WriteFile] has written, [utils.ReadFile] reads back;
    and after any successful [WriteFile] a second one without overwrite
    succeeds and changes nothing. *)
Theorem WriteFile_then_ReadFile p content overwrite w :
  (exec (WriteFile p content overwrite) w).1 = None →
  let w1 := (exec (WriteFile p content overwrite) w).2 in
  (overwrite = true ∨ ¬ exists_at (fs w) p →
   (exec (ReadFile p) w1).1 = Ok content ∧ fs (exec (ReadFile p) w1).2 = fs w1) ∧
  (∀ other, (exec (WriteFile p other false) w1).1 = None ∧
            fs (exec (WriteFile p other false) w1).2 = fs w1).
Proof.
  intros Hok w1.
  destruct (exec_WriteFile_done p content overwrite w Hok)
    as [(-> & Hex & Hfs)|(Hcase & Hstat & Hread)]; fold w1 in Hfs || fold w1 in Hstat, Hread.
  - split; [intros [?|?]; done|].
    intros other. unfold WriteFile. cbn [negb exec]. rewrite Hfs.
    by destruct Hex as [n ->].
  - split.
    + intros _. unfold ReadFile. cbn [exec]. by rewrite Hread.
    + intros other. unfold WriteFile. cbn [negb exec]. by rewrite Hstat.
Qed.

Lemma WriteFile_then_ReadFile_witness :
  (exec (ReadFile ["new"; "fr"; "a.md"])
     (exec (WriteFile ["new"; "fr"; "a.md"] "alpha [fr]" false) demo_world).2).1
  = Ok "alpha [fr]".
Proof.
  destruct (WriteFile_then_ReadFile ["new"; "fr"; "a.md"] "alpha [fr]" false demo_world)
    as [Hread _]; [vm_compute; reflexivity|].
  apply Hread. right. intros [n Hn]. vm_compute in Hn. discriminate Hn.
Defined.
